(** * Cyberpunk Settings UI: particle field and procedural audio engine

    A shallow embedding of the two algorithmic fragments of the
    repository: the canvas particle simulation ([Particle.update],
    [ParticleBackground]) and the Web Audio sound code ([AudioEngine],
    [useSoundEngine]); and, around them, the loading screens, the
    slider and the settings view of App.jsx, the keyboard handling of
    the hook-based app and the system monitor.

    JavaScript numbers are idealised as real numbers: [Math.sqrt] is
    [sqrt], the comparisons are the order of [R], and no rounding,
    overflow or NaN is modelled. *)

From stdpp Require Import strings.
From Stdlib Require Import ZArith Reals Lra Lia.
From stdpp Require Import base list option.

Open Scope R_scope.

(** ** Numbers *)

(** The comparisons [a < b] and [a > b] of the source, as booleans. *)
Definition Rltb (a b : R) : bool := if Rlt_dec a b then true else false.
Definition Rgtb (a b : R) : bool := Rltb b a.

(** ** Particle field (App.jsx, [createParticleClass]) *)

Module ParticleField.

(** [canvas.width] and [canvas.height]. *)
Record Canvas := mkCanvas { width : R; height : R }.

(** [mouseRef.current]. *)
Record Mouse := mkMouse { mouse_x : R; mouse_y : R; active : bool }.

(** The fields of a [Particle] instance. *)
Record Particle := mkParticle {
  x : R; y : R; vx : R; vy : R; size : R; alpha : R
}.

(** [const maxDist = 250]. *)
Definition maxDist : R := 250.

(** The pointer block of [update]: from the position already advanced
    by the velocity, the new velocity before damping. *)
Definition pointer_force (mouse : Mouse) (x1 y1 vx0 vy0 : R) : R * R :=
  if active mouse then
    let dx := x1 - mouse_x mouse in
    let dy := y1 - mouse_y mouse in
    let dist := sqrt (dx * dx + dy * dy) in
    if Rltb dist maxDist && Rgtb dist 0 then
      let force := (maxDist - dist) / maxDist in
      (vx0 + (dx / dist) * force * 0.4, vy0 + (dy / dist) * force * 0.4)
    else (vx0, vy0)
  else (vx0, vy0).

(** The two wrap tests on one coordinate, in source order:
    [if (x < 0) x = w; if (x > w) x = 0]. *)
Definition wrap (w c : R) : R :=
  let c1 := if Rltb c 0 then w else c in
  if Rgtb c1 w then 0 else c1.

(** [Particle.update()]. *)
Definition update (canvas : Canvas) (mouse : Mouse) (p : Particle) : Particle :=
  let x1 := x p + vx p in
  let y1 := y p + vy p in
  let '(vx1, vy1) := pointer_force mouse x1 y1 (vx p) (vy p) in
  let vx2 := vx1 * 0.96 in
  let vy2 := vy1 * 0.96 in
  mkParticle (wrap (width canvas) x1) (wrap (height canvas) y1)
             vx2 vy2 (size p) (alpha p).

(** The distance [dist] that [update] computes: from the advanced
    position to the pointer. *)
Definition pointer_dist (mouse : Mouse) (p : Particle) : R :=
  let dx := x p + vx p - mouse_x mouse in
  let dy := y p + vy p - mouse_y mouse in
  sqrt (dx * dx + dy * dy).

(** Velocity magnitude. *)
Definition speed (p : Particle) : R := sqrt (vx p * vx p + vy p * vy p).

(** One [animate] frame: [particles.forEach(p => p.update())]. *)
Definition step (canvas : Canvas) (mouse : Mouse) (ps : list Particle)
  : list Particle :=
  map (update canvas mouse) ps.

(** [K] frames; the pointer state of each frame is given in order. *)
Fixpoint run (canvas : Canvas) (frames : list Mouse) (ps : list Particle)
  : list Particle :=
  match frames with
  | [] => ps
  | m :: rest => run canvas rest (step canvas m ps)
  end.

(** The frames of [run] seen by one particle. *)
Fixpoint steps (canvas : Canvas) (frames : list Mouse) (p : Particle)
  : Particle :=
  match frames with
  | [] => p
  | m :: rest => steps canvas rest (update canvas m p)
  end.

(** What the pointer block adds to the velocity in one [update]. *)
Definition added_force (mouse : Mouse) (p : Particle) : R * R :=
  let '(vx1, vy1) :=
    pointer_force mouse (x p + vx p) (y p + vy p) (vx p) (vy p) in
  (vx1 - vx p, vy1 - vy p).

(** [force * 0.4] at distance [d]. *)
Definition strength (d : R) : R := (maxDist - d) / maxDist * 0.4.

(** The component of [f] along the direction from the (advanced)
    particle to the pointer, times the distance: positive when [f]
    points toward the pointer, negative when it points away. *)
Definition toward_pointer (mouse : Mouse) (p : Particle) (f : R * R) : R :=
  f.1 * (mouse_x mouse - (x p + vx p)) + f.2 * (mouse_y mouse - (y p + vy p)).

(** *** Division made partial

    [a / b] in JavaScript is not a finite number when [b] is zero. The
    pointer block again, with each division checked. *)
Definition div_finite (a b : R) : option R :=
  if Req_dec_T b 0 then None else Some (a / b).

Definition pointer_force_checked (mouse : Mouse) (x1 y1 vx0 vy0 : R)
  : option (R * R) :=
  if active mouse then
    let dx := x1 - mouse_x mouse in
    let dy := y1 - mouse_y mouse in
    let dist := sqrt (dx * dx + dy * dy) in
    if Rltb dist maxDist && Rgtb dist 0 then
      force ← div_finite (maxDist - dist) maxDist;
      ux ← div_finite dx dist;
      uy ← div_finite dy dist;
      Some (vx0 + ux * force * 0.4, vy0 + uy * force * 0.4)
    else Some (vx0, vy0)
  else Some (vx0, vy0).

Definition update_checked (canvas : Canvas) (mouse : Mouse) (p : Particle)
  : option Particle :=
  let x1 := x p + vx p in
  let y1 := y p + vy p in
  v ← pointer_force_checked mouse x1 y1 (vx p) (vy p);
  Some (mkParticle (wrap (width canvas) x1) (wrap (height canvas) y1)
                   (v.1 * 0.96) (v.2 * 0.96) (size p) (alpha p)).

(** *** Position bounds *)

(** Inside the canvas, right and bottom edges excluded. *)
Definition in_half_open (canvas : Canvas) (p : Particle) : Prop :=
  0 <= x p < width canvas /\ 0 <= y p < height canvas.

(** Inside the canvas, all four edges included. *)
Definition in_bounds (canvas : Canvas) (p : Particle) : Prop :=
  0 <= x p <= width canvas /\ 0 <= y p <= height canvas.

(** *** Construction ([constructor], [reset]) *)

(** [Math.random()]: an injected stream of draws, each in [[0, 1)]. *)
Definition Rand := nat -> R.

Definition drop_draws (n : nat) (rnd : Rand) : Rand := fun i => rnd (n + i)%nat.

(** [reset(isBurst)], which the constructor calls on a zeroed
    particle; every field is overwritten, in the order of the draws. *)
Definition reset (canvas : Canvas) (isBurst : bool) (rnd : Rand) : Particle :=
  if isBurst then
    let angle := rnd 0%nat * PI * 2 in
    let speed0 := rnd 1%nat * 15 + 5 in
    mkParticle (width canvas / 2) (height canvas / 2)
               (cos angle * speed0) (sin angle * speed0)
               (rnd 2%nat * 2 + 0.5) (rnd 3%nat * 0.5 + 0.1)
  else
    mkParticle (rnd 0%nat * width canvas) (rnd 1%nat * height canvas)
               ((rnd 2%nat - 0.5) * 0.5) ((rnd 3%nat - 0.5) * 0.5)
               (rnd 4%nat * 2 + 0.5) (rnd 5%nat * 0.5 + 0.1).

(** Number of [Math.random()] calls of one [reset]. *)
Definition draws (isBurst : bool) : nat := if isBurst then 4%nat else 6%nat.

(** [for (i = 0; i < n; i++) particles.push(new Particle(isBurst))]. *)
Fixpoint push_new (n : nat) (canvas : Canvas) (isBurst : bool)
    (rnd : Rand) (ps : list Particle) : list Particle * Rand :=
  match n with
  | O => (ps, rnd)
  | S k => push_new k canvas isBurst (drop_draws (draws isBurst) rnd)
                    (ps ++ [reset canvas isBurst rnd])
  end.

(** *** The [ParticleBackground] effect *)

(** [window.innerWidth], [window.innerHeight]: whole CSS pixels. *)
Record Viewport := mkViewport { innerWidth : nat; innerHeight : nat }.

(** [const count = window.innerWidth < 768 ? 60 : 150]. *)
Definition count_for (v : Viewport) : nat :=
  if (innerWidth v <? 768)%nat then 60%nat else 150%nat.

(** [particles.splice(start)]: everything from index [start] on is
    removed; nothing is removed when [start] is past the end. *)
Definition splice (start : nat) (ps : list Particle) : list Particle :=
  take start ps.

(** The state the component keeps between renders. [particles] is the
    one array behind [particlesRef.current]: every effect run and every
    timer callback holds a reference to this same array. [pending] are
    the [setTimeout] callbacks not yet run, oldest first, each with its
    due time in milliseconds and the [count] its closure captured. *)
Record Field := mkField {
  canvas : Canvas;
  mouse : Mouse;
  particles : list Particle;
  pending : list (nat * nat);
  now : nat;
  rnd : Rand
}.

(** [useRef] initial values, before the first effect run. *)
Definition mount (c : Canvas) (r : Rand) : Field :=
  mkField c (mkMouse 0 0 false) [] [] 0%nat r.

(** [resize()]. *)
Definition resize (v : Viewport) (f : Field) : Field :=
  mkField (mkCanvas (INR (innerWidth v)) (INR (innerHeight v)))
          (mouse f) (particles f) (pending f) (now f) (rnd f).

(** The burst delay of [setTimeout(..., 2000)]. *)
Definition burst_delay : nat := 2000%nat.

(** The body of the [useEffect] callback, run at mount and whenever
    [burstMode] changes. The animation loop it starts is [frame]. *)
Definition effect (v : Viewport) (burstMode : bool) (f0 : Field) : Field :=
  let f := resize v f0 in
  let count := count_for v in
  let '(ps1, r1) :=
    if (length (particles f) =? 0)%nat
    then push_new count (canvas f) false (rnd f) (particles f)
    else (particles f, rnd f) in
  if burstMode then
    let '(ps2, r2) := push_new 50 (canvas f) true r1 ps1 in
    mkField (canvas f) (mouse f) ps2
            (pending f ++ [((now f + burst_delay)%nat, count)]) (now f) r2
  else
    mkField (canvas f) (mouse f) ps1 (pending f) (now f) r1.

(** One run of [animate]. *)
Definition frame (f : Field) : Field :=
  mkField (canvas f) (mouse f) (step (canvas f) (mouse f) (particles f))
          (pending f) (now f) (rnd f).

(** [moveHandler] and [endHandler]. *)
Definition moveHandler (px py : R) (f : Field) : Field :=
  mkField (canvas f) (mkMouse px py true) (particles f) (pending f)
          (now f) (rnd f).

Definition endHandler (f : Field) : Field :=
  mkField (canvas f)
          (mkMouse (mouse_x (mouse f)) (mouse_y (mouse f)) false)
          (particles f) (pending f) (now f) (rnd f).

(** A timer is due once the clock has reached its time. *)
Definition is_due (t : nat) (timer : nat * nat) : bool := (fst timer <=? t)%nat.

(** The timer callback [() => particles.splice(count)]. *)
Definition fire (ps : list Particle) (timer : nat * nat) : list Particle :=
  splice (snd timer) ps.

(** [dt] milliseconds pass: the callbacks that are due run, oldest
    first, and leave the queue. *)
Definition wait (dt : nat) (f : Field) : Field :=
  let t := (now f + dt)%nat in
  mkField (canvas f) (mouse f)
          (fold_left fire (List.filter (is_due t) (pending f)) (particles f))
          (List.filter (fun tm => negb (is_due t tm)) (pending f))
          t (rnd f).

(** What can happen to a mounted [ParticleBackground]. *)
Inductive Event :=
| Effect (v : Viewport) (burstMode : bool)
| Resize (v : Viewport)
| PointerMove (px py : R)
| PointerEnd
| Frame
| Wait (dt : nat).

Definition handle (f : Field) (ev : Event) : Field :=
  match ev with
  | Effect v b => effect v b f
  | Resize v => resize v f
  | PointerMove px py => moveHandler px py f
  | PointerEnd => endHandler f
  | Frame => frame f
  | Wait dt => wait dt f
  end.

Definition play (evs : list Event) (f : Field) : Field := fold_left handle evs f.

(** The effect runs of a trace all see the same steady-state count. *)
Definition same_baseline (n : nat) (evs : list Event) : Prop :=
  Forall (fun ev => match ev with
                    | Effect v _ => count_for v = n
                    | _ => True
                    end) evs.

(** The collection is at or above the baseline [n], every pending
    timer truncates to [n], and the collection is above [n] only while
    a timer is pending. *)
Definition settled (n : nat) (f : Field) : Prop :=
  (n <= length (particles f))%nat /\
  Forall (fun tm => tm.2 = n) (pending f) /\
  (pending f = [] -> length (particles f) = n).

(** Before the first effect run nothing exists yet. *)
Definition unpopulated (f : Field) : Prop := particles f = [] /\ pending f = [].

(** *** Draws and traces *)

(** Every draw of [Math.random()] lies in [[0, 1)]. *)
Definition unit_draws (rnd : Rand) : Prop := forall i, 0 <= rnd i < 1.

(** A particle as [reset(false)] scatters it: on the canvas, drifting
    by less than a quarter pixel per frame in each direction. *)
Definition scattered (canvas : Canvas) (p : Particle) : Prop :=
  in_half_open canvas p /\
  -0.25 <= vx p < 0.25 /\ -0.25 <= vy p < 0.25 /\
  0.5 <= size p < 2.5 /\ 0.1 <= alpha p < 0.6.

(** A particle as [reset(true)] launches it: at the centre of the
    canvas, with a speed from 5 up to 20. *)
Definition launched (canvas : Canvas) (p : Particle) : Prop :=
  x p = width canvas / 2 /\ y p = height canvas / 2 /\
  5 <= speed p < 20 /\
  0.5 <= size p < 2.5 /\ 0.1 <= alpha p < 0.6.

(** No event of the trace changes the size of the window: every
    effect run and every resize sees the viewport [v]. *)
Definition same_viewport (v : Viewport) (evs : list Event) : Prop :=
  Forall (fun ev => match ev with
                    | Effect v' _ | Resize v' => v' = v
                    | _ => True
                    end) evs.

End ParticleField.

(** ** Web Audio objects, as far as the code touches them *)

Module WebAudio.

Inductive OscillatorType := sine | square | sawtooth | triangle.
Inductive BiquadFilterType := lowpass | highpass | bandpass.
Inductive ContextState := suspended | running | closed.

(** The automation calls the code makes on an [AudioParam]. *)
Inductive ParamEvent :=
| SetValueAtTime (v t : R)
| LinearRampToValueAtTime (v t : R)
| ExponentialRampToValueAtTime (v t : R)
| SetTargetAtTime (target startTime timeConstant : R).

(** An [AudioParam]: the value last assigned through [.value] (or the
    default) and the automation events enqueued, oldest first. *)
Record AudioParam := mkParam { value : R; events : list ParamEvent }.

Inductive ParamName := gain | frequency | Q.

Inductive Node :=
| GainNode (g : AudioParam)
| OscillatorNode (type : OscillatorType) (freq : AudioParam)
                 (startTime stopTime : option R)
| BiquadFilterNode (type : BiquadFilterType) (freq q : AudioParam).

(** Where [connect] can lead: the context's destination, the input of
    another node, or a parameter of another node. *)
Inductive Sink :=
| destination
| input (node : nat)
| param (node : nat) (name : ParamName).

(** An [AudioContext]. A node is known by its index in [nodes], which
    is what a JavaScript reference to the node is here; nodes are never
    removed. *)
Record AudioContext := mkContext {
  state : ContextState;
  currentTime : R;
  nodes : list Node;
  wires : list (nat * Sink)
}.

(** What [window.AudioContext || window.webkitAudioContext] evaluates
    to: a constructor, described by the state and clock of the contexts
    it builds, or [undefined]. *)
Record Constructor := mkConstructor {
  initialState : ContextState;
  initialTime : R
}.

Record Window := mkWindow {
  AudioContext_ : option Constructor;
  webkitAudioContext : option Constructor
}.

(** [a || b] on possibly undefined constructors. *)
Definition or_else (a b : option Constructor) : option Constructor :=
  match a with Some c => Some c | None => b end.

Definition construct (c : Constructor) : AudioContext :=
  mkContext (initialState c) (initialTime c) [] [].

(** Node factories, with the defaults of the platform. *)
Definition createGain (c : AudioContext) : AudioContext * nat :=
  (mkContext (state c) (currentTime c)
             (nodes c ++ [GainNode (mkParam 1 [])]) (wires c),
   length (nodes c)).

Definition createOscillator (c : AudioContext) : AudioContext * nat :=
  (mkContext (state c) (currentTime c)
             (nodes c ++ [OscillatorNode sine (mkParam 440 []) None None])
             (wires c),
   length (nodes c)).

Definition createBiquadFilter (c : AudioContext) : AudioContext * nat :=
  (mkContext (state c) (currentTime c)
             (nodes c ++ [BiquadFilterNode lowpass (mkParam 350 []) (mkParam 1 [])])
             (wires c),
   length (nodes c)).

Definition with_nodes (f : list Node -> list Node) (c : AudioContext)
  : AudioContext :=
  mkContext (state c) (currentTime c) (f (nodes c)) (wires c).

(** [a.connect(b)]. *)
Definition connect (a : nat) (b : Sink) (c : AudioContext) : AudioContext :=
  mkContext (state c) (currentTime c) (nodes c) (wires c ++ [(a, b)]).

(** Apply [f] to the parameter [name] of a node that has one. *)
Definition on_param (name : ParamName) (f : AudioParam -> AudioParam)
    (n : Node) : Node :=
  match n, name with
  | GainNode g, gain => GainNode (f g)
  | OscillatorNode ty fr s e, frequency => OscillatorNode ty (f fr) s e
  | BiquadFilterNode ty fr q, frequency => BiquadFilterNode ty (f fr) q
  | BiquadFilterNode ty fr q, Q => BiquadFilterNode ty fr (f q)
  | _, _ => n
  end.

(** [node.<name>.value = v]. *)
Definition set_value (id : nat) (name : ParamName) (v : R)
  : AudioContext -> AudioContext :=
  with_nodes (alter (on_param name (fun p => mkParam v (events p))) id).

(** [node.<name>.<automation call>]. *)
Definition schedule (id : nat) (name : ParamName) (ev : ParamEvent)
  : AudioContext -> AudioContext :=
  with_nodes (alter (on_param name (fun p => mkParam (value p) (events p ++ [ev]))) id).

(** [osc.type = ty]. *)
Definition set_osc_type (id : nat) (ty : OscillatorType)
  : AudioContext -> AudioContext :=
  with_nodes (alter (fun n => match n with
                              | OscillatorNode _ fr s e => OscillatorNode ty fr s e
                              | _ => n
                              end) id).

(** [filter.type = ty]. *)
Definition set_filter_type (id : nat) (ty : BiquadFilterType)
  : AudioContext -> AudioContext :=
  with_nodes (alter (fun n => match n with
                              | BiquadFilterNode _ fr q => BiquadFilterNode ty fr q
                              | _ => n
                              end) id).

(** [osc.start(t)] and [osc.stop(t)]; [osc.start()] starts at the
    current time. *)
Definition start (id : nat) (t : R) : AudioContext -> AudioContext :=
  with_nodes (alter (fun n => match n with
                              | OscillatorNode ty fr _ e => OscillatorNode ty fr (Some t) e
                              | _ => n
                              end) id).

Definition stop (id : nat) (t : R) : AudioContext -> AudioContext :=
  with_nodes (alter (fun n => match n with
                              | OscillatorNode ty fr s _ => OscillatorNode ty fr s (Some t)
                              | _ => n
                              end) id).

(** [ctx.resume()]. *)
Definition resume (c : AudioContext) : AudioContext :=
  mkContext (match state c with suspended => running | s => s end)
            (currentTime c) (nodes c) (wires c).

(** The audio clock moves on by [dt]. *)
Definition tick (dt : R) (c : AudioContext) : AudioContext :=
  mkContext (state c) (currentTime c + dt) (nodes c) (wires c).

(** The gain parameter of the node [id], when [id] is a gain node. *)
Definition gain_of (c : AudioContext) (id : nat) : option AudioParam :=
  match nodes c !! id with
  | Some (GainNode g) => Some g
  | _ => None
  end.

(** The platform's curve for [setTargetAtTime(target, t0, tc)] from the
    value [v0] held at [t0]: an exponential approach to [target]. *)
Definition target_curve (v0 target t0 tc t : R) : R :=
  target + (v0 - target) * exp (- ((t - t0) / tc)).

(** The nodes a call created: those of [after] past the end of
    [before]. *)
Definition new_nodes (before after : AudioContext) : list Node :=
  drop (length (nodes before)) (nodes after).

(** The start and end value of a parameter automated by one
    [setValueAtTime] followed by one ramp. *)
Definition sweep (p : AudioParam) : option (R * R) :=
  match events p with
  | [SetValueAtTime v0 _; ExponentialRampToValueAtTime v1 _]
  | [SetValueAtTime v0 _; LinearRampToValueAtTime v1 _] => Some (v0, v1)
  | _ => None
  end.

(** A one-shot oscillator as the spec describes the click: square
    wave, rising sweep, stopped 50 ms after its start. *)
Definition click_as_specified (n : Node) : Prop :=
  match n with
  | OscillatorNode ty fr (Some t1) (Some t2) =>
    ty = square /\
    (exists f0 f1, sweep fr = Some (f0, f1) /\ f0 < f1) /\
    t2 - t1 = 0.05
  | _ => False
  end.

End WebAudio.

(** ** Exceptions and mutable objects *)

Inductive JsError := TypeError.

(** A method call on an object of state [S]: it returns a value or
    throws, and either way leaves the object in some state. *)
Inductive Outcome (S A : Type) :=
| Return (a : A) (s : S)
| Throw (e : JsError) (s : S).
Arguments Return {S A} a s.
Arguments Throw {S A} e s.

Definition Method (S A : Type) : Type := S -> Outcome S A.

Definition throw {S A} (e : JsError) : Method S A := fun s => Throw e s.
Definition get {S} : Method S S := fun s => Return s s.
Definition modify {S} (f : S -> S) : Method S unit := fun s => Return tt (f s).

(** Sequencing: a throw skips the rest of the method body. *)
#[global] Instance method_ret {S} : MRet (Method S) :=
  fun A a s => Return a s.
#[global] Instance method_bind {S} : MBind (Method S) :=
  fun A B k m s => match m s with
                   | Return a s1 => k a s1
                   | Throw e s1 => Throw e s1
                   end.

(** The object state a call leaves behind, returned or thrown. *)
Definition final {S A} (o : Outcome S A) : S :=
  match o with Return _ s | Throw _ s => s end.


(** ** The [AudioEngine] class (App.jsx) *)

Module AudioEngine.
Import WebAudio.

(** [AUDIO_CONFIG]. *)
Definition DRONE_FREQUENCY : R := 50.
Definition FILTER_FREQUENCY : R := 120.
Definition FILTER_Q : R := 5.
Definition LFO_FREQUENCY : R := 0.2.
Definition LFO_GAIN : R := 20.
Definition DRONE_GAIN : R := 0.05.
Definition CLICK_START_FREQ : R := 1200.
Definition CLICK_END_FREQ : R := 100.
Definition HOVER_BASE_FREQ : R := 800.
Definition HOVER_VARIANCE : R := 200.

(** The fields of an [AudioEngine]; a node field is [null] or a
    reference to a node of [ctx]. *)
Record t := mk {
  ctx : option AudioContext;
  masterGain : option nat;
  musicGain : option nat;
  sfxGain : option nat;
  droneOsc : option nat;
  droneGain : option nat;
  isMuted : bool;
  initialized : bool
}.

(** [constructor()]. *)
Definition constructor : t := mk None None None None None None false false.

Definition set_ctx (v : option AudioContext) (e : t) : t :=
  mk v (masterGain e) (musicGain e) (sfxGain e) (droneOsc e) (droneGain e)
     (isMuted e) (initialized e).
Definition set_masterGain (v : option nat) (e : t) : t :=
  mk (ctx e) v (musicGain e) (sfxGain e) (droneOsc e) (droneGain e)
     (isMuted e) (initialized e).
Definition set_musicGain (v : option nat) (e : t) : t :=
  mk (ctx e) (masterGain e) v (sfxGain e) (droneOsc e) (droneGain e)
     (isMuted e) (initialized e).
Definition set_sfxGain (v : option nat) (e : t) : t :=
  mk (ctx e) (masterGain e) (musicGain e) v (droneOsc e) (droneGain e)
     (isMuted e) (initialized e).
Definition set_droneOsc (v : option nat) (e : t) : t :=
  mk (ctx e) (masterGain e) (musicGain e) (sfxGain e) v (droneGain e)
     (isMuted e) (initialized e).
Definition set_droneGain (v : option nat) (e : t) : t :=
  mk (ctx e) (masterGain e) (musicGain e) (sfxGain e) (droneOsc e) v
     (isMuted e) (initialized e).
Definition set_isMuted (v : bool) (e : t) : t :=
  mk (ctx e) (masterGain e) (musicGain e) (sfxGain e) (droneOsc e)
     (droneGain e) v (initialized e).
Definition set_initialized (v : bool) (e : t) : t :=
  mk (ctx e) (masterGain e) (musicGain e) (sfxGain e) (droneOsc e)
     (droneGain e) (isMuted e) v.

(** Reading a property of [this.ctx], or calling a method on it,
    throws a [TypeError] while [this.ctx] is [null]. *)
Definition the_ctx : Method t AudioContext :=
  fun e => match ctx e with
           | Some c => Return c e
           | None => Throw TypeError e
           end.

(** A call on [this.ctx] that changes the context. *)
Definition on_ctx (f : AudioContext -> AudioContext) : Method t unit :=
  c ← the_ctx; modify (set_ctx (Some (f c))).

(** A factory call on [this.ctx]. *)
Definition create (f : AudioContext -> AudioContext * nat) : Method t nat :=
  c ← the_ctx; modify (set_ctx (Some (f c).1));; mret (f c).2.

(** Using a node field as an object throws while it is [null]. *)
Definition the (field : t -> option nat) : Method t nat :=
  fun e => match field e with
           | Some n => Return n e
           | None => Throw TypeError e
           end.

(** [startAmbience()]. *)
Definition startAmbience : Method t unit :=
  e ← get;
  if ctx e is None then mret tt else
  o ← create createOscillator; modify (set_droneOsc (Some o));;
  o ← the droneOsc; on_ctx (set_osc_type o sawtooth);;
  o ← the droneOsc; on_ctx (set_value o frequency DRONE_FREQUENCY);;
  filter ← create createBiquadFilter;
  on_ctx (set_filter_type filter lowpass);;
  on_ctx (set_value filter frequency FILTER_FREQUENCY);;
  on_ctx (set_value filter Q FILTER_Q);;
  lfo ← create createOscillator;
  on_ctx (set_osc_type lfo sine);;
  on_ctx (set_value lfo frequency LFO_FREQUENCY);;
  lfoGain ← create createGain;
  on_ctx (set_value lfoGain gain LFO_GAIN);;
  on_ctx (connect lfo (input lfoGain));;
  on_ctx (connect lfoGain (param filter frequency));;
  g ← create createGain; modify (set_droneGain (Some g));;
  g ← the droneGain; on_ctx (set_value g gain DRONE_GAIN);;
  o ← the droneOsc; on_ctx (connect o (input filter));;
  g ← the droneGain; on_ctx (connect filter (input g));;
  g ← the droneGain; m ← the musicGain; on_ctx (connect g (input m));;
  o ← the droneOsc; c ← the_ctx; on_ctx (start o (currentTime c));;
  c ← the_ctx; on_ctx (start lfo (currentTime c)).

(** [init()]. [new AudioContext()] throws a [TypeError] when neither
    constructor exists, before anything is assigned. *)
Definition init (w : Window) : Method t unit :=
  e ← get;
  if initialized e then mret tt else
  match or_else (AudioContext_ w) (webkitAudioContext w) with
  | None => throw TypeError
  | Some k =>
    modify (set_ctx (Some (construct k)));;
    g ← create createGain; modify (set_masterGain (Some g));;
    m ← the masterGain; on_ctx (connect m destination);;
    g ← create createGain; modify (set_musicGain (Some g));;
    a ← the musicGain; m ← the masterGain; on_ctx (connect a (input m));;
    g ← create createGain; modify (set_sfxGain (Some g));;
    a ← the sfxGain; m ← the masterGain; on_ctx (connect a (input m));;
    modify (set_initialized true);;
    startAmbience
  end.

(** [setVolumes(musicVol, sfxVol)]. *)
Definition setVolumes (musicVol sfxVol : R) : Method t unit :=
  e ← get;
  if negb (initialized e) then mret tt else
  c ← the_ctx;
  let now := currentTime c in
  m ← the musicGain;
  on_ctx (schedule m gain (SetTargetAtTime (musicVol / 100) now 0.1));;
  s ← the sfxGain;
  on_ctx (schedule s gain (SetTargetAtTime (sfxVol / 100) now 0.1)).

(** [toggleMute()]. *)
Definition toggleMute : Method t bool :=
  e ← get;
  if negb (initialized e) then mret false else
  modify (set_isMuted (negb (isMuted e)));;
  c ← the_ctx;
  let now := currentTime c in
  e1 ← get;
  m ← the masterGain;
  on_ctx (schedule m gain (SetTargetAtTime (if isMuted e1 then 0 else 1) now 0.1));;
  e2 ← get;
  mret (isMuted e2).

(** [playClickSound()]. *)
Definition playClickSound : Method t unit :=
  e ← get;
  if negb (initialized e) || isMuted e then mret tt else
  c ← the_ctx;
  let t := currentTime c in
  osc ← create createOscillator;
  g ← create createGain;
  on_ctx (set_osc_type osc sawtooth);;
  on_ctx (schedule osc frequency (SetValueAtTime CLICK_START_FREQ t));;
  on_ctx (schedule osc frequency (ExponentialRampToValueAtTime CLICK_END_FREQ (t + 0.1)));;
  on_ctx (schedule g gain (SetValueAtTime 0.5 t));;
  on_ctx (schedule g gain (ExponentialRampToValueAtTime 0.01 (t + 0.1)));;
  on_ctx (connect osc (input g));;
  s ← the sfxGain; on_ctx (connect g (input s));;
  on_ctx (start osc t);;
  on_ctx (stop osc (t + 0.15)).

(** [playHoverSound()]; [random] is the draw of [Math.random()]. *)
Definition playHoverSound (random : R) : Method t unit :=
  e ← get;
  if negb (initialized e) || isMuted e then mret tt else
  c ← the_ctx;
  let t := currentTime c in
  osc ← create createOscillator;
  g ← create createGain;
  on_ctx (set_osc_type osc square);;
  on_ctx (schedule osc frequency (SetValueAtTime (800 + random * 200) t));;
  on_ctx (schedule g gain (SetValueAtTime 0.05 t));;
  on_ctx (schedule g gain (ExponentialRampToValueAtTime 0.001 (t + 0.05)));;
  on_ctx (connect osc (input g));;
  s ← the sfxGain; on_ctx (connect g (input s));;
  on_ctx (start osc t);;
  on_ctx (stop osc (t + 0.05)).

(** The calls a client can make on the engine, and the passing of
    audio time between them. *)
Inductive Call :=
| Init (w : Window)
| StartAmbience
| SetVolumes (musicVol sfxVol : R)
| ToggleMute
| PlayClickSound
| PlayHoverSound (random : R)
| Tick (dt : R).

(** The engine after a call; a thrown exception ends the call and the
    engine keeps the state it was left in. *)
Definition exec (e : t) (c : Call) : t :=
  match c with
  | Init w => final (init w e)
  | StartAmbience => final (startAmbience e)
  | SetVolumes m s => final (setVolumes m s e)
  | ToggleMute => final (toggleMute e)
  | PlayClickSound => final (playClickSound e)
  | PlayHoverSound r => final (playHoverSound r e)
  | Tick dt => set_ctx (tick dt <$> ctx e) e
  end.

Definition run (cs : list Call) (e : t) : t := fold_left exec cs e.

(** The gain parameter behind a node field of the engine. *)
Definition gain_field (field : t -> option nat) (e : t) : option AudioParam :=
  c ← ctx e; i ← field e; gain_of c i.

(** The four gains the engine keeps a reference to, where they exist:
    master, music bus, sfx bus and drone. *)
Definition engine_gains (e : t) : list AudioParam :=
  omap (fun field => gain_field field e)
       [masterGain; musicGain; sfxGain; droneGain].

(** *** Gains within [0, 1] *)

(** An automation event that moves a gain within [0, 1]: an
    exponential approach, with a positive time constant, to a target in
    [0, 1]. *)
Definition unit_event (ev : ParamEvent) : Prop :=
  match ev with
  | SetTargetAtTime target _ tc => 0 <= target <= 1 /\ 0 < tc
  | _ => False
  end.

(** A gain whose assigned value and whose every scheduled target lie
    in [0, 1]. *)
Definition unit_param (p : AudioParam) : Prop :=
  0 <= value p <= 1 /\ Forall unit_event (events p).

Definition unit_gain (c : AudioContext) (id : nat) : Prop :=
  exists p, gain_of c id = Some p /\ unit_param p.

(** The states the engine can be in: as constructed, or initialised
    with its context and its four gains in place and within [0, 1]. *)
Definition engine_ok (e : t) : Prop :=
  if initialized e then
    exists c m mu s d,
      ctx e = Some c /\ masterGain e = Some m /\ musicGain e = Some mu /\
      sfxGain e = Some s /\ droneGain e = Some d /\
      unit_gain c m /\ unit_gain c mu /\ unit_gain c s /\ unit_gain c d
  else e = constructor.

(** The volume arguments of a call are within the documented range
    0 to 100. *)
Definition volumes_in_range (c : Call) : Prop :=
  match c with
  | SetVolumes musicVol sfxVol => 0 <= musicVol <= 100 /\ 0 <= sfxVol <= 100
  | _ => True
  end.

End AudioEngine.

(** ** The [useSoundEngine] hook (src/index.js and its later revision) *)

Module useSoundEngine.
Import WebAudio.

(** The state of the hook is [audioContextRef.current]. *)
Definition Ref := option AudioContext.

(** [initAudio] of src/index.js. *)
Definition initAudio (w : Window) : Method Ref unit :=
  r ← get;
  (if r is None then
     match or_else (AudioContext_ w) (webkitAudioContext w) with
     | None => throw TypeError
     | Some k => modify (fun _ => Some (construct k))
     end
   else mret tt);;
  r ← get;
  match r with
  | None => throw TypeError
  | Some c =>
    match state c with
    | suspended => modify (fun _ => Some (resume c))
    | _ => mret tt
    end
  end.

(** [initAudio] of the later revision of the hook, which tests the
    constructor and the reference before using them. *)
Module Revised.

Definition initAudio (w : Window) : Method Ref unit :=
  r ← get;
  (if r is None then
     match or_else (AudioContext_ w) (webkitAudioContext w) with
     | None => mret tt
     | Some k => modify (fun _ => Some (construct k))
     end
   else mret tt);;
  r ← get;
  match r with
  | None => mret tt
  | Some c =>
    match state c with
    | suspended => modify (fun _ => Some (resume c))
    | _ => mret tt
    end
  end.

End Revised.

(** The [type] argument of [playSound]; any other string takes none of
    the three branches. *)
Inductive SoundType := click | hover | scan | other.

(** [playSound(type)] once the reference is known to be set; [volume]
    is the argument of the hook. *)
Definition play_on (volume : R) (type : SoundType) (ctx : AudioContext)
  : AudioContext :=
  let '(c, osc) := createOscillator ctx in
  let '(c, gainNode) := createGain c in
  let c := connect osc (input gainNode) c in
  let c := connect gainNode destination c in
  let now := currentTime c in
  match type with
  | click =>
    let c := set_osc_type osc square c in
    let c := schedule osc frequency (SetValueAtTime 800 now) c in
    let c := schedule osc frequency (ExponentialRampToValueAtTime 1200 (now + 0.05)) c in
    let c := schedule gainNode gain (SetValueAtTime (volume * 0.5) now) c in
    let c := schedule gainNode gain (ExponentialRampToValueAtTime 0.01 (now + 0.05)) c in
    let c := start osc now c in
    stop osc (now + 0.05) c
  | hover =>
    let c := set_osc_type osc sine c in
    let c := schedule osc frequency (SetValueAtTime 200 now) c in
    let c := schedule osc frequency (LinearRampToValueAtTime 220 (now + 0.05)) c in
    let c := schedule gainNode gain (SetValueAtTime (volume * 0.1) now) c in
    let c := schedule gainNode gain (LinearRampToValueAtTime 0 (now + 0.1)) c in
    let c := start osc now c in
    stop osc (now + 0.1) c
  | scan =>
    let c := set_osc_type osc sawtooth c in
    let c := schedule osc frequency (SetValueAtTime 100 now) c in
    let c := schedule osc frequency (LinearRampToValueAtTime 800 (now + 0.2)) c in
    let c := schedule gainNode gain (SetValueAtTime (volume * 0.2) now) c in
    let c := schedule gainNode gain (ExponentialRampToValueAtTime 0.01 (now + 0.2)) c in
    let c := start osc now c in
    stop osc (now + 0.2) c
  | other => c
  end.

(** [playSound(type)]. *)
Definition playSound (volume : R) (type : SoundType) : Method Ref unit :=
  r ← get;
  match r with
  | None => mret tt
  | Some ctx => modify (fun _ => Some (play_on volume type ctx))
  end.

End useSoundEngine.

(** ** The loading screens *)

(** [LoadingScreen] of the hook-based app (src/index.js; its later
    revision has the same interval callback). *)
Module LoadingScreen.
Import WebAudio.

(** The [progress] state, whether the interval is still set, how often
    [setTimeout(onComplete, 500)] has been called, and the audio
    context reference of the component's [useSoundEngine(0.5)]. *)
Record t := mk {
  progress : Z;
  interval : bool;
  completions : nat;
  audio : useSoundEngine.Ref
}.

(** The effect up to [setInterval]: [initAudio()] first, so that an
    exception of [initAudio] leaves the component without interval. *)
Definition start (initAudio : Window -> Method useSoundEngine.Ref unit)
    (w : Window) : t :=
  match initAudio w None with
  | Return _ ref => mk 0 true 0 ref
  | Throw _ ref => mk 0 false 0 ref
  end.

(** One run of the interval callback, with the two [Math.random()]
    draws of the updater. *)
Definition tick (random1 random2 : R) (s : t) : t :=
  if interval s then
    if (progress s >=? 100)%Z then mk 100 false (S (completions s)) (audio s)
    else
      let jump := if Rgtb random1 0.8 then 15%Z else 2%Z in
      let ref := if Rgtb random2 0.5
                 then final (useSoundEngine.playSound 0.5 useSoundEngine.scan (audio s))
                 else audio s in
      mk (Z.min (progress s + jump) 100) true (completions s) ref
  else s.

Definition ticks (draws : list (R * R)) (s : t) : t :=
  fold_left (fun s d => tick d.1 d.2 s) draws s.

End LoadingScreen.

(** [LoadingScreen] of App.jsx. *)
Module BootScreen.

Record t := mk { progress : Z; interval : bool; completions : nat }.

Definition start : t := mk 0 true 0.

(** [Math.floor] on a real number. *)
Definition floor (a : R) : Z := Int_part a.

(** One run of the interval callback; [random] is the draw. *)
Definition tick (random : R) (s : t) : t :=
  if interval s then
    if (progress s >=? 100)%Z then mk 100 false (S (completions s))
    else mk (progress s + floor (random * 8) + 2) true (completions s)
  else s.

Definition ticks (draws : list R) (s : t) : t := fold_left (fun s d => tick d s) draws s.

(** The percentage shown: [Math.min(progress, 100)]. *)
Definition shown (s : t) : Z := Z.min (progress s) 100.

End BootScreen.

(** ** Keyboard handling of the hook-based app (later revision of
    src/index.js) *)

Module Keyboard.

(** The sounds a handler plays, in order, and whether it called
    [onClose]. *)
Inductive Action := Play (type : useSoundEngine.SoundType) | CloseSettings.

(** [e.key] is a string. *)
Definition keyIs (key name : string) : bool := String.eqb key name.

(** *** [SettingRow] *)

(** A row is a slider over a number or a toggle over a boolean. *)
Inductive Row := Slider (value : Z) | Toggle (value : bool).

(** [handleKeyDown] of [SettingRow]: the value passed to [onChange],
    if any, and the sounds played. *)
Definition rowKeyDown (key : string) (row : Row) : Row * list Action :=
  match row with
  | Slider value =>
    if keyIs key "ArrowLeft" || keyIs key "ArrowDown" then
      (Slider (Z.max 0 (value - 5)), [Play useSoundEngine.click])
    else if keyIs key "ArrowRight" || keyIs key "ArrowUp" then
      (Slider (Z.min 100 (value + 5)), [Play useSoundEngine.click])
    else (row, [])
  | Toggle value =>
    if keyIs key "ArrowLeft" || keyIs key "ArrowRight" || keyIs key "Enter" || keyIs key " "
    then (Toggle (negb value), [Play useSoundEngine.click])
    else (row, [])
  end.

(** *** [SettingsPanel] *)

Definition settingsCount : Z := 5.
Definition totalFocusableItems : Z := settingsCount + 3 + 2.

(** [const diffs = ['easy', 'medium', 'hard']]. *)
Definition diffs : list string := ["easy"; "medium"; "hard"].

(** [array.indexOf(x)]: the first index of [x], or -1. *)
Fixpoint indexOf (x : string) (l : list string) : Z :=
  match l with
  | [] => -1
  | y :: rest =>
    if String.eqb y x then 0
    else let i := indexOf x rest in if (i <? 0)%Z then -1 else i + 1
  end.

(** The part of the panel state the key handlers touch. *)
Record Panel := mkPanel { focusIndex : Z; difficulty : string }.

(** The window [keydown] listener of the active panel. *)
Definition panelKeyDown (key : string) (p : Panel) : Panel * list Action :=
  if keyIs key "ArrowDown" then
    (mkPanel (Z.min (focusIndex p + 1) (totalFocusableItems - 1)) (difficulty p),
     [Play useSoundEngine.hover])
  else if keyIs key "ArrowUp" then
    (mkPanel (Z.max (focusIndex p - 1) 0) (difficulty p),
     [Play useSoundEngine.hover])
  else if keyIs key "Escape" then (p, [CloseSettings; Play useSoundEngine.click])
  else (p, []).

(** [handleDifficultyKeyDown(e, diff)]. The indices used on [diffs]
    are within the array whenever they are used. *)
Definition handleDifficultyKeyDown (key diff : string) (p : Panel)
  : Panel * list Action :=
  if keyIs key "Enter" || keyIs key " " then
    (mkPanel (focusIndex p) diff, [Play useSoundEngine.click])
  else if keyIs key "ArrowLeft" then
    let currentIndex := indexOf diff diffs in
    if (0 <? currentIndex)%Z then
      (mkPanel (settingsCount + currentIndex - 1)
               (diffs !!! Z.to_nat (currentIndex - 1)),
       [Play useSoundEngine.hover])
    else (p, [])
  else if keyIs key "ArrowRight" then
    let currentIndex := indexOf diff diffs in
    if (currentIndex <? Z.of_nat (length diffs) - 1)%Z then
      (mkPanel (settingsCount + currentIndex + 1)
               (diffs !!! Z.to_nat (currentIndex + 1)),
       [Play useSoundEngine.hover])
    else (p, [])
  else (p, []).

(** What the user can do to the open panel: a key on the window, a key
    or a click on the difficulty radio [diff], focus moving to item
    [i], and the panel being opened again. *)
Inductive PanelEvent :=
| WindowKey (key : string)
| DifficultyKey (key diff : string)
| DifficultyClick (diff : string)
| FocusItem (i : Z)
| Open.

Definition panelStep (p : Panel) (ev : PanelEvent) : Panel :=
  match ev with
  | WindowKey key => (panelKeyDown key p).1
  | DifficultyKey key diff => (handleDifficultyKeyDown key diff p).1
  | DifficultyClick diff => mkPanel (focusIndex p) diff
  | FocusItem i => mkPanel i (difficulty p)
  | Open => mkPanel 0 (difficulty p)
  end.

(** The events the rendered panel can produce: the radios carry the
    three difficulties, the focusable items the indices 0 to 9. *)
Definition rendered (ev : PanelEvent) : Prop :=
  match ev with
  | DifficultyKey _ diff | DifficultyClick diff => diff ∈ diffs
  | FocusItem i => (0 <= i < totalFocusableItems)%Z
  | _ => True
  end.

(** [useState] initial values of the panel. *)
Definition initialPanel : Panel := mkPanel 0 "easy".

(** *** [App]: the diamonds *)

(** The six attributes and three skills, in the order of the diamonds. *)
Inductive Attribute := reflex | strength | intel | tech | const | cool.
Inductive Skill := handGuns | rifles | blades.

#[global] Instance Attribute_eq_dec : EqDecision Attribute.
Proof. solve_decision. Defined.
#[global] Instance Skill_eq_dec : EqDecision Skill.
Proof. solve_decision. Defined.

Record SkillLevel := mkSkill { current : Z; max : Z }.

(** [useState] initial values. *)
Definition initialAttributes : Attribute -> Z := fun _ => 10%Z.
Definition initialSkills : Skill -> SkillLevel :=
  fun s => match s with
           | handGuns => mkSkill 5 9
           | rifles => mkSkill 5 10
           | blades => mkSkill 6 10
           end.

(** [handleAttributeChange(attr, delta)]. *)
Definition handleAttributeChange (attr : Attribute) (delta : Z)
    (prev : Attribute -> Z) : Attribute -> Z :=
  fun a => if decide (a = attr)
           then Z.max 1 (Z.min 20 (prev attr + delta))
           else prev a.

(** [handleSkillChange(skill, delta)]. *)
Definition handleSkillChange (skill : Skill) (delta : Z)
    (prev : Skill -> SkillLevel) : Skill -> SkillLevel :=
  fun s => if decide (s = skill)
           then mkSkill (Z.max 1 (Z.min (max (prev skill))
                                        (current (prev skill) + delta)))
                        (max (prev skill))
           else prev s.

(** A value change on one diamond. *)
Inductive Change :=
| AttributeChange (attr : Attribute) (delta : Z)
| SkillChange (skill : Skill) (delta : Z).

(** The [attributes] and [skills] state after a change. *)
Definition change (st : (Attribute -> Z) * (Skill -> SkillLevel)) (c : Change)
  : (Attribute -> Z) * (Skill -> SkillLevel) :=
  match c with
  | AttributeChange attr delta => (handleAttributeChange attr delta st.1, st.2)
  | SkillChange skill delta => (st.1, handleSkillChange skill delta st.2)
  end.

(** [handleKeyDown] of [StatDiamond]: the [delta] passed to
    [onValueChange], if any. *)
Definition diamondKeyDown (key : string) : option Z :=
  if keyIs key "ArrowUp" || keyIs key "ArrowRight" then Some 1%Z
  else if keyIs key "ArrowDown" || keyIs key "ArrowLeft" then Some (-1)%Z
  else None.

(** [Object.values(attributes).reduce((a, b) => a + b, 0)]. *)
Definition points (a : Attribute -> Z) : Z :=
  (a reflex + a strength + a intel + a tech + a const + a cool)%Z.

(** The numbers of the [stats] list, in order: crit chance, crit
    damage, armor, evasion, thermal resistance, EMP resistance. *)
Definition stats (a : Attribute -> Z) : list Z :=
  [10 + a reflex / 2; 100 + a strength * 4; 300 + a const * 2;
   400 + a reflex * 4; 5 + a tech; a intel]%Z.

(** [totalDiamonds]. *)
Definition totalDiamonds : Z := 6 + 3.

(** The arrow keys of the global [keydown] listener, on
    [focusedDiamond]. *)
Definition diamondFocusKeyDown (key : string) (prev : Z) : Z :=
  if keyIs key "ArrowRight" || keyIs key "ArrowDown" then
    let next := (prev + 1)%Z in
    if (next >=? totalDiamonds)%Z then 0 else next
  else if keyIs key "ArrowLeft" || keyIs key "ArrowUp" then
    let next := (prev - 1)%Z in
    if (next <? 0)%Z then totalDiamonds - 1 else next
  else prev.

End Keyboard.

(** ** Where the gains of the engine are heading *)

Module Mixer.
Import WebAudio AudioEngine.

(** The value an automation event sets or heads for. *)
Definition event_value (ev : ParamEvent) : R :=
  match ev with
  | SetValueAtTime v _ | LinearRampToValueAtTime v _
  | ExponentialRampToValueAtTime v _ => v
  | SetTargetAtTime target _ _ => target
  end.

(** The value a parameter is heading for: that of the automation event
    enqueued last, or the assigned value when nothing was scheduled. *)
Definition aim (p : AudioParam) : R :=
  match list.last (events p) with
  | Some ev => event_value ev
  | None => value p
  end.

Definition aims_at (field : t -> option nat) (e : t) (v : R) : Prop :=
  exists p, gain_field field e = Some p /\ aim p = v.

(** An initialised engine whose master, music and sfx gains are three
    different nodes, the master heading for 0 when muted and for 1
    otherwise, the music and the sfx bus heading for [mv] and [sv]. *)
Definition tuned (mv sv : R) (e : t) : Prop :=
  exists c m mu s dO d im,
    e = mk (Some c) (Some m) (Some mu) (Some s) dO d im true /\
    m <> mu /\ m <> s /\ mu <> s /\
    (exists p, gain_of c m = Some p /\ aim p = if im then 0 else 1) /\
    (exists p, gain_of c mu = Some p /\ aim p = mv) /\
    (exists p, gain_of c s = Some p /\ aim p = sv).

(** The levels the two buses are asked for by a call. *)
Definition asked (levels : R * R) (call : Call) : R * R :=
  match call with
  | SetVolumes musicVol sfxVol => (musicVol / 100, sfxVol / 100)
  | _ => levels
  end.

Definition is_setVolumes (call : Call) : Prop :=
  match call with SetVolumes _ _ => True | _ => False end.

End Mixer.

(** ** Uses of the [useSoundEngine] hook over time *)

Module SoundHook.
Import WebAudio useSoundEngine.

(** What a component does with the hook: [initAudio()],
    [playSound(type)] with the [volume] of the render it was made in;
    and the audio clock moving on. *)
Inductive Call :=
| InitAudio (w : Window)
| PlaySound (volume : R) (type : SoundType)
| Elapse (dt : R).

(** The reference after a call, for one of the two versions of
    [initAudio]. *)
Definition exec (initAudio : Window -> Method Ref unit) (r : Ref) (call : Call)
  : Ref :=
  match call with
  | InitAudio w => final (initAudio w r)
  | PlaySound volume type => final (playSound volume type r)
  | Elapse dt => tick dt <$> r
  end.

Definition run (initAudio : Window -> Method Ref unit) (calls : list Call) : Ref :=
  fold_left (exec initAudio) calls None.








End SoundHook.

(** ** The oscillators of the engine *)

Module Voices.
Import WebAudio AudioEngine.

(** The draw of [Math.random()] in a call is in [0, 1). *)
Definition draw_in_unit (call : Call) : Prop :=
  match call with
  | PlayHoverSound random => 0 <= random < 1
  | _ => True
  end.

(** A node as the engine leaves it. Every oscillator was started. One
    that is never stopped is a voice of the drone: its frequency was
    assigned (50 or 0.2) and never automated. One that is stopped is an
    effect: it plays for at most 0.15 s and its frequency is automated
    within 100 to 1200. *)
Definition voice (n : Node) : Prop :=
  match n with
  | OscillatorNode _ fr (Some t0) None =>
    (value fr = 50 \/ value fr = 0.2) /\ events fr = []
  | OscillatorNode _ fr (Some t0) (Some t1) =>
    t0 < t1 <= t0 + 0.15 /\
    Forall (fun ev => 100 <= Mixer.event_value ev <= 1200) (events fr)
  | OscillatorNode _ _ None _ => False
  | _ => True
  end.

Definition voices (e : t) : Prop :=
  match ctx e with
  | Some c => Forall voice (nodes c)
  | None => True
  end.

End Voices.

(** ** The settings view of App.jsx *)

Module App.
Import WebAudio.

(** [Math.round] on a real number: the nearest integer, halves up. *)
Definition round (a : R) : Z := Int_part (a + 0.5).

(** [update(ev)] of [CyberSlider]: the value passed to [onChange] for
    a pointer at [clientX] over a track with the bounding rectangle
    [rect.left], [rect.width]. *)
Definition sliderValue (clientX rectLeft rectWidth : R) : Z :=
  let pct := Rmax 0 (Rmin 100 ((clientX - rectLeft) / rectWidth * 100)) in
  round pct.

Record Settings := mkSettings {
  musicVol : Z;
  sfxVol : Z;
  motionBlur : bool;
  dof : bool;
  chromatic : bool;
  scanlines : bool
}.

(** The component state that reaches the audio engine, and the engine
    itself ([const audio = new AudioEngine()]). *)
Record t := mk {
  booted : bool;
  settings : Settings;
  audio : AudioEngine.t
}.

(** [useState] initial values. *)
Definition initial : t :=
  mk false (mkSettings 40 80 false false true true) AudioEngine.constructor.

(** The effect on [settings.musicVol], [settings.sfxVol] and [booted]:
    [if (booted) audio.setVolumes(settings.musicVol, settings.sfxVol)]. *)
Definition volumeEffect (s : t) : t :=
  if booted s then
    mk (booted s) (settings s)
       (final (AudioEngine.setVolumes (IZR (musicVol (settings s)))
                                      (IZR (sfxVol (settings s))) (audio s)))
  else s.

(** The click handler of the offline screen:
    [audio.init(); audio.playClickSound(); setBooted(true)]. An
    exception ends the handler before [setBooted]. *)
Definition boot (w : Window) (s : t) : t :=
  match (AudioEngine.init w;; AudioEngine.playClickSound) (audio s) with
  | Return _ a => volumeEffect (mk true (settings s) a)
  | Throw _ a => mk (booted s) (settings s) a
  end.

Definition setMusicVol (v : Z) (st : Settings) : Settings :=
  mkSettings v (sfxVol st) (motionBlur st) (dof st) (chromatic st) (scanlines st).
Definition setSfxVol (v : Z) (st : Settings) : Settings :=
  mkSettings (musicVol st) v (motionBlur st) (dof st) (chromatic st) (scanlines st).

(** A new slider value is stored; the effect runs when the stored
    value changed. *)
Definition slideMusic (v : Z) (s : t) : t :=
  let s' := mk (booted s) (setMusicVol v (settings s)) (audio s) in
  if decide (v = musicVol (settings s)) then s' else volumeEffect s'.

Definition slideSfx (v : Z) (s : t) : t :=
  let s' := mk (booted s) (setSfxVol v (settings s)) (audio s) in
  if decide (v = sfxVol (settings s)) then s' else volumeEffect s'.

Definition onAudio (f : AudioEngine.t -> AudioEngine.t) (s : t) : t :=
  mk (booted s) (settings s) (f (audio s)).

(** The four checkboxes of the settings view. *)
Inductive Flag := MotionBlur | Dof | Chromatic | Scanlines.

(** [onChange(!checked)] of the checkbox [flag]. *)
Definition toggleFlag (flag : Flag) (st : Settings) : Settings :=
  match flag with
  | MotionBlur =>
    mkSettings (musicVol st) (sfxVol st) (negb (motionBlur st)) (dof st)
               (chromatic st) (scanlines st)
  | Dof =>
    mkSettings (musicVol st) (sfxVol st) (motionBlur st) (negb (dof st))
               (chromatic st) (scanlines st)
  | Chromatic =>
    mkSettings (musicVol st) (sfxVol st) (motionBlur st) (dof st)
               (negb (chromatic st)) (scanlines st)
  | Scanlines =>
    mkSettings (musicVol st) (sfxVol st) (motionBlur st) (dof st)
               (chromatic st) (negb (scanlines st))
  end.

(** The click handler of [CyberCheckbox]:
    [audio.playClickSound(); onChange(!checked)]. *)
Definition check (flag : Flag) (s : t) : t :=
  mk (booted s) (toggleFlag flag (settings s))
     (final (AudioEngine.playClickSound (audio s))).

(** What the user does: the first click, a pointer position on one of
    the two sliders, releasing a slider, the M key, a click on a
    button, the pointer entering an attribute node, a click on a
    checkbox; and the clock of the audio context advancing. *)
Inductive Event :=
| Boot (w : Window)
| SlideMusic (clientX rectLeft rectWidth : R)
| SlideSfx (clientX rectLeft rectWidth : R)
| SlideEnd
| KeyM
| Click
| Hover (random : R)
| Elapse (dt : R)
| Check (flag : Flag).

Definition step (s : t) (ev : Event) : t :=
  match ev with
  | Boot w => if booted s then s else boot w s
  | SlideMusic clientX rectLeft rectWidth =>
    slideMusic (sliderValue clientX rectLeft rectWidth) s
  | SlideSfx clientX rectLeft rectWidth =>
    slideSfx (sliderValue clientX rectLeft rectWidth) s
  | SlideEnd | Click => onAudio (fun a => final (AudioEngine.playClickSound a)) s
  | KeyM => onAudio (fun a => final (AudioEngine.toggleMute a)) s
  | Hover random => onAudio (fun a => final (AudioEngine.playHoverSound random a)) s
  | Elapse dt => onAudio (fun a => AudioEngine.exec a (AudioEngine.Tick dt)) s
  | Check flag => check flag s
  end.

(** The invariant of the view: both volume settings are percentages,
    the engine is in one of its good states, and it is initialised
    once the view is booted. *)
Definition view_ok (s : t) : Prop :=
  (0 <= musicVol (settings s) <= 100)%Z /\
  (0 <= sfxVol (settings s) <= 100)%Z /\
  AudioEngine.engine_ok (audio s) /\
  (booted s = true -> AudioEngine.initialized (audio s) = true).

(** The track of a slider has a positive width. *)
Definition laidOut (ev : Event) : Prop :=
  match ev with
  | SlideMusic _ _ rectWidth | SlideSfx _ _ rectWidth => 0 < rectWidth
  | _ => True
  end.

(** The view and the engine agree: once booted, the engine is tuned to
    the two volume settings; an engine that is not initialised is as
    constructed, and the view is not booted. *)
Definition in_tune (s : t) : Prop :=
  if AudioEngine.initialized (audio s) then
    exists mv sv, Mixer.tuned mv sv (audio s) /\
      (booted s = true ->
       mv = IZR (musicVol (settings s)) / 100 /\
       sv = IZR (sfxVol (settings s)) / 100)
  else audio s = AudioEngine.constructor /\ booted s = false.

End App.

(** ** The [useSystemMonitor] hook (App.jsx) *)

Module SystemMonitor.

(** The numeric and boolean readings of the hook's state; the other
    fields are strings handed through from the browser. *)
Record Stats := mkStats {
  cpuUsage : Z;
  cores : Z;
  online : bool;
  batteryLevel : option Z;
  batteryCharging : bool
}.

(** [useState] initial value. *)
Definition initial : Stats := mkStats 0 0 true None false.

(** What the interval callback reads from [window.navigator]:
    [hardwareConcurrency], a number where the browser has it, and
    [onLine]. *)
Record Navigator := mkNavigator {
  hardwareConcurrency : option Z;
  onLine : bool
}.

(** [a || d] on a number that may be missing: zero and [undefined] are
    falsy. *)
Definition or_number (a : option Z) (d : Z) : Z :=
  match a with
  | Some 0%Z | None => d
  | Some n => n
  end.

(** The interval callback, every 2000 ms; [random] is the draw of
    [Math.random()]. *)
Definition interval (random : R) (nav : Navigator) (prev : Stats) : Stats :=
  mkStats (BootScreen.floor (random * (45 - 5) + 5))
          (or_number (hardwareConcurrency nav) 4)
          (onLine nav)
          (batteryLevel prev) (batteryCharging prev).

(** [updateBattery] for a battery at [level], [charging] or not. *)
Definition updateBattery (level : R) (charging : bool) (prev : Stats) : Stats :=
  mkStats (cpuUsage prev) (cores prev) (online prev)
          (Some (App.round (level * 100))) charging.

Inductive Event :=
| Interval (random : R) (nav : Navigator)
| Battery (level : R) (charging : bool).

Definition step (s : Stats) (ev : Event) : Stats :=
  match ev with
  | Interval random nav => interval random nav s
  | Battery level charging => updateBattery level charging s
  end.



End SystemMonitor.

(** * Properties *)

(** ** Numbers *)

Lemma Rltb_true (a b : R) : Rltb a b = true <-> a < b.
Proof. unfold Rltb; destruct (Rlt_dec a b); split; intros; try easy. Qed.

Lemma Rltb_false (a b : R) : Rltb a b = false <-> b <= a.
Proof.
  unfold Rltb; destruct (Rlt_dec a b); split; intros; try easy; lra.
Qed.

Lemma Rgtb_true (a b : R) : Rgtb a b = true <-> a > b.
Proof. unfold Rgtb. rewrite Rltb_true. lra. Qed.

Lemma Rgtb_false (a b : R) : Rgtb a b = false <-> a <= b.
Proof. unfold Rgtb. rewrite Rltb_false. lra. Qed.

(** Decide a comparison between concrete numbers inside a goal. *)
Ltac decide_cmp :=
  repeat match goal with
  | |- context [Rgtb ?a ?b] => unfold Rgtb
  | |- context [Rltb ?a ?b] =>
      first [ replace (Rltb a b) with true
                by (symmetry; apply Rltb_true; lra)
            | replace (Rltb a b) with false
                by (symmetry; apply Rltb_false; lra) ]
  end.

Lemma sqrt_of_square (a b : R) : 0 <= b -> a = b * b -> sqrt a = b.
Proof. intros Hb ->. now apply sqrt_square. Qed.

(** ** The model on small inputs *)

Example wrap_left_exit : ParticleField.wrap 100 (-1) = 100.
Proof. unfold ParticleField.wrap. decide_cmp. reflexivity. Qed.

Example wrap_right_exit : ParticleField.wrap 100 101 = 0.
Proof. unfold ParticleField.wrap. decide_cmp. reflexivity. Qed.

Example wrap_on_right_edge : ParticleField.wrap 100 100 = 100.
Proof. unfold ParticleField.wrap. decide_cmp. reflexivity. Qed.

Example count_narrow :
  ParticleField.count_for (ParticleField.mkViewport 767 1024) = 60%nat.
Proof. reflexivity. Qed.

Example count_wide :
  ParticleField.count_for (ParticleField.mkViewport 768 1024) = 150%nat.
Proof. reflexivity. Qed.

Example splice_past_end :
  ParticleField.splice 3
    [ParticleField.mkParticle 0 0 0 0 1 1; ParticleField.mkParticle 1 1 0 0 1 1]
  = [ParticleField.mkParticle 0 0 0 0 1 1; ParticleField.mkParticle 1 1 0 0 1 1].
Proof. reflexivity. Qed.

Example toggleMute_twice :
  let w := WebAudio.mkWindow (Some (WebAudio.mkConstructor WebAudio.running 0)) None in
  let e := final (AudioEngine.init w AudioEngine.constructor) in
  AudioEngine.isMuted (final (AudioEngine.toggleMute e)) = true /\
  AudioEngine.isMuted
    (final (AudioEngine.toggleMute (final (AudioEngine.toggleMute e)))) = false.
Proof. split; reflexivity. Qed.

(** ** Particle field *)

Section ParticleFacts.
Import ParticleField.

Implicit Types (c : Canvas) (m : Mouse) (p : Particle).

(** *** The pointer block *)

Lemma pointer_force_inside m x1 y1 vx0 vy0 :
  let dx := x1 - mouse_x m in
  let dy := y1 - mouse_y m in
  let d := sqrt (dx * dx + dy * dy) in
  active m = true -> 0 < d < maxDist ->
  pointer_force m x1 y1 vx0 vy0 =
    (vx0 + dx / d * strength d, vy0 + dy / d * strength d).
Proof.
  intros dx dy d Ha [H0 H1]. unfold pointer_force, strength. rewrite Ha.
  fold dx dy d.
  replace (Rltb d maxDist) with true by (symmetry; now apply Rltb_true).
  replace (Rgtb d 0) with true by (symmetry; now apply Rgtb_true).
  simpl. f_equal; ring.
Qed.

Lemma pointer_force_outside m x1 y1 vx0 vy0 :
  let dx := x1 - mouse_x m in
  let dy := y1 - mouse_y m in
  let d := sqrt (dx * dx + dy * dy) in
  active m = false \/ maxDist <= d \/ d <= 0 ->
  pointer_force m x1 y1 vx0 vy0 = (vx0, vy0).
Proof.
  intros dx dy d H. unfold pointer_force. fold dx dy d.
  destruct (active m); [|reflexivity].
  destruct H as [H|[H|H]]; [discriminate| |].
  - apply Rltb_false in H. now rewrite H.
  - apply Rgtb_false in H. rewrite H. now rewrite andb_false_r.
Qed.

Lemma update_velocity c m p :
  vx (update c m p) =
    (pointer_force m (x p + vx p) (y p + vy p) (vx p) (vy p)).1 * 0.96 /\
  vy (update c m p) =
    (pointer_force m (x p + vx p) (y p + vy p) (vx p) (vy p)).2 * 0.96.
Proof.
  unfold update.
  destruct (pointer_force m (x p + vx p) (y p + vy p) (vx p) (vy p)).
  now split.
Qed.

Lemma update_position c m p :
  x (update c m p) = wrap (width c) (x p + vx p) /\
  y (update c m p) = wrap (height c) (y p + vy p).
Proof.
  unfold update.
  destruct (pointer_force m (x p + vx p) (y p + vy p) (vx p) (vy p)).
  now split.
Qed.

(** *** Wrapping *)

Lemma wrap_cases (w a : R) :
  0 <= w ->
  (a < 0 /\ wrap w a = w) \/ (a > w /\ wrap w a = 0) \/
  (0 <= a <= w /\ wrap w a = a).
Proof.
  intros Hw. unfold wrap.
  destruct (Rlt_dec a 0) as [Hneg|Hpos].
  - left. split; [assumption|].
    replace (Rltb a 0) with true by (symmetry; now apply Rltb_true).
    replace (Rgtb w w) with false by (symmetry; apply Rgtb_false; lra).
    reflexivity.
  - replace (Rltb a 0) with false by (symmetry; apply Rltb_false; lra).
    destruct (Rlt_dec w a) as [Hbig|Hin].
    + right; left. split; [lra|].
      replace (Rgtb a w) with true by (symmetry; now apply Rgtb_true).
      reflexivity.
    + right; right. split; [lra|].
      replace (Rgtb a w) with false by (symmetry; apply Rgtb_false; lra).
      reflexivity.
Qed.

Lemma wrap_bounds (w a : R) : 0 <= w -> 0 <= wrap w a <= w.
Proof.
  intros Hw. destruct (wrap_cases w a Hw) as [[_ ->]|[[_ ->]|[? ->]]]; lra.
Qed.

Lemma update_in_bounds c m p :
  0 <= width c -> 0 <= height c -> in_bounds c (update c m p).
Proof.
  intros Hw Hh. unfold in_bounds.
  destruct (update_position c m p) as [-> ->].
  split; now apply wrap_bounds.
Qed.

Lemma run_steps c frames ps : run c frames ps = map (steps c frames) ps.
Proof.
  revert ps. induction frames as [|m rest IH]; intros ps; simpl.
  - now rewrite map_id.
  - rewrite IH. unfold step. now rewrite map_map.
Qed.

Lemma steps_snoc c frames m p :
  steps c (frames ++ [m]) p = update c m (steps c frames p).
Proof.
  revert p. induction frames as [|m0 rest IH]; intros p; simpl; [reflexivity|].
  apply IH.
Qed.

Lemma steps_in_bounds c frames p :
  0 <= width c -> 0 <= height c -> in_bounds c p ->
  in_bounds c (steps c frames p).
Proof.
  intros Hw Hh. revert p. induction frames as [|m rest IH]; intros p Hp; simpl.
  - assumption.
  - apply IH. now apply update_in_bounds.
Qed.

End ParticleFacts.

Section WrapInvariant.
Import ParticleField.

(** C2, as stated, fails: a particle that starts inside the half-open
    canvas [0, 100) x [0, 100) and leaves through the left edge is put
    at [x = width], which the half-open bounds exclude. *)
Lemma half_open_bounds_counterexample :
  let c := mkCanvas 100 100 in
  let p := mkParticle 1 50 (-2) 0 1 0.5 in
  in_half_open c p /\
  ~ Forall (in_half_open c) (run c [mkMouse 0 0 false] [p]).
Proof.
  intros c p. split.
  - unfold in_half_open, c, p; simpl; lra.
  - intros H. apply Forall_inv in H. destruct H as [[_ Hx] _].
    revert Hx. unfold update, pointer_force, wrap, c, p; simpl.
    decide_cmp. lra.
Qed.

(** C2 (amended): for every number of particles and of frames, on a
    canvas of non-negative size, particles that start within the closed
    bounds [0, width] x [0, height] are within them after every frame;
    the number of particles does not change; and a particle that
    crosses an edge re-enters at the opposite edge: at [width] or
    [height] itself after leaving through the left or top edge, at [0]
    after leaving through the right or bottom edge. *)
Theorem wrap_keeps_particles_in_closed_bounds
    (c : Canvas) (frames : list Mouse) (ps : list Particle) :
  0 <= width c -> 0 <= height c ->
  Forall (in_bounds c) ps ->
  Forall (in_bounds c) (run c frames ps) /\
  length (run c frames ps) = length ps /\
  (forall m p,
      (x p + vx p < 0 -> x (update c m p) = width c) /\
      (x p + vx p > width c -> x (update c m p) = 0) /\
      (y p + vy p < 0 -> y (update c m p) = height c) /\
      (y p + vy p > height c -> y (update c m p) = 0)).
Proof.
  intros Hw Hh Hps. split; [|split].
  - rewrite run_steps. apply Forall_map.
    eapply Forall_impl; [|exact Hps].
    intros p Hp. now apply steps_in_bounds.
  - rewrite run_steps. apply length_map.
  - intros m p. destruct (update_position c m p) as [-> ->].
    destruct (wrap_cases (width c) (x p + vx p) Hw) as [[? ->]|[[? ->]|[? ->]]];
    destruct (wrap_cases (height c) (y p + vy p) Hh) as [[? ->]|[[? ->]|[? ->]]];
    repeat split; intros; lra.
Qed.

(** Two particles, one leaving through the left edge and one through the
    bottom right corner, over two frames on a 100 x 100 canvas. *)
Lemma wrap_keeps_particles_in_closed_bounds_witness :
  let c := mkCanvas 100 100 in
  let ps := [mkParticle 1 50 (-2) 0 1 0.5; mkParticle 99 99 3 3 1 0.5] in
  let frames := [mkMouse 0 0 false; mkMouse 10 10 true] in
  Forall (in_bounds c) (run c frames ps) /\
  length (run c frames ps) = length ps.
Proof.
  intros c ps frames.
  assert (Hw : 0 <= width c) by (simpl; lra).
  assert (Hh : 0 <= height c) by (simpl; lra).
  assert (Hps : Forall (in_bounds c) ps).
  { repeat constructor; simpl; lra. }
  destruct (wrap_keeps_particles_in_closed_bounds c frames ps Hw Hh Hps)
    as (H1 & H2 & _).
  split; assumption.
Defined.

End WrapInvariant.

Section Damping.
Import ParticleField.

Implicit Types (c : Canvas) (m : Mouse) (p : Particle).

Lemma pointer_dist_nonneg m p : 0 <= pointer_dist m p.
Proof. unfold pointer_dist. apply sqrt_pos. Qed.

Lemma update_damps_only c m p :
  active m = false \/ maxDist <= pointer_dist m p \/ pointer_dist m p <= 0 ->
  vx (update c m p) = vx p * 0.96 /\ vy (update c m p) = vy p * 0.96.
Proof.
  intros H. destruct (update_velocity c m p) as [-> ->].
  rewrite pointer_force_outside; [now split|].
  unfold pointer_dist in H. exact H.
Qed.

Lemma speed_scaled p q (k : R) :
  0 <= k -> vx q = vx p * k -> vy q = vy p * k -> speed q = k * speed p.
Proof.
  intros Hk Hx Hy. unfold speed. rewrite Hx, Hy.
  replace (vx p * k * (vx p * k) + vy p * k * (vy p * k))
    with (k * k * (vx p * vx p + vy p * vy p)) by ring.
  rewrite sqrt_mult_alt by nra. now rewrite sqrt_square.
Qed.

Lemma speed_nonneg p : 0 <= speed p.
Proof. apply sqrt_pos. Qed.

Lemma update_inactive_speed c m p :
  active m = false -> speed (update c m p) = 0.96 * speed p.
Proof.
  intros Ha. destruct (update_damps_only c m p) as [Hx Hy]; [now left|].
  apply speed_scaled; [lra|assumption..].
Qed.

(** C5: when the pointer block adds nothing (the flag is unset, or the
    distance is at least 250), [update] multiplies each velocity
    component by 0.96 and changes the velocity in no other way; and
    along any run of frames with the pointer inactive, the speed after
    [k + 1] frames is at most the speed after [k] frames. *)
Theorem damping_without_pointer_force c :
  (forall m p,
      active m = false \/ maxDist <= pointer_dist m p ->
      vx (update c m p) = vx p * 0.96 /\ vy (update c m p) = vy p * 0.96) /\
  (forall frames p,
      Forall (fun m => active m = false) frames ->
      forall k : nat,
        speed (steps c (take (S k) frames) p)
          <= speed (steps c (take k frames) p)).
Proof.
  split.
  - intros m p H. apply update_damps_only. tauto.
  - intros frames p Hin k.
    destruct (frames !! k) as [m|] eqn:Hk.
    + rewrite (take_S_r _ _ _ Hk), steps_snoc.
      rewrite update_inactive_speed.
      * pose proof (speed_nonneg (steps c (take k frames) p)). lra.
      * now apply (proj1 (Forall_lookup _ _) Hin k m).
    + apply lookup_ge_None in Hk.
      rewrite !take_ge by lia. lra.
Qed.

End Damping.

(** A particle of velocity (3, 4) over frames with the pointer inactive. *)
Lemma damping_without_pointer_force_witness :
  let c := ParticleField.mkCanvas 100 100 in
  let m := ParticleField.mkMouse 0 0 false in
  let p := ParticleField.mkParticle 10 10 3 4 1 0.5 in
  (ParticleField.vx (ParticleField.update c m p) = 3 * 0.96 /\
   ParticleField.vy (ParticleField.update c m p) = 4 * 0.96) /\
  ParticleField.speed (ParticleField.steps c (take 2 [m; m; m]) p)
    <= ParticleField.speed (ParticleField.steps c (take 1 [m; m; m]) p).
Proof.
  intros c m p.
  destruct (damping_without_pointer_force c) as [Hv Hs].
  split.
  - apply (Hv m p). left. reflexivity.
  - apply (Hs [m; m; m] p). repeat constructor.
Defined.

Section PointerForce.
Import ParticleField.

Implicit Types (c : Canvas) (m : Mouse) (p : Particle).

(** C1, as stated, fails: the pointer is 100 away from the particle,
    yet the force added points away from the pointer, and the speed
    drops from 10 to 9.8304. *)
Lemma attraction_counterexample :
  let c := mkCanvas 1000 1000 in
  let m := mkMouse 10 0 true in
  let p := mkParticle 100 0 10 0 1 0.5 in
  active m = true /\
  0 < pointer_dist m p < maxDist /\
  toward_pointer m p (added_force m p) < 0 /\
  speed (update c m p) < speed p.
Proof.
  intros c m p.
  assert (Hd : pointer_dist m p = 100).
  { unfold pointer_dist, m, p; simpl. apply sqrt_of_square; lra. }
  assert (Hin : 0 < sqrt ((x p + vx p - mouse_x m) * (x p + vx p - mouse_x m)
                    + (y p + vy p - mouse_y m) * (y p + vy p - mouse_y m))
                < maxDist).
  { fold (pointer_dist m p). rewrite Hd. unfold maxDist. lra. }
  assert (Hf : pointer_force m (x p + vx p) (y p + vy p) (vx p) (vy p)
               = (10.24, 0)).
  { rewrite (pointer_force_inside m _ _ _ _ eq_refl Hin).
    fold (pointer_dist m p). rewrite Hd.
    unfold strength, maxDist, m, p; simpl. f_equal; lra. }
  split; [reflexivity|]. split; [rewrite Hd; unfold maxDist; lra|]. split.
  - unfold toward_pointer, added_force. rewrite Hf.
    unfold m, p; simpl. lra.
  - assert (Hb : speed p = 10).
    { unfold speed, p; simpl. apply sqrt_of_square; lra. }
    assert (Ha : speed (update c m p) = 9.8304).
    { unfold speed. destruct (update_velocity c m p) as [-> ->].
      rewrite Hf; simpl. apply sqrt_of_square; lra. }
    rewrite Ha, Hb. lra.
Qed.

Lemma unit_vector (dx dy : R) :
  let d := sqrt (dx * dx + dy * dy) in
  0 < d -> dx / d * (dx / d) + dy / d * (dy / d) = 1.
Proof.
  intros d Hd.
  assert (Hsq : d * d = dx * dx + dy * dy).
  { unfold d. apply sqrt_sqrt. nra. }
  field_simplify_eq; [|lra]. lra.
Qed.

Lemma strength_pos (d : R) : d < maxDist -> 0 < strength d.
Proof. unfold strength, maxDist. intros. lra. Qed.

Lemma strength_decreasing (d1 d2 : R) :
  d1 < d2 -> strength d2 < strength d1.
Proof. unfold strength, maxDist. intros. lra. Qed.

(** C1 (amended): for a particle whose distance [d] to the active
    pointer satisfies [0 < d < 250], one [update] adds to the velocity,
    before damping, a repulsion force: the unit vector from the pointer
    to the particle times [0.4 * (250 - d) / 250]. The force points
    away from the pointer, has exactly that magnitude, which is
    positive and larger the closer the pointer is, and the new velocity
    is 0.96 times the old velocity plus the force; a particle at rest
    gains speed. *)
Theorem pointer_force_is_repulsion c m p :
  let d := pointer_dist m p in
  let ux := (x p + vx p - mouse_x m) / d in
  let uy := (y p + vy p - mouse_y m) / d in
  active m = true -> 0 < d < maxDist ->
  added_force m p = (ux * strength d, uy * strength d) /\
  ux * ux + uy * uy = 1 /\
  toward_pointer m p (added_force m p) < 0 /\
  0 < strength d /\
  (forall d', 0 < d' < d -> strength d < strength d') /\
  vx (update c m p) = (vx p + ux * strength d) * 0.96 /\
  vy (update c m p) = (vy p + uy * strength d) * 0.96 /\
  (vx p = 0 -> vy p = 0 -> speed p < speed (update c m p)).
Proof.
  intros d ux uy Ha Hd.
  pose proof (pointer_force_inside m (x p + vx p) (y p + vy p) (vx p) (vy p)
                Ha Hd) as Hf.
  fold (pointer_dist m p) in Hf. fold d in Hf. fold ux uy in Hf.
  assert (Hu : ux * ux + uy * uy = 1).
  { apply (unit_vector (x p + vx p - mouse_x m) (y p + vy p - mouse_y m)).
    apply Hd. }
  assert (Hs : 0 < strength d) by (apply strength_pos, Hd).
  assert (Hadd : added_force m p = (ux * strength d, uy * strength d)).
  { unfold added_force. rewrite Hf. f_equal; ring. }
  split; [exact Hadd|]. split; [exact Hu|]. split; [|split; [exact Hs|split]].
  - rewrite Hadd. unfold toward_pointer; simpl.
    replace (mouse_x m - (x p + vx p)) with (- (ux * d))
      by (unfold ux; field; lra).
    replace (mouse_y m - (y p + vy p)) with (- (uy * d))
      by (unfold uy; field; lra).
    replace (ux * strength d * - (ux * d) + uy * strength d * - (uy * d))
      with (- (strength d * d * (ux * ux + uy * uy))) by ring.
    rewrite Hu. nra.
  - intros d' Hd'. apply strength_decreasing, Hd'.
  - destruct (update_velocity c m p) as [-> ->]. rewrite Hf; simpl.
    split; [reflexivity|]. split; [reflexivity|].
    intros Hx Hy. unfold speed.
    destruct (update_velocity c m p) as [-> ->]. rewrite Hf; simpl.
    rewrite Hx, Hy.
    replace (0 * 0 + 0 * 0) with 0 by ring. rewrite sqrt_0.
    apply sqrt_lt_R0.
    replace ((0 + ux * strength d) * 0.96 * ((0 + ux * strength d) * 0.96)
             + (0 + uy * strength d) * 0.96 * ((0 + uy * strength d) * 0.96))
      with (0.96 * 0.96 * (strength d * strength d) * (ux * ux + uy * uy))
      by ring.
    rewrite Hu. nra.
Qed.

(** A particle at rest, 100 to the right of the pointer. *)
Lemma pointer_force_is_repulsion_witness :
  let c := mkCanvas 1000 1000 in
  let m := mkMouse 10 0 true in
  let p := mkParticle 110 0 0 0 1 0.5 in
  toward_pointer m p (added_force m p) < 0 /\ speed p < speed (update c m p).
Proof.
  intros c m p.
  assert (Hd : pointer_dist m p = 100).
  { unfold pointer_dist, m, p; simpl. apply sqrt_of_square; lra. }
  assert (Hin : 0 < pointer_dist m p < maxDist).
  { rewrite Hd. unfold maxDist. lra. }
  destruct (pointer_force_is_repulsion c m p eq_refl Hin)
    as (_ & _ & Haway & _ & _ & _ & _ & Hrest).
  split; [exact Haway|]. apply Hrest; reflexivity.
Defined.

End PointerForce.

Section DivisionSafety.
Import ParticleField.

Implicit Types (c : Canvas) (m : Mouse) (p : Particle).

Lemma div_finite_nonzero (a b : R) : b <> 0 -> div_finite a b = Some (a / b).
Proof. intros Hb. unfold div_finite. now destruct (Req_dec_T b 0). Qed.

Lemma pointer_force_checked_total m x1 y1 vx0 vy0 :
  pointer_force_checked m x1 y1 vx0 vy0 = Some (pointer_force m x1 y1 vx0 vy0).
Proof.
  unfold pointer_force_checked, pointer_force.
  destruct (active m); [|reflexivity].
  set (d := sqrt _).
  destruct (Rltb d maxDist) eqn:Hlt; [|reflexivity].
  destruct (Rgtb d 0) eqn:Hgt; [|reflexivity]. simpl.
  apply Rgtb_true in Hgt.
  rewrite (div_finite_nonzero (maxDist - d) maxDist) by (unfold maxDist; lra).
  simpl. rewrite !div_finite_nonzero by lra. reflexivity.
Qed.

Lemma added_force_outside m p :
  active m = false \/ maxDist <= pointer_dist m p \/ pointer_dist m p <= 0 ->
  added_force m p = (0, 0).
Proof.
  intros H. unfold added_force.
  rewrite pointer_force_outside by exact H. f_equal; ring.
Qed.

(** C9: [update] adds a pointer force only when the flag is set and
    [0 < dist < 250]. With the pointer exactly on the particle
    ([dist = 0]) nothing is added and the velocity is only damped; and
    no division of [update] ever has a zero divisor: the run with every
    division checked always yields the same particle as [update]. *)
Theorem pointer_force_never_divides_by_zero c m p :
  (pointer_dist m p = 0 ->
     added_force m p = (0, 0) /\
     vx (update c m p) = vx p * 0.96 /\ vy (update c m p) = vy p * 0.96) /\
  (added_force m p <> (0, 0) ->
     active m = true /\ 0 < pointer_dist m p < maxDist) /\
  update_checked c m p = Some (update c m p).
Proof.
  split; [|split].
  - intros H0. split.
    + apply added_force_outside. right; right. lra.
    + apply update_damps_only. right; right. lra.
  - intros Hne.
    destruct (active m) eqn:Ha.
    + split; [reflexivity|].
      destruct (Rlt_dec 0 (pointer_dist m p)) as [Hpos|Hnpos].
      * destruct (Rlt_dec (pointer_dist m p) maxDist) as [Hlt|Hge]; [lra|].
        exfalso. apply Hne, added_force_outside. right; left. lra.
      * exfalso. apply Hne, added_force_outside. right; right. lra.
    + exfalso. apply Hne, added_force_outside. now left.
  - unfold update_checked, update.
    rewrite pointer_force_checked_total. simpl.
    now destruct (pointer_force m (x p + vx p) (y p + vy p) (vx p) (vy p)).
Qed.

(** A particle that moves exactly onto the active pointer. *)
Lemma pointer_force_never_divides_by_zero_witness :
  let c := mkCanvas 100 100 in
  let m := mkMouse 10 20 true in
  let p := mkParticle 7 16 3 4 1 0.5 in
  added_force m p = (0, 0) /\
  vx (update c m p) = 3 * 0.96 /\ vy (update c m p) = 4 * 0.96.
Proof.
  intros c m p.
  apply (proj1 (pointer_force_never_divides_by_zero c m p)).
  unfold pointer_dist, m, p; simpl.
  apply sqrt_of_square; lra.
Defined.

End DivisionSafety.

(** ** Bursts *)

Section Bursts.
Import ParticleField.

Implicit Types (f : Field) (ps : list Particle) (v : Viewport).

Lemma push_new_length k c b r ps :
  length (push_new k c b r ps).1 = (length ps + k)%nat.
Proof.
  revert r ps. induction k as [|k IH]; intros r ps; simpl.
  - lia.
  - rewrite IH, length_app. simpl. lia.
Qed.

Lemma count_for_pos v : (0 < count_for v)%nat.
Proof. unfold count_for. destruct (innerWidth v <? 768)%nat; lia. Qed.

Lemma fire_all_length n (tms : list (nat * nat)) ps :
  Forall (fun tm => tm.2 = n) tms -> (n <= length ps)%nat ->
  length (fold_left fire tms ps) = match tms with [] => length ps | _ => n end.
Proof.
  intros Hall. revert ps. induction Hall as [|tm tms Htm Hall IH]; intros ps Hn.
  - reflexivity.
  - simpl. rewrite IH.
    + unfold fire, splice. rewrite Htm, length_take.
      destruct tms; lia.
    + unfold fire, splice. rewrite Htm, length_take. lia.
Qed.

Lemma filter_both_nil {A} (P : A -> bool) (l : list A) :
  List.filter P l = [] -> List.filter (fun a => negb (P a)) l = [] -> l = [].
Proof.
  destruct l as [|a l]; [reflexivity|]. simpl.
  destruct (P a); simpl; discriminate.
Qed.

Lemma Forall_list_filter {A} (Q : A -> Prop) (P : A -> bool) (l : list A) :
  Forall Q l -> Forall Q (List.filter P l).
Proof.
  induction 1 as [|a l Ha Hl IH]; simpl; [constructor|].
  destruct (P a); [constructor|]; assumption.
Qed.

Lemma effect_particles_pending v b f :
  effect v b f =
    let ps1 := if (length (particles f) =? 0)%nat
               then (push_new (count_for v) (canvas (resize v f)) false
                              (rnd f) (particles f))
               else (particles f, rnd f) in
    if b then
      let ps2 := push_new 50 (canvas (resize v f)) true ps1.2 ps1.1 in
      mkField (canvas (resize v f)) (mouse f) ps2.1
              (pending f ++ [((now f + burst_delay)%nat, count_for v)])
              (now f) ps2.2
    else mkField (canvas (resize v f)) (mouse f) ps1.1 (pending f) (now f) ps1.2.
Proof.
  unfold effect.
  change (particles (resize v f)) with (particles f).
  change (rnd (resize v f)) with (rnd f).
  change (mouse (resize v f)) with (mouse f).
  change (pending (resize v f)) with (pending f).
  change (now (resize v f)) with (now f).
  cbv zeta.
  destruct (if (length (particles f) =? 0)%nat
            then push_new (count_for v) (canvas (resize v f)) false (rnd f) (particles f)
            else (particles f, rnd f)) as [ps1 r1].
  destruct b; [|reflexivity].
  cbn [fst snd].
  now destruct (push_new 50 (canvas (resize v f)) true r1 ps1).
Qed.

Lemma effect_settles n v b f :
  count_for v = n -> unpopulated f \/ settled n f -> settled n (effect v b f).
Proof.
  intros Hn Hf. pose proof (count_for_pos v) as Hpos.
  rewrite effect_particles_pending. rewrite Hn in *. cbv zeta.
  set (ps1 := if (length (particles f) =? 0)%nat
              then push_new n (canvas (resize v f)) false (rnd f) (particles f)
              else (particles f, rnd f)).
  assert (Hbase : (n <= length ps1.1)%nat /\ (pending f = [] -> length ps1.1 = n)).
  { unfold ps1. destruct Hf as [[Hp Hq]|(Hle & _ & Heq)].
    - rewrite Hp. change (length (@nil Particle) =? 0)%nat with true.
      cbv iota. rewrite push_new_length. change (length (@nil Particle)) with 0%nat.
      lia.
    - destruct (Nat.eqb_spec (length (particles f)) 0) as [E|E]; [lia|].
      split; assumption. }
  assert (Hpend : Forall (fun tm => tm.2 = n) (pending f)).
  { destruct Hf as [[_ ->]|(_ & H & _)]; [constructor|exact H]. }
  destruct Hbase as [Hle Heq].
  destruct b; unfold settled; cbn [particles pending].
  - rewrite push_new_length. split; [lia|]. split.
    + apply Forall_app. split; [exact Hpend|]. now repeat constructor.
    + intros H. now destruct (pending f).
  - repeat split; assumption.
Qed.

Lemma wait_settles n dt f : settled n f -> settled n (wait dt f).
Proof.
  intros (Hle & Hall & Heq). unfold settled, wait; simpl.
  set (due := List.filter _ (pending f)).
  assert (Hdue : Forall (fun tm => tm.2 = n) due).
  { unfold due. now apply Forall_list_filter. }
  rewrite (fire_all_length n due _ Hdue Hle).
  split; [destruct due; lia|]. split.
  - now apply Forall_list_filter.
  - intros Hrest. destruct due eqn:Hd; [|reflexivity].
    apply Heq. now apply (filter_both_nil (is_due (now f + dt))).
Qed.

Lemma wait_fires n dt f :
  settled n f ->
  Exists (fun tm => (tm.1 <= now f + dt)%nat) (pending f) ->
  length (particles (wait dt f)) = n.
Proof.
  intros (Hle & Hall & _) Hex. unfold wait; simpl.
  set (due := List.filter _ (pending f)).
  assert (Hdue : Forall (fun tm => tm.2 = n) due).
  { unfold due. now apply Forall_list_filter. }
  rewrite (fire_all_length n due _ Hdue Hle).
  destruct due eqn:Hd; [|reflexivity]. exfalso.
  apply List.Exists_exists in Hex. destruct Hex as (tm & Hin & Ht).
  assert (Hmem : In tm due).
  { unfold due. apply List.filter_In. split; [exact Hin|].
    unfold is_due. now apply Nat.leb_le. }
  rewrite Hd in Hmem. exact Hmem.
Qed.

Lemma handle_settles n ev f :
  same_baseline n [ev] -> settled n f -> settled n (handle f ev).
Proof.
  intros Hev Hf. apply Forall_inv in Hev.
  destruct ev as [v b|v|px py| | |dt]; simpl.
  - apply effect_settles; [exact Hev|now right].
  - exact Hf.
  - exact Hf.
  - exact Hf.
  - destruct Hf as (Hle & Hall & Heq). unfold settled, frame, step; simpl.
    rewrite length_map. repeat split; assumption.
  - now apply wait_settles.
Qed.

Lemma play_settles n evs f :
  same_baseline n evs -> settled n f -> settled n (play evs f).
Proof.
  revert f. induction evs as [|ev evs IH]; intros f Hevs Hf; simpl.
  - exact Hf.
  - apply IH.
    + now apply Forall_inv_tail in Hevs.
    + apply handle_settles; [|exact Hf].
      constructor; [now apply Forall_inv in Hevs|constructor].
Qed.

End Bursts.

Section BurstBaseline.
Import ParticleField.

(** C3, as stated, fails when the viewport crosses the 768 px
    breakpoint between the population of the collection and a burst:
    populated with 60 particles on a narrow viewport, then widened, a
    burst brings the count to 110, its timer runs [splice(150)], which
    removes nothing, and the count stays at 110: neither the pre-burst
    count nor the steady-state count of the viewport. *)
Lemma burst_after_widening_counterexample :
  let narrow := mkViewport 500 800 in
  let wide := mkViewport 1024 768 in
  let f0 := effect narrow false (mount (mkCanvas 0 0) (fun _ => 0.5)) in
  let f1 := play [Resize wide; Effect wide true; Wait 2000] f0 in
  length (particles f0) = 60%nat /\
  pending f0 = [] /\
  pending f1 = [] /\
  length (particles f1) = 110%nat /\
  length (particles f1) <> length (particles f0) /\
  length (particles f1) <> count_for wide.
Proof.
  intros narrow wide f0 f1.
  assert (H0 : length (particles f0) = 60%nat) by (vm_compute; reflexivity).
  assert (H1 : length (particles f1) = 110%nat) by (vm_compute; reflexivity).
  assert (Hw : count_for wide = 150%nat) by reflexivity.
  split; [exact H0|]. split; [vm_compute; reflexivity|].
  split; [vm_compute; reflexivity|]. split; [exact H1|].
  rewrite H1, H0, Hw. split; lia.
Qed.

(** C3 (amended): let the component be mounted and let any events
    follow (renders with or without a burst, resizes, pointer moves,
    frames, time passing), every effect run seeing the same
    steady-state count [n] (60 below 768 px, else 150). Then the
    collection holds exactly [n] particles whenever no burst timer is
    pending, and exactly [n] as soon as time passes the due time of any
    pending timer, also while a later burst is still pending. In
    particular a burst adds 50 particles, and once 2000 ms have passed
    after it the count is [n] again. *)
Theorem burst_returns_to_baseline
    (c0 : Canvas) (r : Rand) (v : Viewport) (b : bool) (evs : list Event) :
  let n := count_for v in
  let f := play evs (effect v b (mount c0 r)) in
  same_baseline n evs ->
  (pending f = [] -> length (particles f) = n) /\
  (forall dt,
      Exists (fun tm => (tm.1 <= now f + dt)%nat) (pending f) ->
      length (particles (wait dt f)) = n) /\
  (forall v' dt,
      count_for v' = n -> (burst_delay <= dt)%nat ->
      length (particles (effect v' true f)) = (length (particles f) + 50)%nat /\
      length (particles (wait dt (effect v' true f))) = n).
Proof.
  intros n f Hevs.
  assert (Hf : settled n f).
  { apply play_settles; [exact Hevs|].
    apply effect_settles; [reflexivity|]. left. now split. }
  split; [apply Hf|]. split.
  - intros dt Hex. now apply (wait_fires n).
  - intros v' dt Hv' Hdt.
    assert (Hf' : settled n (effect v' true f)).
    { apply effect_settles; [exact Hv'|now right]. }
    split.
    + rewrite effect_particles_pending. cbv zeta. cbn [particles].
      rewrite push_new_length.
      destruct Hf as (Hle & _). pose proof (count_for_pos v) as Hpos.
      fold n in Hpos.
      destruct (Nat.eqb_spec (length (particles f)) 0) as [E|E]; [lia|].
      reflexivity.
    + apply (wait_fires n); [exact Hf'|].
      rewrite effect_particles_pending. cbv zeta. cbn [pending now].
      apply Exists_app. right. constructor. cbn [fst]. lia.
Qed.

(** Two overlapping bursts on a wide viewport: the first at time 0, the
    second at 500 ms. At 2000 ms the first timer has run and the count
    is 150 although the second burst is still pending; at 2500 ms
    nothing is pending and the count is 150. *)
Lemma burst_returns_to_baseline_witness :
  let v := mkViewport 1024 768 in
  let f0 := effect v true (mount (mkCanvas 0 0) (fun _ => 0.5)) in
  let overlap := [Wait 200; Effect v false; Wait 300; Effect v true] in
  length (particles (wait 1500 (play overlap f0))) = 150%nat /\
  length (particles (play (overlap ++ [Wait 1500; Wait 500]) f0)) = 150%nat.
Proof.
  intros v f0 overlap.
  assert (Hp : pending (play overlap f0) = [(2000, 150); (2500, 150)]%nat)
    by (vm_compute; reflexivity).
  assert (Hn : now (play overlap f0) = 500%nat) by (vm_compute; reflexivity).
  assert (Hq : pending (play (overlap ++ [Wait 1500; Wait 500]) f0) = [])
    by (vm_compute; reflexivity).
  destruct (burst_returns_to_baseline (mkCanvas 0 0) (fun _ => 0.5) v true
              overlap) as (_ & H1 & _); [repeat constructor|].
  destruct (burst_returns_to_baseline (mkCanvas 0 0) (fun _ => 0.5) v true
              (overlap ++ [Wait 1500; Wait 500])) as (H2 & _);
    [repeat constructor|].
  split.
  - apply H1. fold f0. rewrite Hp, Hn. apply Exists_cons_hd. cbn [fst]. lia.
  - apply H2. exact Hq.
Defined.

End BurstBaseline.

(** ** Audio engine *)

Section EngineFacts.
Import WebAudio AudioEngine.

Implicit Types (e : t) (c : AudioContext) (w : Window).

(** Run a method on an engine whose fields are explicit. *)
Ltac run_method :=
  lazy beta iota zeta delta
    [init startAmbience setVolumes toggleMute playClickSound playHoverSound
     mbind mret method_bind method_ret get modify throw create on_ctx the the_ctx
     set_ctx set_masterGain set_musicGain set_sfxGain set_droneOsc set_droneGain
     set_isMuted set_initialized
     ctx masterGain musicGain sfxGain droneOsc droneGain isMuted initialized
     or_else AudioContext_ webkitAudioContext construct
     createGain createOscillator createBiquadFilter connect set_value schedule
     set_osc_type set_filter_type start stop with_nodes tick
     state currentTime nodes wires initialState initialTime
     fst snd negb orb andb final exec fmap option_fmap option_map].

Lemma alter_past (f : Node -> Node) (l1 l2 : list Node) :
  alter f (length l1) (l1 ++ l2) = l1 ++ alter f 0%nat l2.
Proof.
  rewrite <- (Nat.add_0_r (length l1)) at 1. apply alter_app_r.
Qed.

(** Run the method of a goal [exists c', method e = Return a e' /\ _]
    and bring the node store of the resulting context to the form
    [old nodes ++ new nodes] before choosing [c']. *)
Ltac traced_method :=
  match goal with
  | |- exists _, ?call = _ /\ _ =>
    let Hcall := fresh "Hcall" in
    eassert (Hcall : call = _);
    [ lazy beta iota zeta delta
        [init startAmbience setVolumes toggleMute playClickSound playHoverSound
         mbind mret method_bind method_ret get modify throw create on_ctx the
         the_ctx set_ctx set_masterGain set_musicGain set_sfxGain set_droneOsc
         set_droneGain set_isMuted set_initialized
         ctx masterGain musicGain sfxGain droneOsc droneGain isMuted initialized
         createGain createOscillator createBiquadFilter connect set_value
         schedule set_osc_type set_filter_type start stop with_nodes
         state currentTime nodes wires fst snd negb orb andb];
      match goal with
      | |- ?l = _ =>
        let o := fresh "o" in
        let H := fresh "H" in
        remember l as o eqn:H;
        repeat first
          [ rewrite <- app_assoc in H
          | rewrite length_app in H
          | rewrite alter_past in H
          | rewrite alter_app_r in H
          | rewrite <- Nat.add_assoc in H
          | progress cbn [app length alter list_alter on_param value events
                          Nat.add] in H ];
        exact H
      end
    | eexists; split; [exact Hcall|]; repeat split; reflexivity ]
  end.

(** *** What each method does to an engine *)

Lemma init_initialized w e : initialized e = true -> init w e = Return tt e.
Proof. intros H. destruct e; simpl in H; subst. reflexivity. Qed.

Lemma init_without_constructor e :
  initialized e = false -> init (mkWindow None None) e = Throw TypeError e.
Proof. intros H. destruct e; simpl in H; subst. reflexivity. Qed.

Lemma init_fresh w k e :
  initialized e = false ->
  or_else (AudioContext_ w) (webkitAudioContext w) = Some k ->
  init w e =
    Return tt
      (mk (Some (mkContext (initialState k) (initialTime k)
                   [GainNode (mkParam 1 []);
                    GainNode (mkParam 1 []);
                    GainNode (mkParam 1 []);
                    OscillatorNode sawtooth (mkParam 50 [])
                                   (Some (initialTime k)) None;
                    BiquadFilterNode lowpass (mkParam 120 []) (mkParam 5 []);
                    OscillatorNode sine (mkParam 0.2 [])
                                   (Some (initialTime k)) None;
                    GainNode (mkParam 20 []);
                    GainNode (mkParam 0.05 [])]
                   [(0%nat, destination); (1%nat, input 0); (2%nat, input 0);
                    (5%nat, input 6); (6%nat, param 4 frequency);
                    (3%nat, input 4); (4%nat, input 7); (7%nat, input 1)]))
          (Some 0%nat) (Some 1%nat) (Some 2%nat) (Some 3%nat) (Some 7%nat)
          (isMuted e) true).
Proof.
  intros H Hk. destruct e as [c0 m0 mu0 s0 dO0 dG0 im ini]; simpl in H; subst.
  destruct k as [st0 t0].
  destruct w as [[a|] b]; simpl in Hk; [injection Hk as ->|subst b];
    run_method; reflexivity.
Qed.


Lemma startAmbience_without_context e :
  ctx e = None -> startAmbience e = Return tt e.
Proof. intros H. destruct e; simpl in H; subst. reflexivity. Qed.

Lemma startAmbience_nodes c m mu s dO dG im ini :
  exists c',
    startAmbience (mk (Some c) m (Some mu) s dO dG im ini)
      = Return tt (mk (Some c') m (Some mu) s
                      (Some (length (nodes c)))
                      (Some (length (nodes c) + 4)%nat) im ini) /\
    state c' = state c /\ currentTime c' = currentTime c /\
    nodes c' = nodes c ++
      [OscillatorNode sawtooth (mkParam 50 []) (Some (currentTime c)) None;
       BiquadFilterNode lowpass (mkParam 120 []) (mkParam 5 []);
       OscillatorNode sine (mkParam 0.2 []) (Some (currentTime c)) None;
       GainNode (mkParam 20 []);
       GainNode (mkParam 0.05 [])].
Proof.
  destruct c as [st t0 ns ws]. traced_method.
Qed.

Lemma setVolumes_nodes c m mu s dO dG im musicVol sfxVol :
  exists c',
    setVolumes musicVol sfxVol (mk (Some c) m (Some mu) (Some s) dO dG im true)
      = Return tt (mk (Some c') m (Some mu) (Some s) dO dG im true) /\
    state c' = state c /\ currentTime c' = currentTime c /\
    nodes c' =
      alter (on_param gain (fun p => mkParam (value p)
               (events p ++ [SetTargetAtTime (sfxVol / 100) (currentTime c) 0.1])))
            s
        (alter (on_param gain (fun p => mkParam (value p)
                  (events p ++ [SetTargetAtTime (musicVol / 100) (currentTime c) 0.1])))
               mu (nodes c)).
Proof.
  destruct c as [st t0 ns ws]. traced_method.
Qed.

Lemma toggleMute_nodes c m mu s dO dG im :
  exists c',
    toggleMute (mk (Some c) (Some m) mu s dO dG im true)
      = Return (negb im) (mk (Some c') (Some m) mu s dO dG (negb im) true) /\
    state c' = state c /\ currentTime c' = currentTime c /\
    nodes c' =
      alter (on_param gain (fun p => mkParam (value p)
               (events p ++ [SetTargetAtTime (if negb im then 0 else 1)
                                             (currentTime c) 0.1])))
            m (nodes c).
Proof.
  destruct c as [st t0 ns ws]. traced_method.
Qed.

Lemma playClickSound_muted oc m mu s dO dG ini :
  playClickSound (mk oc m mu s dO dG true ini)
    = Return tt (mk oc m mu s dO dG true ini).
Proof. destruct ini; reflexivity. Qed.

Lemma playHoverSound_muted r oc m mu s dO dG ini :
  playHoverSound r (mk oc m mu s dO dG true ini)
    = Return tt (mk oc m mu s dO dG true ini).
Proof. destruct ini; reflexivity. Qed.

Lemma playClickSound_nodes c m mu s dO dG :
  exists c',
    playClickSound (mk (Some c) m mu (Some s) dO dG false true)
      = Return tt (mk (Some c') m mu (Some s) dO dG false true) /\
    state c' = state c /\ currentTime c' = currentTime c /\
    nodes c' = nodes c ++
      [OscillatorNode sawtooth
         (mkParam 440 [SetValueAtTime 1200 (currentTime c);
                       ExponentialRampToValueAtTime 100 (currentTime c + 0.1)])
         (Some (currentTime c)) (Some (currentTime c + 0.15));
       GainNode
         (mkParam 1 [SetValueAtTime 0.5 (currentTime c);
                     ExponentialRampToValueAtTime 0.01 (currentTime c + 0.1)])].
Proof.
  destruct c as [st t0 ns ws]. traced_method.
Qed.

Lemma playHoverSound_nodes r c m mu s dO dG :
  exists c',
    playHoverSound r (mk (Some c) m mu (Some s) dO dG false true)
      = Return tt (mk (Some c') m mu (Some s) dO dG false true) /\
    state c' = state c /\ currentTime c' = currentTime c /\
    nodes c' = nodes c ++
      [OscillatorNode square
         (mkParam 440 [SetValueAtTime (800 + r * 200) (currentTime c)])
         (Some (currentTime c)) (Some (currentTime c + 0.05));
       GainNode
         (mkParam 1 [SetValueAtTime 0.05 (currentTime c);
                     ExponentialRampToValueAtTime 0.001 (currentTime c + 0.05)])].
Proof.
  destruct c as [st t0 ns ws]. traced_method.
Qed.

(** *** Gains under node creation and scheduling *)

Lemma unit_gain_app c c' l id :
  nodes c' = nodes c ++ l -> unit_gain c id -> unit_gain c' id.
Proof.
  intros Hn (p & Hp & Hu). exists p. split; [|exact Hu].
  unfold gain_of in *. rewrite Hn.
  destruct (nodes c !! id) as [n|] eqn:Hid; [|discriminate].
  now rewrite (lookup_app_l_Some _ _ _ _ Hid).
Qed.

Lemma unit_gain_new c c' l id p :
  nodes c' = nodes c ++ l -> l !! id = Some (GainNode p) -> unit_param p ->
  unit_gain c' (length (nodes c) + id).
Proof.
  intros Hn Hl Hu. exists p. split; [|exact Hu].
  unfold gain_of. rewrite Hn, lookup_app_r by lia.
  replace (length (nodes c) + id - length (nodes c))%nat with id by lia.
  now rewrite Hl.
Qed.

Lemma unit_gain_schedule c c' j ev id :
  nodes c' = alter (on_param gain (fun p => mkParam (value p) (events p ++ [ev])))
                   j (nodes c) ->
  unit_event ev -> unit_gain c id -> unit_gain c' id.
Proof.
  intros Hn Hev (p & Hp & Hv & He). unfold unit_gain, gain_of in *.
  rewrite Hn. destruct (nodes c !! id) as [n|] eqn:Hid; [|discriminate].
  destruct n as [g| |]; try discriminate. injection Hp as ->.
  destruct (decide (j = id)) as [->|Hne].
  - rewrite list_lookup_alter_eq, Hid. simpl.
    eexists. split; [reflexivity|]. split; [exact Hv|].
    simpl. apply Forall_app. split; [exact He|]. now constructor.
  - rewrite list_lookup_alter_ne by exact Hne. rewrite Hid.
    exists p. split; [reflexivity|]. split; assumption.
Qed.


Lemma unit_gain_same_nodes c c' id :
  nodes c' = nodes c -> unit_gain c id -> unit_gain c' id.
Proof.
  intros Hn (p & Hp & Hu). exists p. split; [|exact Hu].
  unfold gain_of in *. now rewrite Hn.
Qed.

(** *** The invariant *)

Lemma constructor_ok : engine_ok constructor.
Proof. reflexivity. Qed.

Lemma init_ok w e : engine_ok e -> engine_ok (final (init w e)).
Proof.
  intros He. destruct (initialized e) eqn:Hi.
  - now rewrite init_initialized.
  - destruct (or_else (AudioContext_ w) (webkitAudioContext w)) as [k|] eqn:Hk.
    + rewrite (init_fresh w k e Hi Hk). unfold engine_ok; simpl.
      eexists _, 0%nat, 1%nat, 2%nat, 7%nat. repeat (split; [reflexivity|]).
      repeat split; (eexists; split; [reflexivity|]; split; simpl; [lra|constructor]).
    + destruct w as [[a|] [b|]]; simpl in Hk; try discriminate.
      now rewrite init_without_constructor.
Qed.

Lemma engine_ok_initialized e :
  engine_ok e -> initialized e = true ->
  exists c m mu s dO d im,
    e = mk (Some c) (Some m) (Some mu) (Some s) dO (Some d) im true /\
    unit_gain c m /\ unit_gain c mu /\ unit_gain c s /\ unit_gain c d.
Proof.
  unfold engine_ok. intros He Hi. rewrite Hi in He.
  destruct He as (c & m & mu & s & d & Hc & Hm & Hmu & Hs & Hd & Hg).
  destruct e as [oc om omu os dO od im ini]; simpl in *; subst.
  exists c, m, mu, s, dO, d, im. split; [reflexivity|exact Hg].
Qed.

Lemma engine_ok_uninitialized e :
  engine_ok e -> initialized e = false -> e = constructor.
Proof. unfold engine_ok. intros He Hi. now rewrite Hi in He. Qed.

Lemma engine_ok_intro c m mu s dO d im :
  unit_gain c m -> unit_gain c mu -> unit_gain c s -> unit_gain c d ->
  engine_ok (mk (Some c) (Some m) (Some mu) (Some s) dO (Some d) im true).
Proof.
  intros. unfold engine_ok; simpl. exists c, m, mu, s, d. now repeat split.
Qed.

(** Split on whether the engine is initialised; in the first case its
    fields become explicit. *)
Ltac engine_cases e He :=
  let Hi := fresh "Hi" in
  destruct (initialized e) eqn:Hi;
  [ destruct (engine_ok_initialized e He Hi)
      as (?c & ?m & ?mu & ?s & ?dO & ?d & ?im & -> & ?Hm & ?Hmu & ?Hs & ?Hd)
  | rewrite (engine_ok_uninitialized e He Hi) ].

Lemma startAmbience_ok e : engine_ok e -> engine_ok (final (startAmbience e)).
Proof.
  intros He. engine_cases e He; [|exact constructor_ok].
  destruct (startAmbience_nodes c (Some m) mu (Some s) dO (Some d) im true)
    as (c' & -> & _ & _ & Hn).
  simpl. apply engine_ok_intro; try (now apply (unit_gain_app c c' _ _ Hn)).
  apply (unit_gain_new c c' _ 4 (mkParam 0.05 []) Hn); [reflexivity|].
  split; simpl; [lra|constructor].
Qed.

Lemma setVolumes_ok musicVol sfxVol e :
  0 <= musicVol <= 100 -> 0 <= sfxVol <= 100 ->
  engine_ok e -> engine_ok (final (setVolumes musicVol sfxVol e)).
Proof.
  intros Hmv Hsv He. engine_cases e He; [|exact constructor_ok].
  destruct (setVolumes_nodes c (Some m) mu s dO (Some d) im musicVol sfxVol)
    as (c' & -> & _ & _ & Hn).
  simpl.
  assert (Hstep : forall id, unit_gain c id -> unit_gain c' id).
  { intros id Hid.
    eapply (unit_gain_schedule (with_nodes (alter _ mu) c) c' s);
      [exact Hn|simpl; lra|].
    eapply (unit_gain_schedule c _ mu); [reflexivity|simpl; lra|exact Hid]. }
  apply engine_ok_intro; now apply Hstep.
Qed.

Lemma toggleMute_ok e : engine_ok e -> engine_ok (final (toggleMute e)).
Proof.
  intros He. engine_cases e He; [|exact constructor_ok].
  destruct (toggleMute_nodes c m (Some mu) (Some s) dO (Some d) im)
    as (c' & -> & _ & _ & Hn).
  simpl.
  assert (Hstep : forall id, unit_gain c id -> unit_gain c' id).
  { intros id Hid.
    apply (unit_gain_schedule c c' m _ id Hn); [|exact Hid].
    destruct (negb im); simpl; lra. }
  apply engine_ok_intro; now apply Hstep.
Qed.

Lemma playClickSound_ok e : engine_ok e -> engine_ok (final (playClickSound e)).
Proof.
  intros He. engine_cases e He; [|exact constructor_ok].
  destruct im.
  - rewrite playClickSound_muted. now apply engine_ok_intro.
  - destruct (playClickSound_nodes c (Some m) (Some mu) s dO (Some d))
      as (c' & -> & _ & _ & Hn).
    simpl. apply engine_ok_intro; now apply (unit_gain_app c c' _ _ Hn).
Qed.

Lemma playHoverSound_ok r e :
  engine_ok e -> engine_ok (final (playHoverSound r e)).
Proof.
  intros He. engine_cases e He; [|exact constructor_ok].
  destruct im.
  - rewrite playHoverSound_muted. now apply engine_ok_intro.
  - destruct (playHoverSound_nodes r c (Some m) (Some mu) s dO (Some d))
      as (c' & -> & _ & _ & Hn).
    simpl. apply engine_ok_intro; now apply (unit_gain_app c c' _ _ Hn).
Qed.

Lemma tick_ok dt e : engine_ok e -> engine_ok (set_ctx (tick dt <$> ctx e) e).
Proof.
  intros He. engine_cases e He; [|exact constructor_ok].
  simpl. apply engine_ok_intro;
    now apply (unit_gain_same_nodes c (tick dt c) _ eq_refl).
Qed.

Lemma exec_ok e call :
  volumes_in_range call -> engine_ok e -> engine_ok (exec e call).
Proof.
  intros Hr He. destruct call as [w| |mv sv| | |r|dt]; simpl.
  - now apply init_ok.
  - now apply startAmbience_ok.
  - destruct Hr. now apply setVolumes_ok.
  - now apply toggleMute_ok.
  - now apply playClickSound_ok.
  - now apply playHoverSound_ok.
  - now apply tick_ok.
Qed.

Lemma run_ok cs e :
  Forall volumes_in_range cs -> engine_ok e -> engine_ok (run cs e).
Proof.
  intros Hcs. revert e. induction Hcs as [|call cs Hc Hcs IH]; intros e He.
  - exact He.
  - simpl. apply IH. now apply exec_ok.
Qed.

Lemma target_curve_bounds (v0 target t0 tc t : R) :
  0 <= v0 <= 1 -> 0 <= target <= 1 -> 0 < tc -> t0 <= t ->
  0 <= target_curve v0 target t0 tc t <= 1.
Proof.
  intros Hv Ht Htc Hle. unfold target_curve.
  set (a := (t - t0) / tc).
  assert (Ha : 0 <= a).
  { unfold a. apply Rmult_le_pos; [lra|]. left. now apply Rinv_0_lt_compat. }
  assert (Hx : 0 < exp (- a) <= 1).
  { split; [apply exp_pos|]. rewrite <- exp_0.
    destruct Ha as [Ha| <-].
    - left. apply exp_increasing. lra.
    - rewrite Ropp_0. lra. }
  nra.
Qed.

Lemma engine_gains_ok e :
  engine_ok e ->
  Forall unit_param (engine_gains e) /\
  (initialized e = true -> length (engine_gains e) = 4%nat).
Proof.
  intros He. engine_cases e He.
  - destruct Hm as (pm & Epm & Hpm), Hmu as (pmu & Epmu & Hpmu),
             Hs as (ps & Eps & Hps), Hd as (pd & Epd & Hpd).
    unfold engine_gains, gain_field; simpl.
    rewrite Epm, Epmu, Eps, Epd; simpl.
    split; [|reflexivity].
    repeat (apply Forall_cons; [assumption|]). apply Forall_nil.
  - split; [apply Forall_nil|discriminate].
Qed.

(** *** Calls never undo the initialisation *)

Lemma exec_keeps_initialized e call :
  initialized e = true -> initialized (exec e call) = true.
Proof.
  intros Hi. destruct e as [oc om omu os dO dG im ini]; simpl in Hi; subst ini.
  destruct call as [w| |mv sv| | |r|dt]; unfold exec.
  - reflexivity.
  - destruct oc as [c|], omu as [mu|]; reflexivity.
  - destruct oc as [c|], omu as [mu|], os as [s|]; reflexivity.
  - destruct oc as [c|], om as [m|]; reflexivity.
  - destruct im, oc as [c|], os as [s|]; reflexivity.
  - destruct im, oc as [c|], os as [s|]; reflexivity.
  - reflexivity.
Qed.

Lemma exec_constructor call :
  exec constructor call = constructor \/
  initialized (exec constructor call) = true.
Proof.
  destruct call as [w| |mv sv| | |r|dt]; try (left; reflexivity).
  destruct (or_else (AudioContext_ w) (webkitAudioContext w)) as [k|] eqn:Hk.
  - right. simpl. now rewrite (init_fresh w k constructor eq_refl Hk).
  - left. destruct w as [[a|] [b|]]; simpl in Hk; try discriminate. reflexivity.
Qed.

Lemma run_constructor_or_initialized cs e :
  e = constructor \/ initialized e = true ->
  run cs e = constructor \/ initialized (run cs e) = true.
Proof.
  revert e. induction cs as [|call cs IH]; intros e He; [exact He|].
  simpl. apply IH. destruct He as [->|Hi].
  - apply exec_constructor.
  - right. now apply exec_keeps_initialized.
Qed.
End EngineFacts.

(** ** Audio engine: operations before and without initialisation *)

Section Uninitialised.
Import WebAudio AudioEngine.

(** C10: while [initialized] is false, [setVolumes], [toggleMute],
    [playClickSound] and [playHoverSound] return at once and leave the
    engine exactly as it was; [toggleMute] returns [false], which is
    the mute flag of every engine that calls on a new engine can
    produce without initialising it. *)
Theorem calls_before_init_change_nothing
    (e : t) (musicVol sfxVol random : R) :
  initialized e = false ->
  setVolumes musicVol sfxVol e = Return tt e /\
  toggleMute e = Return false e /\
  playClickSound e = Return tt e /\
  playHoverSound random e = Return tt e /\
  (forall cs, e = run cs constructor -> isMuted e = false).
Proof.
  intros Hi. destruct e as [oc om omu os dO dG im ini]; simpl in Hi; subst ini.
  repeat (split; [reflexivity|]).
  intros cs Hcs.
  destruct (run_constructor_or_initialized cs constructor (or_introl eq_refl))
    as [H|H]; rewrite <- Hcs in H.
  - now rewrite H.
  - discriminate.
Qed.

(** The four calls on a newly constructed engine. *)
Lemma calls_before_init_change_nothing_witness :
  setVolumes 40 80 constructor = Return tt constructor /\
  toggleMute constructor = Return false constructor /\
  playClickSound constructor = Return tt constructor /\
  playHoverSound 0.5 constructor = Return tt constructor /\
  isMuted constructor = false.
Proof.
  destruct (calls_before_init_change_nothing constructor 40 80 0.5 eq_refl)
    as (H1 & H2 & H3 & H4 & H5).
  repeat (split; [assumption|]).
  apply (H5 []). reflexivity.
Defined.

(** C4, which the code breaks: with neither [AudioContext] nor
    [webkitAudioContext] on the window, [init] throws a [TypeError]
    (and so does [initAudio] of src/index.js), while every other call
    on the engine is a no-op and the later revision of [initAudio]
    returns normally. *)
Theorem init_throws_without_audio_api :
  let w := mkWindow None None in
  init w constructor = Throw TypeError constructor /\
  useSoundEngine.initAudio w None = Throw TypeError None /\
  useSoundEngine.Revised.initAudio w None = Return tt None /\
  startAmbience constructor = Return tt constructor /\
  setVolumes 40 80 constructor = Return tt constructor /\
  toggleMute constructor = Return false constructor /\
  playClickSound constructor = Return tt constructor /\
  playHoverSound 0.5 constructor = Return tt constructor /\
  useSoundEngine.playSound 0.5 useSoundEngine.click None = Return tt None.
Proof. repeat split; reflexivity. Qed.

End Uninitialised.

Section Initialisation.
Import WebAudio AudioEngine.

Lemma initAudio_creates_once w c :
  useSoundEngine.initAudio w (Some c)
    = Return tt (Some (match state c with suspended => resume c | _ => c end)).
Proof. destruct c as [[] t0 ns ws]; reflexivity. Qed.

Lemma initAudio_first w k :
  or_else (AudioContext_ w) (webkitAudioContext w) = Some k ->
  useSoundEngine.initAudio w None = Return tt (Some (resume (construct k))).
Proof.
  intros Hk. unfold useSoundEngine.initAudio.
  destruct w as [[a|] [b|]]; simpl in Hk; try discriminate;
    injection Hk as ->; destruct k as [[] t0]; reflexivity.
Qed.

(** C7, which [AudioEngine.init] breaks: on a platform whose contexts start
    suspended, the first [init] leaves the context suspended, and a
    second [init] changes nothing, so the context is still suspended;
    [initAudio] of the hook, called on the same suspended context,
    resumes it. *)
Theorem init_leaves_context_suspended :
  let k := mkConstructor suspended 0 in
  let w := mkWindow (Some k) None in
  let e1 := final (init w constructor) in
  initialized e1 = true /\
  state <$> ctx e1 = Some suspended /\
  init w e1 = Return tt e1 /\
  state <$> ctx (final (init w e1)) = Some suspended /\
  state <$> final (useSoundEngine.initAudio w (Some (construct k))) = Some running.
Proof.
  intros k w e1.
  assert (He1 : e1 = final (init w constructor)) by reflexivity.
  rewrite (init_fresh w k constructor eq_refl eq_refl) in He1.
  cbn [final] in He1. clearbody e1. subst e1.
  rewrite init_initialized by reflexivity.
  repeat split; reflexivity.
Qed.

End Initialisation.

Section GainBounds.
Import WebAudio AudioEngine.

Lemma unit_event_curve ev :
  unit_event ev ->
  exists target t0 tc,
    ev = SetTargetAtTime target t0 tc /\ 0 <= target <= 1 /\
    forall v0 t, 0 <= v0 <= 1 -> t0 <= t ->
                 0 <= target_curve v0 target t0 tc t <= 1.
Proof.
  destruct ev as [| | |target t0 tc]; simpl; try contradiction.
  intros [Ht Htc]. exists target, t0, tc. split; [reflexivity|].
  split; [exact Ht|]. intros v0 t Hv Hle. now apply target_curve_bounds.
Qed.

(** C6, as stated, fails: [setVolumes(150, 80)] on an initialised
    engine schedules the music bus gain, which holds 1, toward the
    target 1.5, and one second later the gain is above 1. *)
Lemma unclamped_volume_counterexample :
  let w := mkWindow (Some (mkConstructor running 0)) None in
  let e := run [Init w; SetVolumes 150 80] constructor in
  gain_field musicGain e
    = Some (mkParam 1 [SetTargetAtTime (150 / 100) 0 0.1]) /\
  1 < 150 / 100 /\
  1 < target_curve 1 (150 / 100) 0 0.1 1.
Proof.
  intros w e. split; [|split].
  - unfold e, run. cbn [fold_left]. unfold exec at 2.
    rewrite (init_fresh w (mkConstructor running 0) constructor eq_refl eq_refl).
    reflexivity.
  - lra.
  - unfold target_curve.
    assert (H : exp (- ((1 - 0) / 0.1)) < exp 0).
    { apply exp_increasing. lra. }
    rewrite exp_0 in H. lra.
Qed.

(** C6 (amended): after any sequence of calls ([init], [startAmbience],
    [setVolumes], [toggleMute], [playClickSound], [playHoverSound],
    with audio time passing in between) in which every [setVolumes]
    argument is within 0 to 100, each of the four gains of the engine
    (master, music bus, sfx bus, drone; all four exist once the engine
    is initialised) holds a value in [0, 1], and every automation event
    scheduled on it is an exponential approach to a target in [0, 1],
    along which a gain that starts in [0, 1] stays in [0, 1]. *)
Theorem gains_stay_within_unit_interval (cs : list Call) :
  Forall volumes_in_range cs ->
  let e := run cs constructor in
  (initialized e = true -> length (engine_gains e) = 4%nat) /\
  Forall (fun p =>
            0 <= value p <= 1 /\
            Forall (fun ev =>
                      exists target t0 tc,
                        ev = SetTargetAtTime target t0 tc /\
                        0 <= target <= 1 /\
                        forall v0 t, 0 <= v0 <= 1 -> t0 <= t ->
                          0 <= target_curve v0 target t0 tc t <= 1)
                   (events p))
         (engine_gains e).
Proof.
  intros Hcs e.
  destruct (engine_gains_ok e (run_ok cs constructor Hcs constructor_ok))
    as [Hunit Hlen].
  split; [exact Hlen|].
  eapply Forall_impl; [|exact Hunit].
  intros p [Hv Hev]. split; [exact Hv|].
  eapply Forall_impl; [|exact Hev]. apply unit_event_curve.
Qed.

(** A session with volumes 40 and 80, two mute toggles and both sounds. *)
Lemma gains_stay_within_unit_interval_witness :
  let w := mkWindow None (Some (mkConstructor running 0)) in
  let e := run [Init w; SetVolumes 40 80; ToggleMute; PlayClickSound;
                Tick 1; ToggleMute; PlayHoverSound 0.5; StartAmbience]
               constructor in
  Forall (fun p => 0 <= value p <= 1) (engine_gains e).
Proof.
  intros w e.
  assert (Hcs : Forall volumes_in_range
                  [Init w; SetVolumes 40 80; ToggleMute; PlayClickSound;
                   Tick 1; ToggleMute; PlayHoverSound 0.5; StartAmbience]).
  { repeat constructor; simpl; lra. }
  destruct (gains_stay_within_unit_interval _ Hcs) as [_ H].
  eapply Forall_impl; [|exact H]. intros p Hp. apply Hp.
Defined.

End GainBounds.

Section ClickSound.
Import WebAudio AudioEngine.

(** C8, as stated, fails for [playClickSound]: the oscillator it
    creates on a newly initialised engine is a sawtooth whose frequency
    falls from 1200 to 100 and which stops 150 ms after its start. *)
Lemma click_sound_counterexample :
  let w := mkWindow (Some (mkConstructor running 0)) None in
  let e := final (init w constructor) in
  exists c c' osc g,
    ctx e = Some c /\
    ctx (final (playClickSound e)) = Some c' /\
    new_nodes c c' = [osc; g] /\
    osc = OscillatorNode sawtooth
            (mkParam 440 [SetValueAtTime 1200 0;
                          ExponentialRampToValueAtTime 100 (0 + 0.1)])
            (Some 0) (Some (0 + 0.15)) /\
    ~ click_as_specified osc.
Proof.
  intros w e.
  assert (He : e = final (init w constructor)) by reflexivity.
  rewrite (init_fresh w (mkConstructor running 0) constructor eq_refl eq_refl)
    in He.
  cbn [final] in He. clearbody e. subst e.
  eexists _, _, _, _. split; [reflexivity|].
  split; [reflexivity|]. split; [reflexivity|]. split; [reflexivity|].
  simpl. intros (Hty & _). discriminate.
Qed.

Lemma new_nodes_app c c' l : nodes c' = nodes c ++ l -> new_nodes c c' = l.
Proof. intros H. unfold new_nodes. rewrite H. apply drop_app_length. Qed.

Lemma play_on_click_nodes volume c :
  nodes (useSoundEngine.play_on volume useSoundEngine.click c) = nodes c ++
    [OscillatorNode square
       (mkParam 440 [SetValueAtTime 800 (currentTime c);
                     ExponentialRampToValueAtTime 1200 (currentTime c + 0.05)])
       (Some (currentTime c)) (Some (currentTime c + 0.05));
     GainNode
       (mkParam 1 [SetValueAtTime (volume * 0.5) (currentTime c);
                   ExponentialRampToValueAtTime 0.01 (currentTime c + 0.05)])].
Proof.
  destruct c as [st t0 ns ws].
  lazy beta iota zeta delta
    [useSoundEngine.play_on createGain createOscillator connect schedule
     set_osc_type start stop with_nodes state currentTime nodes wires fst snd].
  repeat first
    [ rewrite <- app_assoc
    | rewrite length_app
    | rewrite alter_past
    | rewrite alter_app_r
    | progress cbn [app length alter list_alter on_param value events Nat.add] ].
  reflexivity.
Qed.

(** C8 (amended): the click has two syntheses. [playSound('click')] of
    the hook creates a square-wave oscillator whose frequency rises
    from 800 to 1200 and which stops 50 ms after its start.
    [playClickSound] of the engine (initialised, not muted) creates a
    sawtooth oscillator whose frequency falls from 1200 to 100 and
    which stops 150 ms after its start. *)
Theorem click_sound_syntheses :
  (forall volume c,
      let t := currentTime c in
      useSoundEngine.playSound volume useSoundEngine.click (Some c)
        = Return tt (Some (useSoundEngine.play_on volume useSoundEngine.click c)) /\
      exists osc g,
        new_nodes c (useSoundEngine.play_on volume useSoundEngine.click c) = [osc; g] /\
        osc = OscillatorNode square
                (mkParam 440 [SetValueAtTime 800 t;
                              ExponentialRampToValueAtTime 1200 (t + 0.05)])
                (Some t) (Some (t + 0.05)) /\
        click_as_specified osc) /\
  (forall e c s,
      let t := currentTime c in
      initialized e = true -> isMuted e = false ->
      ctx e = Some c -> sfxGain e = Some s ->
      exists c' osc g,
        playClickSound e = Return tt (set_ctx (Some c') e) /\
        new_nodes c c' = [osc; g] /\
        osc = OscillatorNode sawtooth
                (mkParam 440 [SetValueAtTime 1200 t;
                              ExponentialRampToValueAtTime 100 (t + 0.1)])
                (Some t) (Some (t + 0.15))).
Proof.
  split.
  - intros volume c t. split; [reflexivity|].
    eexists _, _. split; [|split; [reflexivity|]].
    + apply new_nodes_app. apply play_on_click_nodes.
    + simpl. split; [reflexivity|]. split; [|fold t; lra].
      exists 800, 1200. split; [reflexivity|lra].
  - intros e c s t Hi Hm Hc Hs.
    destruct e as [oc om omu os dO dG im ini]; simpl in *; subst.
    destruct (playClickSound_nodes c om omu s dO dG) as (c' & Hcall & _ & _ & Hn).
    eexists c', _, _. split; [exact Hcall|]. split; [|reflexivity].
    apply new_nodes_app. exact Hn.
Qed.

(** [playClickSound] on a newly initialised engine. *)
Lemma click_sound_syntheses_witness :
  let w := mkWindow (Some (mkConstructor running 0)) None in
  let e := final (init w constructor) in
  exists c c' osc g,
    ctx e = Some c /\
    playClickSound e = Return tt (set_ctx (Some c') e) /\
    new_nodes c c' = [osc; g] /\
    osc = OscillatorNode sawtooth
            (mkParam 440 [SetValueAtTime 1200 (currentTime c);
                          ExponentialRampToValueAtTime 100 (currentTime c + 0.1)])
            (Some (currentTime c)) (Some (currentTime c + 0.15)).
Proof.
  intros w e.
  assert (He : e = final (init w constructor)) by reflexivity.
  rewrite (init_fresh w (mkConstructor running 0) constructor eq_refl eq_refl)
    in He.
  cbn [final] in He. clearbody e. subst e.
  eexists. 
  match goal with |- exists c' osc g, ctx ?e = Some ?c /\ _ =>
    destruct (proj2 click_sound_syntheses e c 2%nat eq_refl eq_refl eq_refl eq_refl)
      as (c' & osc & g & H1 & H2 & H3)
  end.
  exists c', osc, g. split; [reflexivity|]. split; [exact H1|].
  split; [exact H2|exact H3].
Defined.

End ClickSound.

(** ** Particle field: construction and traces *)

Section Construction.
Import ParticleField.

Implicit Types (c : Canvas) (r : Rand) (p : Particle).

Lemma drop_draws_unit n r : unit_draws r -> unit_draws (drop_draws n r).
Proof. intros H i. apply H. Qed.

Lemma reset_scattered c r :
  unit_draws r -> 0 < width c -> 0 < height c -> scattered c (reset c false r).
Proof.
  intros Hr Hw Hh. unfold scattered, in_half_open, reset; simpl.
  pose proof (Hr 0%nat). pose proof (Hr 1%nat). pose proof (Hr 2%nat).
  pose proof (Hr 3%nat). pose proof (Hr 4%nat). pose proof (Hr 5%nat).
  repeat split; nra.
Qed.

Lemma reset_launched c r : unit_draws r -> launched c (reset c true r).
Proof.
  intros Hr. unfold launched, reset; simpl.
  pose proof (Hr 1%nat). pose proof (Hr 2%nat). pose proof (Hr 3%nat).
  split; [reflexivity|]. split; [reflexivity|].
  assert (Hs : speed (mkParticle (width c / 2) (height c / 2)
                 (cos (r 0%nat * PI * 2) * (r 1%nat * 15 + 5))
                 (sin (r 0%nat * PI * 2) * (r 1%nat * 15 + 5))
                 (r 2%nat * 2 + 0.5) (r 3%nat * 0.5 + 0.1))
               = r 1%nat * 15 + 5).
  { unfold speed; simpl. apply sqrt_of_square; [lra|].
    pose proof (sin2_cos2 (r 0%nat * PI * 2)) as Hsc. unfold Rsqr in Hsc.
    set (a := r 0%nat * PI * 2) in *. set (s := r 1%nat * 15 + 5).
    replace (cos a * s * (cos a * s) + sin a * s * (sin a * s))
      with ((sin a * sin a + cos a * cos a) * (s * s)) by ring.
    rewrite Hsc. ring. }
  rewrite Hs. repeat split; lra.
Qed.


Lemma push_new_keeps n c b r ps :
  exists added, (push_new n c b r ps).1 = ps ++ added /\ length added = n.
Proof.
  revert r ps. induction n as [|n IH]; intros r ps; simpl.
  - exists []. split; [now rewrite app_nil_r|reflexivity].
  - destruct (IH (drop_draws (draws b) r) (ps ++ [reset c b r]))
      as (added & -> & Hlen).
    exists (reset c b r :: added). split; [now rewrite <- app_assoc|].
    simpl. now rewrite Hlen.
Qed.

Lemma push_new_added (Q : Particle -> Prop) n c b r ps :
  (forall r', unit_draws r' -> Q (reset c b r')) -> unit_draws r ->
  exists added,
    (push_new n c b r ps).1 = ps ++ added /\ length added = n /\
    Forall Q added /\ unit_draws (push_new n c b r ps).2.
Proof.
  intros HQ. revert r ps. induction n as [|n IH]; intros r ps Hr; simpl.
  - exists []. rewrite app_nil_r.
    split; [reflexivity|]. split; [reflexivity|]. split; [constructor|exact Hr].
  - destruct (IH (drop_draws (draws b) r) (ps ++ [reset c b r]))
      as (added & Hadd & Hlen & HQa & Hr'); [now apply drop_draws_unit|].
    exists (reset c b r :: added). rewrite Hadd, <- app_assoc. simpl.
    split; [reflexivity|]. split; [now rewrite Hlen|]. split; [|exact Hr'].
    constructor; [now apply HQ|exact HQa].
Qed.

End Construction.

Section FieldTraces.
Import ParticleField.

Implicit Types (c : Canvas) (r : Rand) (p : Particle) (f : Field) (v : Viewport).

Lemma scattered_in_bounds c p : scattered c p -> in_bounds c p.
Proof. intros ((Hx & Hy) & _). unfold in_bounds. lra. Qed.

Lemma launched_in_bounds c p :
  0 <= width c -> 0 <= height c -> launched c p -> in_bounds c p.
Proof. intros Hw Hh (Hx & Hy & _). unfold in_bounds. rewrite Hx, Hy. lra. Qed.

Lemma effect_fields v b f :
  canvas (effect v b f) = mkCanvas (INR (innerWidth v)) (INR (innerHeight v)) /\
  mouse (effect v b f) = mouse f /\ now (effect v b f) = now f.
Proof.
  rewrite effect_particles_pending. cbv zeta. destruct b; repeat split.
Qed.





Lemma on_canvas_effect v b f :
  (0 < innerWidth v)%nat -> (0 < innerHeight v)%nat ->
  unit_draws (rnd f) ->
  Forall (in_bounds (mkCanvas (INR (innerWidth v)) (INR (innerHeight v))))
         (particles f) ->
  unit_draws (rnd (effect v b f)) /\
  Forall (in_bounds (canvas (effect v b f))) (particles (effect v b f)).
Proof.
  intros Hw Hh Hr Hps.
  destruct (effect_fields v b f) as (Hc & _). rewrite Hc.
  set (C := mkCanvas (INR (innerWidth v)) (INR (innerHeight v))) in *.
  assert (HC : canvas (resize v f) = C) by reflexivity.
  assert (HwC : 0 < width C) by (simpl; now apply lt_0_INR).
  assert (HhC : 0 < height C) by (simpl; now apply lt_0_INR).
  rewrite effect_particles_pending. cbv zeta. rewrite HC.
  set (ps1 := if (length (particles f) =? 0)%nat
              then push_new (count_for v) C false (rnd f) (particles f)
              else (particles f, rnd f)).
  assert (H1 : unit_draws ps1.2 /\ Forall (in_bounds C) ps1.1).
  { unfold ps1. destruct (length (particles f) =? 0)%nat.
    - destruct (push_new_added (in_bounds C) (count_for v) C false (rnd f)
                  (particles f))
        as (added & Hadd & Hlen & HQ & Hr');
        [intros r' Hr'; now apply scattered_in_bounds, reset_scattered|exact Hr|].
      rewrite Hadd. split; [exact Hr'|]. apply Forall_app. now split.
    - now split. }
  destruct H1 as (Hr1 & Hin1).
  destruct b; cbn [rnd particles].
  - destruct (push_new_added (in_bounds C) 50 C true ps1.2 ps1.1)
      as (added & Hadd & Hlen & HQ & Hr');
      [intros r' Hr'; apply launched_in_bounds; [lra|lra|now apply reset_launched]
      |exact Hr1|].
    rewrite Hadd. split; [exact Hr'|]. apply Forall_app. now split.
  - now split.
Qed.

Lemma frame_in_bounds f :
  0 <= width (canvas f) -> 0 <= height (canvas f) ->
  Forall (in_bounds (canvas (frame f))) (particles (frame f)).
Proof.
  intros Hw Hh. unfold frame, step; simpl. apply Forall_map.
  apply Forall_forall. intros p _. now apply update_in_bounds.
Qed.

Lemma fire_all_sublist (Q : Particle -> Prop) tms ps :
  Forall Q ps -> Forall Q (fold_left fire tms ps).
Proof.
  revert ps. induction tms as [|tm tms IH]; intros ps Hps; simpl; [exact Hps|].
  apply IH. unfold fire, splice. now apply Forall_take.
Qed.

Lemma handle_on_canvas v g ev :
  (0 < innerWidth v)%nat -> (0 < innerHeight v)%nat ->
  same_viewport v [ev] ->
  let C := mkCanvas (INR (innerWidth v)) (INR (innerHeight v)) in
  unit_draws (rnd g) /\ canvas g = C /\ Forall (in_bounds C) (particles g) ->
  unit_draws (rnd (handle g ev)) /\ canvas (handle g ev) = C /\
  Forall (in_bounds C) (particles (handle g ev)).
Proof.
  intros Hw Hh Hev C (Hrg & Hcg & Hin). apply Forall_inv in Hev.
  assert (HwC : 0 <= width C) by (simpl; apply pos_INR).
  assert (HhC : 0 <= height C) by (simpl; apply pos_INR).
  destruct ev as [v' b'|v'|px py| | |dt]; simpl.
  - subst v'. destruct (on_canvas_effect v b' g Hw Hh Hrg Hin) as (H1 & H2).
    destruct (effect_fields v b' g) as (Hc & _).
    rewrite Hc in *. split; [exact H1|]. split; [reflexivity|exact H2].
  - subst v'. split; [exact Hrg|]. split; [reflexivity|exact Hin].
  - split; [exact Hrg|]. split; [exact Hcg|exact Hin].
  - split; [exact Hrg|]. split; [exact Hcg|exact Hin].
  - split; [exact Hrg|]. split; [exact Hcg|].
    unfold step. apply Forall_map. apply Forall_forall. intros p _.
    rewrite Hcg. now apply update_in_bounds.
  - split; [exact Hrg|]. split; [exact Hcg|]. now apply fire_all_sublist.
Qed.

(** X3: while the window keeps its size, every particle is on the
    canvas, borders included, after every event: effect runs with or
    without burst, resize events, pointer moves and releases, frames
    and the firing of burst timeouts. *)
Theorem particles_stay_on_canvas c0 r v b evs :
  unit_draws r -> (0 < innerWidth v)%nat -> (0 < innerHeight v)%nat ->
  same_viewport v evs ->
  let f := play evs (effect v b (mount c0 r)) in
  canvas f = mkCanvas (INR (innerWidth v)) (INR (innerHeight v)) /\
  Forall (in_bounds (canvas f)) (particles f).
Proof.
  intros Hr Hw Hh Hevs f.
  set (C := mkCanvas (INR (innerWidth v)) (INR (innerHeight v))).
  assert (H0 : unit_draws (rnd (effect v b (mount c0 r))) /\
               canvas (effect v b (mount c0 r)) = C /\
               Forall (in_bounds C) (particles (effect v b (mount c0 r)))).
  { destruct (on_canvas_effect v b (mount c0 r) Hw Hh Hr) as (H1 & H2);
      [constructor|].
    destruct (effect_fields v b (mount c0 r)) as (Hc & _).
    rewrite Hc in H2. split; [exact H1|]. split; [exact Hc|exact H2]. }
  assert (H : unit_draws (rnd f) /\ canvas f = C /\
              Forall (in_bounds C) (particles f)).
  { unfold f. revert H0. generalize (effect v b (mount c0 r)).
    induction Hevs as [|ev evs Hev Hevs IH]; intros g Hg; [exact Hg|].
    simpl. apply IH. apply (handle_on_canvas v g ev Hw Hh); [|exact Hg].
    constructor; [exact Hev|constructor]. }
  destruct H as (_ & Hc & Hin). rewrite Hc. now split.
Qed.

Lemma particles_stay_on_canvas_witness :
  let v := mkViewport 1024 768 in
  let f := play [PointerMove 10 10; Frame; Effect v true; Frame; Wait 2000;
                 PointerEnd; Frame]
                (effect v false (mount (mkCanvas 0 0) (fun _ => 0.5))) in
  Forall (in_bounds (canvas f)) (particles f).
Proof.
  intros v f.
  apply (particles_stay_on_canvas (mkCanvas 0 0) (fun _ => 0.5) v false).
  - intros i. lra.
  - simpl. lia.
  - simpl. lia.
  - repeat constructor.
Defined.

(** The canvas never has a negative size once an effect has run. *)
Lemma handle_canvas_nonneg g ev :
  0 <= width (canvas g) /\ 0 <= height (canvas g) ->
  0 <= width (canvas (handle g ev)) /\ 0 <= height (canvas (handle g ev)).
Proof.
  intros Hg. destruct ev as [v' b'|v'|px py| | |dt]; simpl; try exact Hg.
  - destruct (effect_fields v' b' g) as (-> & _). simpl. split; apply pos_INR.
  - split; apply pos_INR.
Qed.

Lemma play_canvas_nonneg evs g :
  0 <= width (canvas g) /\ 0 <= height (canvas g) ->
  0 <= width (canvas (play evs g)) /\ 0 <= height (canvas (play evs g)).
Proof.
  revert g. induction evs as [|ev evs IH]; intros g Hg; [exact Hg|].
  simpl. apply IH. now apply handle_canvas_nonneg.
Qed.

Lemma play_snoc evs ev g : play (evs ++ [ev]) g = handle (play evs g) ev.
Proof. unfold play. now rewrite fold_left_app. Qed.

(** X4: whatever happened before, also resizes that left particles
    outside a smaller canvas, one animation frame puts every particle
    back within the canvas, borders included. *)
Theorem frame_returns_particles_to_canvas c0 r v b evs :
  let f := play (evs ++ [Frame]) (effect v b (mount c0 r)) in
  Forall (in_bounds (canvas f)) (particles f).
Proof.
  intros f. unfold f. rewrite play_snoc. simpl.
  apply frame_in_bounds; apply play_canvas_nonneg;
    destruct (effect_fields v b (mount c0 r)) as (-> & _); simpl;
    split; apply pos_INR.
Qed.

Lemma frames_iterate k g :
  canvas (play (replicate k Frame) g) = canvas g /\
  mouse (play (replicate k Frame) g) = mouse g /\
  particles (play (replicate k Frame) g)
    = map (Nat.iter k (update (canvas g) (mouse g))) (particles g).
Proof.
  induction k as [|k IH].
  - simpl. now rewrite map_id.
  - replace (replicate (S k) Frame) with (replicate k Frame ++ [Frame])
      by (now rewrite <- replicate_S_end).
    rewrite play_snoc. destruct IH as (Hc & Hm & Hp). simpl.
    rewrite Hc, Hm, Hp. unfold step. now rewrite map_map.
Qed.

Lemma coast_velocity c m p k :
  active m = false ->
  vx (Nat.iter k (update c m) p) = vx p * 0.96 ^ k /\
  vy (Nat.iter k (update c m) p) = vy p * 0.96 ^ k.
Proof.
  intros Ha. induction k as [|k [IHx IHy]]; simpl; [lra|].
  destruct (update_damps_only c m (Nat.iter k (update c m) p)) as [-> ->];
    [now left|].
  rewrite IHx, IHy. lra.
Qed.

(** X5: once the pointer is released, [k] frames multiply each
    velocity component of every particle by [0.96 ^ k], and so its
    speed: without a pointer the particles only slow down, and none is
    added, removed or reordered. *)
Theorem released_pointer_lets_particles_coast f k :
  let f' := play (PointerEnd :: replicate k Frame) f in
  map vx (particles f') = map (fun p => vx p * 0.96 ^ k) (particles f) /\
  map vy (particles f') = map (fun p => vy p * 0.96 ^ k) (particles f) /\
  map speed (particles f') = map (fun p => 0.96 ^ k * speed p) (particles f).
Proof.
  intros f'. unfold f'.
  change (play (PointerEnd :: replicate k Frame) f)
    with (play (replicate k Frame) (endHandler f)).
  destruct (frames_iterate k (endHandler f)) as (_ & _ & ->).
  change (particles (endHandler f)) with (particles f).
  rewrite !map_map.
  assert (H : forall p,
             vx (Nat.iter k (update (canvas (endHandler f)) (mouse (endHandler f))) p)
               = vx p * 0.96 ^ k /\
             vy (Nat.iter k (update (canvas (endHandler f)) (mouse (endHandler f))) p)
               = vy p * 0.96 ^ k).
  { intros p. now apply coast_velocity. }
  split; [|split]; apply map_ext; intros p; destruct (H p) as [Hx Hy];
    [exact Hx|exact Hy|].
  apply speed_scaled; [|exact Hx|exact Hy].
  apply pow_le. lra.
Qed.

End FieldTraces.

(** ** Loading screens *)

(** An interval callback that stops at the first run that finds the
    progress at 100 or more, and otherwise advances it by [lo] to [hi]
    (or up to 100). *)
Section IntervalProgress.

Context {S D : Type}.
Variables (progress : S -> Z) (interval : S -> bool) (completions : S -> nat).
Variable tick : D -> S -> S.
Variable valid : D -> Prop.
Variables lo hi : Z.

Hypothesis lo_pos : (0 < lo <= hi)%Z.
Hypothesis tick_stopped : forall d s, interval s = false -> tick d s = s.
Hypothesis tick_stops :
  forall d s, interval s = true -> (100 <= progress s)%Z ->
    interval (tick d s) = false /\ progress (tick d s) = 100%Z /\
    completions (tick d s) = Datatypes.S (completions s).
Hypothesis tick_advances :
  forall d s, valid d -> interval s = true -> (progress s < 100)%Z ->
    interval (tick d s) = true /\ completions (tick d s) = completions s /\
    (Z.min (progress s + lo) 100 <= progress (tick d s) <= progress s + hi)%Z.

Let run (ds : list D) (s : S) : S := fold_left (fun s d => tick d s) ds s.

Lemma run_stopped ds s : interval s = false -> run ds s = s.
Proof.
  intros Hs. induction ds as [|d ds IH]; [reflexivity|].
  simpl. rewrite tick_stopped by exact Hs. exact IH.
Qed.

Lemma run_progress ds s :
  Forall valid ds -> interval s = true -> (0 <= progress s)%Z ->
  let n := Z.of_nat (length ds) in
  let s' := run ds s in
  (interval s' = true /\ completions s' = completions s /\
   (progress s <= progress s')%Z /\
   (ds <> [] -> progress s + lo * (n - 1) < 100)%Z /\
   (progress s' <= progress s + hi * n)%Z) \/
  (interval s' = false /\ completions s' = Datatypes.S (completions s) /\
   progress s' = 100%Z /\ (100 <= progress s + hi * (n - 1))%Z).
Proof.
  intros Hds. revert s. induction Hds as [|d ds Hd Hds IH]; intros s Hi Hp.
  - left. simpl. split; [exact Hi|]. split; [reflexivity|]. split; [lia|].
    split; [|lia]. intros H. now contradiction H.
  - cbv zeta. change (run (d :: ds) s) with (run ds (tick d s)).
    rewrite length_cons, Nat2Z.inj_succ.
    destruct (Z_lt_le_dec (progress s) 100) as [Hlt|Hge].
    + destruct (tick_advances d s Hd Hi Hlt) as (Hi1 & Hc1 & Hlo1 & Hhi1).
      destruct (IH (tick d s) Hi1 ltac:(lia)) as [(A & B & C & E & F)|(A & B & C & E)].
      * left. split; [exact A|]. split; [congruence|]. split; [lia|].
        split; [|nia].
        intros _. destruct ds as [|d' ds']; [simpl; lia|].
        specialize (E ltac:(discriminate)). rewrite length_cons, Nat2Z.inj_succ in *.
        nia.
      * right. split; [exact A|]. split; [congruence|]. split; [exact C|]. nia.
    + destruct (tick_stops d s Hi Hge) as (Hi1 & Hp1 & Hc1).
      right. rewrite (run_stopped ds _ Hi1). repeat split; try assumption. nia.
Qed.

End IntervalProgress.

Lemma Zgeb_true (a b : Z) : (b <= a)%Z -> (a >=? b)%Z = true.
Proof. intros H. rewrite Z.geb_leb. now apply Z.leb_le. Qed.

Lemma Zgeb_false (a b : Z) : (a < b)%Z -> (a >=? b)%Z = false.
Proof. intros H. rewrite Z.geb_leb. now apply Z.leb_gt. Qed.

Section LoadingScreens.
Import WebAudio.

Lemma revised_initAudio_returns w :
  exists ref, useSoundEngine.Revised.initAudio w None = Return tt ref.
Proof.
  destruct w as [[[[] t1]|] [[[] t2]|]]; eexists; reflexivity.
Qed.

Lemma loading_tick_stopped d s :
  LoadingScreen.interval s = false -> LoadingScreen.tick d.1 d.2 s = s.
Proof. intros H. unfold LoadingScreen.tick. now rewrite H. Qed.

Lemma loading_tick_stops d s :
  LoadingScreen.interval s = true -> (100 <= LoadingScreen.progress s)%Z ->
  LoadingScreen.interval (LoadingScreen.tick d.1 d.2 s) = false /\
  LoadingScreen.progress (LoadingScreen.tick d.1 d.2 s) = 100%Z /\
  LoadingScreen.completions (LoadingScreen.tick d.1 d.2 s)
    = S (LoadingScreen.completions s).
Proof.
  intros Hi Hp. unfold LoadingScreen.tick. rewrite Hi.
  replace (LoadingScreen.progress s >=? 100)%Z with true
    by (symmetry; apply Zgeb_true; lia).
  now repeat split.
Qed.

Lemma loading_tick_advances d s :
  True -> LoadingScreen.interval s = true -> (LoadingScreen.progress s < 100)%Z ->
  LoadingScreen.interval (LoadingScreen.tick d.1 d.2 s) = true /\
  LoadingScreen.completions (LoadingScreen.tick d.1 d.2 s)
    = LoadingScreen.completions s /\
  (Z.min (LoadingScreen.progress s + 2) 100
     <= LoadingScreen.progress (LoadingScreen.tick d.1 d.2 s)
     <= LoadingScreen.progress s + 15)%Z.
Proof.
  intros _ Hi Hp. unfold LoadingScreen.tick. rewrite Hi.
  replace (LoadingScreen.progress s >=? 100)%Z with false
    by (symmetry; apply Zgeb_false; lia).
  simpl. split; [reflexivity|]. split; [reflexivity|].
  destruct (Rgtb d.1 0.8); lia.
Qed.

Lemma loading_tick_bounds d s :
  (0 <= LoadingScreen.progress s <= 100)%Z ->
  (LoadingScreen.progress s <= LoadingScreen.progress (LoadingScreen.tick d.1 d.2 s)
     <= 100)%Z.
Proof.
  intros Hp. unfold LoadingScreen.tick.
  destruct (LoadingScreen.interval s); [|lia].
  destruct (LoadingScreen.progress s >=? 100)%Z eqn:Hge; simpl.
  - lia.
  - destruct (Rgtb d.1 0.8); lia.
Qed.

(** X6: in the loading screen of the hook-based app the progress is
    within 0 to 100 after any number of interval ticks, and a further
    tick never lowers it; this holds for either version of
    [initAudio], on any window and for all draws. *)
Theorem loading_progress_is_monotone_and_bounded
    (initAudio : Window -> Method useSoundEngine.Ref unit) (w : Window)
    (draws : list (R * R)) (d : R * R) :
  let s := LoadingScreen.ticks draws (LoadingScreen.start initAudio w) in
  (0 <= LoadingScreen.progress s <= 100)%Z /\
  (LoadingScreen.progress s
     <= LoadingScreen.progress (LoadingScreen.tick d.1 d.2 s) <= 100)%Z.
Proof.
  intros s.
  assert (Hs : (0 <= LoadingScreen.progress s <= 100)%Z).
  { unfold s, LoadingScreen.ticks.
    assert (H0 : (0 <= LoadingScreen.progress (LoadingScreen.start initAudio w)
                    <= 100)%Z).
    { unfold LoadingScreen.start. destruct (initAudio w None); simpl; lia. }
    revert H0. generalize (LoadingScreen.start initAudio w).
    induction draws as [|d0 ds IH]; intros s0 H0; [exact H0|].
    simpl. apply IH. pose proof (loading_tick_bounds d0 s0 H0). lia. }
  split; [exact Hs|]. now apply loading_tick_bounds.
Qed.

Lemma loading_run
    (initAudio : Window -> Method useSoundEngine.Ref unit) (w : Window)
    (draws : list (R * R)) :
  (exists ref, initAudio w None = Return tt ref) ->
  let s := LoadingScreen.ticks draws (LoadingScreen.start initAudio w) in
  (LoadingScreen.completions s <= 1)%nat /\
  (LoadingScreen.completions s = 1%nat <-> LoadingScreen.interval s = false) /\
  ((51 <= length draws)%nat ->
     LoadingScreen.completions s = 1%nat /\ LoadingScreen.progress s = 100%Z) /\
  ((length draws <= 7)%nat -> LoadingScreen.completions s = 0%nat).
Proof.
  intros (ref & Href) s.
  assert (Hstart : LoadingScreen.start initAudio w = LoadingScreen.mk 0 true 0 ref).
  { unfold LoadingScreen.start. now rewrite Href. }
  pose proof (run_progress LoadingScreen.progress LoadingScreen.interval
                LoadingScreen.completions (fun d s => LoadingScreen.tick d.1 d.2 s)
                (fun _ => True) 2 15 ltac:(lia)
                loading_tick_stopped loading_tick_stops loading_tick_advances
                draws (LoadingScreen.start initAudio w)) as H.
  rewrite Hstart in H. unfold s, LoadingScreen.ticks. rewrite Hstart.
  cbv zeta in H. simpl LoadingScreen.progress in H at 1.
  destruct H as [(A & B & C & E & F)|(A & B & C & E)];
    [apply Forall_forall; auto|reflexivity|simpl; lia| |].
  - simpl in B, E, F. rewrite A, B. split; [lia|]. split; [split; discriminate|].
    split; [|reflexivity].
    intros Hn. exfalso.
    assert (Hne : draws <> []) by (intros ->; simpl in Hn; lia).
    specialize (E Hne). lia.
  - simpl in B, E. rewrite A, B. split; [lia|]. split; [now split|].
    split; [now split|]. intros Hn. exfalso. lia.
Qed.

(** X7: with the guarded [initAudio], one run of the effect of the
    loading screen calls [onComplete] at most once, and has called it
    exactly when the interval is cleared. After 51 ticks it has been
    called and the progress is 100, whatever the draws; within the
    first 7 ticks it has not. *)
Theorem loading_completes_exactly_once (w : Window) (draws : list (R * R)) :
  let s := LoadingScreen.ticks draws
             (LoadingScreen.start useSoundEngine.Revised.initAudio w) in
  (LoadingScreen.completions s <= 1)%nat /\
  (LoadingScreen.completions s = 1%nat <-> LoadingScreen.interval s = false) /\
  ((51 <= length draws)%nat ->
     LoadingScreen.completions s = 1%nat /\ LoadingScreen.progress s = 100%Z) /\
  ((length draws <= 7)%nat -> LoadingScreen.completions s = 0%nat).
Proof. apply loading_run. apply revised_initAudio_returns. Qed.

Lemma loading_completes_exactly_once_witness :
  let s := LoadingScreen.ticks (replicate 51 (0.9, 0.1))
             (LoadingScreen.start useSoundEngine.Revised.initAudio
                (mkWindow None None)) in
  LoadingScreen.completions s = 1%nat /\ LoadingScreen.progress s = 100%Z.
Proof.
  intros s.
  apply (loading_completes_exactly_once (mkWindow None None)
           (replicate 51 (0.9, 0.1))).
  rewrite length_replicate. lia.
Defined.

(** X8: with [initAudio] of src/index.js and a window that has
    neither [AudioContext] nor [webkitAudioContext], the exception of
    [initAudio] ends the effect before [setInterval]: the progress
    stays 0 and [onComplete] is never called. *)
Theorem loading_never_starts_without_audio_api (draws : list (R * R)) :
  let s := LoadingScreen.ticks draws
             (LoadingScreen.start useSoundEngine.initAudio (mkWindow None None)) in
  LoadingScreen.interval s = false /\
  LoadingScreen.progress s = 0%Z /\
  LoadingScreen.completions s = 0%nat.
Proof.
  intros s. unfold s, LoadingScreen.ticks.
  change (LoadingScreen.start useSoundEngine.initAudio (mkWindow None None))
    with (LoadingScreen.mk 0 false 0 None).
  rewrite (run_stopped LoadingScreen.interval
             (fun d s => LoadingScreen.tick d.1 d.2 s) loading_tick_stopped);
    [now repeat split|reflexivity].
Qed.

Lemma Int_part_range (a : R) (n : Z) :
  0 <= a < IZR n -> (0 <= Int_part a <= n - 1)%Z.
Proof.
  intros [H0 H1]. destruct (base_Int_part a) as [Hle Hgt]. split.
  - apply Z.lt_succ_r, lt_IZR. rewrite succ_IZR. lra.
  - apply Z.lt_succ_r, lt_IZR. rewrite succ_IZR, minus_IZR. lra.
Qed.

Lemma boot_tick_stopped d s : BootScreen.interval s = false -> BootScreen.tick d s = s.
Proof. intros H. unfold BootScreen.tick. now rewrite H. Qed.

Lemma boot_tick_stops d s :
  BootScreen.interval s = true -> (100 <= BootScreen.progress s)%Z ->
  BootScreen.interval (BootScreen.tick d s) = false /\
  BootScreen.progress (BootScreen.tick d s) = 100%Z /\
  BootScreen.completions (BootScreen.tick d s) = S (BootScreen.completions s).
Proof.
  intros Hi Hp. unfold BootScreen.tick. rewrite Hi, Zgeb_true by lia.
  now repeat split.
Qed.

Lemma boot_tick_advances d s :
  0 <= d < 1 -> BootScreen.interval s = true -> (BootScreen.progress s < 100)%Z ->
  BootScreen.interval (BootScreen.tick d s) = true /\
  BootScreen.completions (BootScreen.tick d s) = BootScreen.completions s /\
  (Z.min (BootScreen.progress s + 2) 100
     <= BootScreen.progress (BootScreen.tick d s)
     <= BootScreen.progress s + 9)%Z.
Proof.
  intros Hd Hi Hp. unfold BootScreen.tick. rewrite Hi, Zgeb_false by lia.
  simpl. split; [reflexivity|]. split; [reflexivity|].
  pose proof (Int_part_range (d * 8) 8 ltac:(lra)). unfold BootScreen.floor. lia.
Qed.

(** X9: in the loading screen of App.jsx, with draws in [[0, 1)], the
    progress state can pass 100 but never 108, and the percentage
    shown, [Math.min(progress, 100)], stays within 0 to 100. One run of
    the effect calls [onComplete] at most once: it has done so after 51
    ticks, with the progress set to 100, and not within the first 12. *)
Theorem boot_progress_overshoots_but_completes (draws : list R) :
  Forall (fun d => 0 <= d < 1) draws ->
  let s := BootScreen.ticks draws BootScreen.start in
  (0 <= BootScreen.progress s <= 108)%Z /\
  (0 <= BootScreen.shown s <= 100)%Z /\
  (BootScreen.completions s <= 1)%nat /\
  ((51 <= length draws)%nat ->
     BootScreen.completions s = 1%nat /\ BootScreen.progress s = 100%Z) /\
  ((length draws <= 12)%nat -> BootScreen.completions s = 0%nat).
Proof.
  intros Hds s.
  assert (Hb : (0 <= BootScreen.progress s <= 108)%Z).
  { unfold s, BootScreen.ticks.
    assert (H0 : (0 <= BootScreen.progress BootScreen.start <= 108)%Z)
      by (simpl; lia).
    revert H0. generalize BootScreen.start.
    induction Hds as [|d ds Hd Hds IH]; intros s0 H0; [exact H0|].
    simpl. apply IH. unfold BootScreen.tick.
    destruct (BootScreen.interval s0); [|exact H0].
    destruct (Z_lt_le_dec (BootScreen.progress s0) 100) as [Hlt|Hge].
    - rewrite Zgeb_false by lia. simpl.
      pose proof (Int_part_range (d * 8) 8 ltac:(lra)).
      unfold BootScreen.floor. lia.
    - rewrite Zgeb_true by lia. simpl. lia. }
  split; [exact Hb|]. split; [unfold BootScreen.shown; lia|].
  clear Hb. subst s. unfold BootScreen.ticks.
  pose proof (run_progress BootScreen.progress BootScreen.interval
                BootScreen.completions BootScreen.tick
                (fun d => 0 <= d < 1) 2 9 ltac:(lia)
                boot_tick_stopped boot_tick_stops boot_tick_advances
                draws BootScreen.start Hds eq_refl ltac:(simpl; lia)) as H.
  cbv zeta in H. change (BootScreen.progress BootScreen.start) with 0%Z in H.
  change (BootScreen.completions BootScreen.start) with 0%nat in H.
  destruct H as [(A & B & C & E & F)|(A & B & C & E)].
  - rewrite B. split; [lia|]. split; [|reflexivity].
    intros Hn. exfalso.
    assert (Hne : draws <> []) by (intros ->; simpl in Hn; lia).
    specialize (E Hne). lia.
  - rewrite B. split; [lia|]. split; [now split|].
    intros Hn. exfalso. lia.
Qed.

Lemma boot_progress_overshoots_but_completes_witness :
  let s := BootScreen.ticks (replicate 51 0.5) BootScreen.start in
  BootScreen.completions s = 1%nat /\ BootScreen.progress s = 100%Z.
Proof.
  intros s.
  apply (boot_progress_overshoots_but_completes (replicate 51 0.5)).
  - apply Forall_replicate. lra.
  - rewrite length_replicate. lia.
Defined.

End LoadingScreens.

(** ** Keyboard handling *)

Section KeyboardFacts.
Import Keyboard.

(** Membership in a list given by its elements. *)
Ltac listed :=
  repeat first [ apply list_elem_of_here | apply list_elem_of_further ].

(** X10: key handling of a [SettingRow]. A slider value within 0 to
    100 stays there under any sequence of keys; one key leaves it,
    lowers it by 5 (not below 0) or raises it by 5 (not above 100);
    away from the two ends, a step right and a step left cancel. On a
    toggle, the same key twice restores the value. *)
Theorem setting_row_keys (keys : list string) :
  (forall value,
      (0 <= value <= 100)%Z ->
      exists value',
        fold_left (fun row key => (rowKeyDown key row).1) keys (Slider value)
          = Slider value' /\ (0 <= value' <= 100)%Z) /\
  (forall key value,
      (0 <= value <= 100)%Z ->
      exists value',
        (rowKeyDown key (Slider value)).1 = Slider value' /\
        (value' = value \/ value' = Z.max 0 (value - 5)
         \/ value' = Z.min 100 (value + 5))%Z) /\
  (forall value,
      (5 <= value <= 95)%Z ->
      (rowKeyDown "ArrowLeft" (rowKeyDown "ArrowRight" (Slider value)).1).1
        = Slider value /\
      (rowKeyDown "ArrowRight" (rowKeyDown "ArrowLeft" (Slider value)).1).1
        = Slider value) /\
  (forall key value,
      (rowKeyDown key (rowKeyDown key (Toggle value)).1).1 = Toggle value).
Proof.
  split; [|split; [|split]].
  - induction keys as [|key keys IH]; intros value Hv.
    + exists value. now split.
    + simpl.
      destruct (keyIs key "ArrowLeft" || keyIs key "ArrowDown");
        [apply IH; lia|].
      destruct (keyIs key "ArrowRight" || keyIs key "ArrowUp");
        [apply IH; lia|].
      now apply IH.
  - intros key value Hv. simpl.
    destruct (keyIs key "ArrowLeft" || keyIs key "ArrowDown");
      [eexists; split; [reflexivity|tauto]|].
    destruct (keyIs key "ArrowRight" || keyIs key "ArrowUp");
      eexists; (split; [reflexivity|tauto]).
  - intros value Hv. simpl. split; f_equal; lia.
  - intros key value. simpl.
    destruct (keyIs key "ArrowLeft" || keyIs key "ArrowRight"
              || keyIs key "Enter" || keyIs key " ") eqn:Hk; simpl; rewrite Hk.
    + now rewrite negb_involutive.
    + reflexivity.
Qed.

Lemma setting_row_keys_witness :
  exists value',
    fold_left (fun row key => (rowKeyDown key row).1)
              ["ArrowRight"; "ArrowUp"; "x"; "ArrowLeft"] (Slider 95)
      = Slider value' /\ (0 <= value' <= 100)%Z.
Proof.
  apply (proj1 (setting_row_keys ["ArrowRight"; "ArrowUp"; "x"; "ArrowLeft"])).
  lia.
Defined.

Lemma indexOf_diffs diff :
  diff ∈ diffs ->
  (diff = "easy" /\ indexOf diff diffs = 0%Z) \/
  (diff = "medium" /\ indexOf diff diffs = 1%Z) \/
  (diff = "hard" /\ indexOf diff diffs = 2%Z).
Proof.
  unfold diffs. rewrite !elem_of_cons, elem_of_nil.
  intros [->|[->|[->|[]]]]; [left|right; left|right; right]; now split.
Qed.

Lemma panelStep_keeps p ev :
  rendered ev ->
  (0 <= focusIndex p < totalFocusableItems)%Z /\ difficulty p ∈ diffs ->
  (0 <= focusIndex (panelStep p ev) < totalFocusableItems)%Z /\
  difficulty (panelStep p ev) ∈ diffs.
Proof.
  intros Hev [Hf Hd]. unfold totalFocusableItems, settingsCount in *.
  destruct ev as [key|key diff|diff|i|]; simpl in *.
  - unfold panelKeyDown, totalFocusableItems, settingsCount.
    destruct (keyIs key "ArrowDown"); [simpl; split; [lia|exact Hd]|].
    destruct (keyIs key "ArrowUp"); [simpl; split; [lia|exact Hd]|].
    destruct (keyIs key "Escape"); simpl; split; assumption.
  - unfold handleDifficultyKeyDown, settingsCount.
    destruct (keyIs key "Enter" || keyIs key " "); [simpl; split; assumption|].
    destruct (indexOf_diffs diff Hev) as [[-> ->]|[[-> ->]|[-> ->]]];
      destruct (keyIs key "ArrowLeft"); simpl;
      try (split; [lia|]); try exact Hd;
      try (unfold diffs; listed; fail);
      destruct (keyIs key "ArrowRight"); simpl;
      try (split; [lia|]); try exact Hd; unfold diffs; listed.
  - split; assumption.
  - split; assumption.
  - split; [lia|exact Hd].
Qed.

(** X11: whatever the rendered settings panel receives (keys on the
    window, keys and clicks on the difficulty radios, focus events,
    reopening), [focusIndex] is the index of one of its 10 focusable
    items and [difficulty] is one of easy, medium and hard. *)
Theorem panel_focus_stays_on_an_item (evs : list PanelEvent) :
  Forall rendered evs ->
  let p := fold_left panelStep evs initialPanel in
  (0 <= focusIndex p < totalFocusableItems)%Z /\ difficulty p ∈ diffs.
Proof.
  intros Hevs.
  assert (H0 : (0 <= focusIndex initialPanel < totalFocusableItems)%Z /\
               difficulty initialPanel ∈ diffs).
  { split; [simpl; unfold totalFocusableItems, settingsCount; lia|].
    simpl. unfold diffs. listed. }
  revert H0. generalize initialPanel.
  induction Hevs as [|ev evs Hev Hevs IH]; intros p Hp; [exact Hp|].
  simpl. apply IH. now apply panelStep_keeps.
Qed.

Lemma panel_focus_stays_on_an_item_witness :
  let p := fold_left panelStep
             [WindowKey "ArrowUp"; DifficultyKey "ArrowRight" "medium";
              WindowKey "ArrowDown"; WindowKey "ArrowDown"; WindowKey "ArrowDown";
              FocusItem 9; WindowKey "ArrowDown"; Open; WindowKey "ArrowUp"]
             initialPanel in
  (0 <= focusIndex p < totalFocusableItems)%Z /\ difficulty p ∈ diffs.
Proof.
  apply panel_focus_stays_on_an_item.
  repeat constructor; simpl; unfold diffs, totalFocusableItems, settingsCount;
    try lia; listed.
Defined.

Lemma arrow_down_repeated n p :
  (0 <= focusIndex p < totalFocusableItems)%Z ->
  focusIndex (fold_left panelStep (replicate n (WindowKey "ArrowDown")) p)
    = Z.min (focusIndex p + Z.of_nat n) (totalFocusableItems - 1).
Proof.
  unfold totalFocusableItems, settingsCount. revert p.
  induction n as [|n IH]; intros p Hp; cbn [replicate fold_left]; [lia|].
  change (panelStep p (WindowKey "ArrowDown"))
    with (mkPanel (Z.min (focusIndex p + 1) (5 + 3 + 2 - 1)) (difficulty p)).
  rewrite IH; cbn [focusIndex]; lia.
Qed.

Lemma arrow_up_repeated n p :
  (0 <= focusIndex p < totalFocusableItems)%Z ->
  focusIndex (fold_left panelStep (replicate n (WindowKey "ArrowUp")) p)
    = Z.max (focusIndex p - Z.of_nat n) 0.
Proof.
  unfold totalFocusableItems, settingsCount. revert p.
  induction n as [|n IH]; intros p Hp; cbn [replicate fold_left]; [lia|].
  change (panelStep p (WindowKey "ArrowUp"))
    with (mkPanel (Z.max (focusIndex p - 1) 0) (difficulty p)).
  rewrite IH; cbn [focusIndex]; lia.
Qed.

(** X12: the arrow keys of the panel do not wrap around: [n] times
    ArrowDown moves the focus down by [n] but not past the last item,
    [n] times ArrowUp moves it up by [n] but not past the first. *)
Theorem panel_arrows_saturate (n : nat) (p : Panel) :
  (0 <= focusIndex p < totalFocusableItems)%Z ->
  focusIndex (fold_left panelStep (replicate n (WindowKey "ArrowDown")) p)
    = Z.min (focusIndex p + Z.of_nat n) (totalFocusableItems - 1) /\
  focusIndex (fold_left panelStep (replicate n (WindowKey "ArrowUp")) p)
    = Z.max (focusIndex p - Z.of_nat n) 0.
Proof.
  intros Hp. split; [now apply arrow_down_repeated|now apply arrow_up_repeated].
Qed.

Lemma panel_arrows_saturate_witness :
  focusIndex (fold_left panelStep (replicate 12 (WindowKey "ArrowDown"))
                        initialPanel) = 9%Z.
Proof.
  assert (H0 : (0 <= focusIndex initialPanel < totalFocusableItems)%Z)
    by (simpl; unfold totalFocusableItems, settingsCount; lia).
  exact (proj1 (panel_arrows_saturate 12 initialPanel H0)).
Defined.

(** X13: on the radio of difficulty [diff], ArrowLeft does nothing on
    the first radio and ArrowRight nothing on the last; otherwise the
    key selects the neighbouring difficulty and moves the focus to its
    radio, and the opposite key pressed there selects [diff] again,
    with the focus back on its radio. *)
Theorem difficulty_arrows_move_selection_and_focus (diff : string) (p : Panel) :
  diff ∈ diffs ->
  let left := handleDifficultyKeyDown "ArrowLeft" diff p in
  let right := handleDifficultyKeyDown "ArrowRight" diff p in
  (if decide (diff = "easy") then left = (p, [])
   else difficulty left.1 ∈ diffs /\
        indexOf (difficulty left.1) diffs = (indexOf diff diffs - 1)%Z /\
        focusIndex left.1 = (settingsCount + indexOf (difficulty left.1) diffs)%Z /\
        (handleDifficultyKeyDown "ArrowRight" (difficulty left.1) left.1).1
          = mkPanel (settingsCount + indexOf diff diffs) diff) /\
  (if decide (diff = "hard") then right = (p, [])
   else difficulty right.1 ∈ diffs /\
        indexOf (difficulty right.1) diffs = (indexOf diff diffs + 1)%Z /\
        focusIndex right.1 = (settingsCount + indexOf (difficulty right.1) diffs)%Z /\
        (handleDifficultyKeyDown "ArrowLeft" (difficulty right.1) right.1).1
          = mkPanel (settingsCount + indexOf diff diffs) diff).
Proof.
  intros Hd.
  destruct (indexOf_diffs diff Hd) as [[-> _]|[[-> _]|[-> _]]];
    cbv zeta; split; vm_compute; try reflexivity;
    repeat split; try reflexivity; unfold diffs; listed.
Qed.

Lemma difficulty_arrows_move_selection_and_focus_witness :
  let right := handleDifficultyKeyDown "ArrowRight" "medium" initialPanel in
  difficulty right.1 ∈ diffs /\
  indexOf (difficulty right.1) diffs = (indexOf "medium" diffs + 1)%Z /\
  focusIndex right.1 = (settingsCount + indexOf (difficulty right.1) diffs)%Z /\
  (handleDifficultyKeyDown "ArrowLeft" (difficulty right.1) right.1).1
    = mkPanel (settingsCount + indexOf "medium" diffs) "medium".
Proof.
  assert (Hd : "medium" ∈ diffs) by (unfold diffs; listed).
  exact (proj2 (difficulty_arrows_move_selection_and_focus "medium"
                  initialPanel Hd)).
Defined.

Lemma change_keeps st c :
  (forall a, (1 <= st.1 a <= 20)%Z) /\
  (forall s, (1 <= current (st.2 s) <= max (st.2 s))%Z /\
             max (st.2 s) = max (initialSkills s)) ->
  (forall a, (1 <= (change st c).1 a <= 20)%Z) /\
  (forall s, (1 <= current ((change st c).2 s) <= max ((change st c).2 s))%Z /\
             max ((change st c).2 s) = max (initialSkills s)).
Proof.
  intros [Ha Hs]. destruct c as [attr delta|skill delta]; simpl.
  - split; [|exact Hs]. intros a. unfold handleAttributeChange.
    destruct (decide (a = attr)); [lia|apply Ha].
  - split; [exact Ha|]. intros s. unfold handleSkillChange.
    destruct (decide (s = skill)) as [->|]; [|apply Hs].
    destruct (Hs skill) as [Hc Hm]. simpl. split; [|exact Hm]. lia.
Qed.

(** X14: under any sequence of value changes, with any deltas, every
    attribute stays within 1 to 20 and every skill within 1 to its
    maximum, which never changes. The attribute points therefore stay
    within 6 to 120 and the six derived stats within fixed ranges (crit
    chance 10 to 20, crit damage 104 to 180, armor 302 to 340, evasion
    404 to 480, thermal resistance 6 to 25, EMP resistance 1 to 20). *)
Theorem attributes_and_skills_stay_in_range (changes : list Change) :
  let st := fold_left change changes (initialAttributes, initialSkills) in
  (forall a, (1 <= st.1 a <= 20)%Z) /\
  (forall s, (1 <= current (st.2 s) <= max (st.2 s))%Z /\
             max (st.2 s) = max (initialSkills s)) /\
  (6 <= points st.1 <= 120)%Z /\
  Forall2 (fun lo_hi v => (lo_hi.1 <= v <= lo_hi.2)%Z)
          [(10, 20); (104, 180); (302, 340); (404, 480); (6, 25); (1, 20)]%Z
          (stats st.1).
Proof.
  intros st.
  assert (H : (forall a, (1 <= st.1 a <= 20)%Z) /\
              (forall s, (1 <= current (st.2 s) <= max (st.2 s))%Z /\
                         max (st.2 s) = max (initialSkills s))).
  { unfold st.
    assert (H0 : (forall a, (1 <= (initialAttributes, initialSkills).1 a <= 20)%Z) /\
                 (forall s,
                     (1 <= current ((initialAttributes, initialSkills).2 s)
                        <= max ((initialAttributes, initialSkills).2 s))%Z /\
                     max ((initialAttributes, initialSkills).2 s)
                       = max (initialSkills s))).
    { split; [intros a; simpl; unfold initialAttributes; lia|].
      intros []; simpl; split; (lia || reflexivity). }
    revert H0. generalize (initialAttributes, initialSkills).
    induction changes as [|c cs IH]; intros st0 H0; [exact H0|].
    simpl. apply IH. now apply change_keeps. }
  destruct H as [Ha Hs]. split; [exact Ha|]. split; [exact Hs|].
  pose proof (Ha reflex). pose proof (Ha strength). pose proof (Ha intel).
  pose proof (Ha tech). pose proof (Ha const). pose proof (Ha cool).
  split; [unfold points; lia|].
  unfold stats.
  assert (0 <= st.1 reflex / 2 <= 10)%Z.
  { split; [apply Z.div_pos; lia|]. apply Z.div_le_upper_bound; lia. }
  repeat constructor; simpl; lia.
Qed.

(** X15: the arrow keys of the attributes view cycle through the 9
    diamonds. From no diamond (-1) or any diamond, ArrowRight and
    ArrowDown go to the next index modulo 9; ArrowLeft and ArrowUp go to
    the previous one modulo 9, and from -1 to the last diamond. On a
    diamond, left and right are inverse to each other, and 9 steps
    right return to it. *)
Theorem diamond_focus_cycles (prev : Z) :
  (-1 <= prev < totalDiamonds)%Z ->
  let right := diamondFocusKeyDown "ArrowRight" in
  let left := diamondFocusKeyDown "ArrowLeft" in
  right prev = ((prev + 1) mod totalDiamonds)%Z /\
  left prev = ((Z.max prev 0 - 1) mod totalDiamonds)%Z /\
  diamondFocusKeyDown "ArrowDown" prev = right prev /\
  diamondFocusKeyDown "ArrowUp" prev = left prev /\
  ((0 <= prev)%Z -> left (right prev) = prev /\ right (left prev) = prev /\
                    Nat.iter 9 right prev = prev).
Proof.
  unfold totalDiamonds. intros Hp.
  assert (Hcases : In prev [-1; 0; 1; 2; 3; 4; 5; 6; 7; 8]%Z).
  { simpl. lia. }
  simpl in Hcases.
  cbv zeta.
  repeat (destruct Hcases as [<-|Hcases];
          [split; [reflexivity|]; split; [reflexivity|]; split; [reflexivity|];
           split; [reflexivity|]; intros H0; try lia; repeat split; reflexivity|]).
  contradiction.
Qed.

Lemma diamond_focus_cycles_witness :
  diamondFocusKeyDown "ArrowLeft" (-1) = ((Z.max (-1) 0 - 1) mod totalDiamonds)%Z /\
  diamondFocusKeyDown "ArrowRight" (-1) = 0%Z.
Proof.
  assert (H : (-1 <= -1 < totalDiamonds)%Z) by (unfold totalDiamonds; lia).
  destruct (diamond_focus_cycles (-1) H) as (H1 & H2 & _).
  split; [exact H2|exact H1].
Defined.

End KeyboardFacts.

(** ** Audio engine: where the gains are heading *)

Section MixerFacts.
Import WebAudio AudioEngine Mixer.

Lemma aim_snoc_target p target t0 tc :
  aim (mkParam (value p) (events p ++ [SetTargetAtTime target t0 tc])) = target.
Proof. unfold aim. simpl. now rewrite last_snoc. Qed.

Lemma gain_of_app c c' l id p :
  nodes c' = nodes c ++ l -> gain_of c id = Some p -> gain_of c' id = Some p.
Proof.
  intros Hn Hp. unfold gain_of in *. rewrite Hn.
  destruct (nodes c !! id) as [n|] eqn:Hid; [|discriminate].
  now rewrite (lookup_app_l_Some _ _ _ _ Hid).
Qed.

Lemma gain_of_alter_ne c c' f j id :
  nodes c' = alter (on_param gain f) j (nodes c) -> j <> id ->
  gain_of c' id = gain_of c id.
Proof.
  intros Hn Hne. unfold gain_of. rewrite Hn.
  now rewrite list_lookup_alter_ne by exact Hne.
Qed.

Lemma gain_of_alter_eq c c' f id p :
  nodes c' = alter (on_param gain f) id (nodes c) ->
  gain_of c id = Some p -> gain_of c' id = Some (f p).
Proof.
  intros Hn Hp. unfold gain_of in *. rewrite Hn, list_lookup_alter_eq.
  destruct (nodes c !! id) as [[g| |]|]; try discriminate.
  injection Hp as ->. reflexivity.
Qed.

Lemma tuned_intro mv sv c m mu s dO d (im : bool) :
  m <> mu -> m <> s -> mu <> s ->
  (exists p, gain_of c m = Some p /\ aim p = if im then 0 else 1) ->
  (exists p, gain_of c mu = Some p /\ aim p = mv) ->
  (exists p, gain_of c s = Some p /\ aim p = sv) ->
  tuned mv sv (mk (Some c) (Some m) (Some mu) (Some s) dO d im true).
Proof. intros. exists c, m, mu, s, dO, d, im. now repeat split. Qed.

Lemma tuned_initialized mv sv e : tuned mv sv e -> initialized e = true.
Proof. now intros (c & m & mu & s & dO & d & im & -> & _). Qed.

Lemma init_tuned w a : init w constructor = Return tt a -> tuned 1 1 a.
Proof.
  intros H.
  destruct (or_else (AudioContext_ w) (webkitAudioContext w)) as [k|] eqn:Hk.
  - rewrite (init_fresh w k constructor eq_refl Hk) in H. injection H as <-.
    apply tuned_intro; try discriminate;
      (exists (mkParam 1 []); now split).
  - destruct w as [[a0|] [b0|]]; try discriminate Hk.
    now rewrite (init_without_constructor constructor eq_refl) in H.
Qed.

Lemma init_constructor w :
  init w constructor = Throw TypeError constructor \/
  exists a, init w constructor = Return tt a.
Proof.
  destruct (or_else (AudioContext_ w) (webkitAudioContext w)) as [k|] eqn:Hk.
  - right. eexists. exact (init_fresh w k constructor eq_refl Hk).
  - left. destruct w as [[a0|] [b0|]]; try discriminate Hk.
    exact (init_without_constructor constructor eq_refl).
Qed.

(** Each call on a tuned engine returns, or at least leaves a tuned
    engine: the buses head for the levels asked last. *)
Lemma startAmbience_tuned mv sv e :
  tuned mv sv e -> tuned mv sv (final (startAmbience e)).
Proof.
  intros (c & m & mu & s & dO & d & im & -> & H1 & H2 & H3 &
          (pm & Hpm & Am) & (pmu & Hpmu & Amu) & (ps & Hps & As)).
  destruct (startAmbience_nodes c (Some m) mu (Some s) dO d im true)
    as (c' & -> & _ & _ & Hn).
  simpl. apply tuned_intro; try assumption.
  - exists pm. split; [now apply (gain_of_app c c' _ _ _ Hn)|exact Am].
  - exists pmu. split; [now apply (gain_of_app c c' _ _ _ Hn)|exact Amu].
  - exists ps. split; [now apply (gain_of_app c c' _ _ _ Hn)|exact As].
Qed.

Lemma setVolumes_tuned musicVol sfxVol mv sv e :
  tuned mv sv e ->
  tuned (musicVol / 100) (sfxVol / 100) (final (setVolumes musicVol sfxVol e)).
Proof.
  intros (c & m & mu & s & dO & d & im & -> & H1 & H2 & H3 &
          (pm & Hpm & Am) & (pmu & Hpmu & Amu) & (ps & Hps & As)).
  destruct (setVolumes_nodes c (Some m) mu s dO d im musicVol sfxVol)
    as (c' & -> & _ & _ & Hn).
  simpl.
  set (c1 := with_nodes
               (alter (on_param gain (fun p => mkParam (value p)
                  (events p ++ [SetTargetAtTime (musicVol / 100) (currentTime c) 0.1])))
                  mu) c).
  assert (Hn1 : nodes c1 = alter (on_param gain (fun p => mkParam (value p)
                  (events p ++ [SetTargetAtTime (musicVol / 100) (currentTime c) 0.1])))
                  mu (nodes c)) by reflexivity.
  assert (Hn2 : nodes c' = alter (on_param gain (fun p => mkParam (value p)
                  (events p ++ [SetTargetAtTime (sfxVol / 100) (currentTime c) 0.1])))
                  s (nodes c1)) by exact Hn.
  apply tuned_intro; try assumption.
  - exists pm. split; [|exact Am].
    rewrite (gain_of_alter_ne c1 c' _ s m Hn2) by congruence.
    now rewrite (gain_of_alter_ne c c1 _ mu m Hn1) by congruence.
  - eexists. split.
    + rewrite (gain_of_alter_ne c1 c' _ s mu Hn2) by congruence.
      exact (gain_of_alter_eq c c1 _ mu pmu Hn1 Hpmu).
    + apply aim_snoc_target.
  - eexists. split.
    + apply (gain_of_alter_eq c1 c' _ s ps Hn2).
      now rewrite (gain_of_alter_ne c c1 _ mu s Hn1) by congruence.
    + apply aim_snoc_target.
Qed.

Lemma toggleMute_tuned mv sv e :
  tuned mv sv e ->
  tuned mv sv (final (toggleMute e)) /\
  toggleMute e = Return (negb (isMuted e)) (final (toggleMute e)) /\
  isMuted (final (toggleMute e)) = negb (isMuted e).
Proof.
  intros (c & m & mu & s & dO & d & im & -> & H1 & H2 & H3 &
          (pm & Hpm & Am) & (pmu & Hpmu & Amu) & (ps & Hps & As)).
  destruct (toggleMute_nodes c m (Some mu) (Some s) dO d im)
    as (c' & -> & _ & _ & Hn).
  simpl. split; [|now split].
  apply tuned_intro; try assumption.
  - eexists. split; [exact (gain_of_alter_eq c c' _ m pm Hn Hpm)|].
    rewrite aim_snoc_target. now destruct im.
  - exists pmu. split; [|exact Amu].
    now rewrite (gain_of_alter_ne c c' _ m mu Hn) by congruence.
  - exists ps. split; [|exact As].
    now rewrite (gain_of_alter_ne c c' _ m s Hn) by congruence.
Qed.

Lemma playClickSound_tuned mv sv e :
  tuned mv sv e ->
  tuned mv sv (final (playClickSound e)) /\
  playClickSound e = Return tt (final (playClickSound e)).
Proof.
  intros (c & m & mu & s & dO & d & im & -> & H1 & H2 & H3 &
          (pm & Hpm & Am) & (pmu & Hpmu & Amu) & (ps & Hps & As)).
  destruct im.
  - rewrite playClickSound_muted. simpl. split; [|reflexivity].
    apply tuned_intro; try assumption; eexists; split; eassumption.
  - destruct (playClickSound_nodes c (Some m) (Some mu) s dO d)
      as (c' & -> & _ & _ & Hn).
    simpl. split; [|reflexivity]. apply tuned_intro; try assumption.
    + exists pm. split; [now apply (gain_of_app c c' _ _ _ Hn)|exact Am].
    + exists pmu. split; [now apply (gain_of_app c c' _ _ _ Hn)|exact Amu].
    + exists ps. split; [now apply (gain_of_app c c' _ _ _ Hn)|exact As].
Qed.

Lemma playHoverSound_tuned r mv sv e :
  tuned mv sv e -> tuned mv sv (final (playHoverSound r e)).
Proof.
  intros (c & m & mu & s & dO & d & im & -> & H1 & H2 & H3 &
          (pm & Hpm & Am) & (pmu & Hpmu & Amu) & (ps & Hps & As)).
  destruct im.
  - rewrite playHoverSound_muted. simpl.
    apply tuned_intro; try assumption; eexists; split; eassumption.
  - destruct (playHoverSound_nodes r c (Some m) (Some mu) s dO d)
      as (c' & -> & _ & _ & Hn).
    simpl. apply tuned_intro; try assumption.
    + exists pm. split; [now apply (gain_of_app c c' _ _ _ Hn)|exact Am].
    + exists pmu. split; [now apply (gain_of_app c c' _ _ _ Hn)|exact Amu].
    + exists ps. split; [now apply (gain_of_app c c' _ _ _ Hn)|exact As].
Qed.

Lemma tick_tuned dt mv sv e :
  tuned mv sv e -> tuned mv sv (set_ctx (tick dt <$> ctx e) e).
Proof.
  intros (c & m & mu & s & dO & d & im & -> & H1 & H2 & H3 & Hm & Hmu & Hs).
  simpl. now apply tuned_intro.
Qed.

Lemma exec_tuned mv sv e call :
  tuned mv sv e ->
  tuned (asked (mv, sv) call).1 (asked (mv, sv) call).2 (exec e call).
Proof.
  intros He. destruct call as [w| |musicVol sfxVol| | |r|dt]; simpl.
  - now rewrite (init_initialized w e (tuned_initialized mv sv e He)).
  - now apply startAmbience_tuned.
  - now apply (setVolumes_tuned _ _ mv sv).
  - now apply toggleMute_tuned.
  - now apply playClickSound_tuned.
  - now apply playHoverSound_tuned.
  - now apply tick_tuned.
Qed.

Lemma run_tuned cs mv sv e :
  Forall (fun call => ~ is_setVolumes call) cs ->
  tuned mv sv e -> tuned mv sv (run cs e).
Proof.
  intros Hcs. revert e. induction Hcs as [|call cs Hc Hcs IH]; intros e He.
  - exact He.
  - simpl. apply IH. pose proof (exec_tuned mv sv e call He) as H.
    destruct call; try exact H. now contradiction Hc.
Qed.

(** The engine is as constructed until it is tuned. *)
Lemma exec_constructor_or_tuned e call :
  (if initialized e then exists mv sv, tuned mv sv e else e = constructor) ->
  (if initialized (exec e call)
   then exists mv sv, tuned mv sv (exec e call) else exec e call = constructor).
Proof.
  destruct (initialized e) eqn:Hi.
  - intros (mv & sv & He).
    pose proof (exec_tuned mv sv e call He) as H.
    rewrite (tuned_initialized _ _ _ H). eauto.
  - intros ->. destruct call as [w| |musicVol sfxVol| | |r|dt];
      try reflexivity.
    unfold exec. destruct (init_constructor w) as [->|[a Ha]]; [reflexivity|].
    rewrite Ha. simpl. pose proof (init_tuned w a Ha) as H.
    rewrite (tuned_initialized _ _ _ H). eauto.
Qed.

Lemma run_constructor_or_tuned cs :
  let e := run cs constructor in
  if initialized e then exists mv sv, tuned mv sv e else e = constructor.
Proof.
  induction cs as [|call cs IH] using rev_ind; [reflexivity|].
  unfold run in *. rewrite fold_left_app. simpl.
  now apply exec_constructor_or_tuned.
Qed.

Lemma tuned_aims mv sv e :
  tuned mv sv e ->
  aims_at masterGain e (if isMuted e then 0 else 1) /\
  aims_at musicGain e mv /\ aims_at sfxGain e sv.
Proof.
  intros (c & m & mu & s & dO & d & im & -> & _ & _ & _ & Hm & Hmu & Hs).
  now repeat split.
Qed.

(** X18: after any sequence of calls on a new engine that left it
    initialised, the master gain is heading for 0 if [isMuted] is set
    and for 1 otherwise: no other method touches the master gain, and
    [toggleMute] keeps flag and gain together. *)
Theorem master_gain_follows_mute_flag (cs : list Call) :
  let e := run cs constructor in
  initialized e = true ->
  aims_at masterGain e (if isMuted e then 0 else 1).
Proof.
  intros e Hi. pose proof (run_constructor_or_tuned cs) as H.
  fold e in H. cbv zeta in H. rewrite Hi in H. destruct H as (mv & sv & H).
  now apply (tuned_aims mv sv).
Qed.

Lemma master_gain_follows_mute_flag_witness :
  let e := run [Init (mkWindow (Some (mkConstructor suspended 0)) None);
                ToggleMute; SetVolumes 40 80; PlayClickSound; ToggleMute; ToggleMute]
               constructor in
  aims_at masterGain e (if isMuted e then 0 else 1).
Proof.
  intros e. apply master_gain_follows_mute_flag.
  unfold run. cbn [fold_left].
  do 5 apply exec_keeps_initialized.
  unfold exec.
  now rewrite (init_fresh (mkWindow (Some (mkConstructor suspended 0)) None)
                       (mkConstructor suspended 0) constructor eq_refl eq_refl).
Defined.

(** X19: on an initialised engine, [setVolumes(musicVol, sfxVol)]
    sets the music bus heading for [musicVol / 100] and the sfx bus
    for [sfxVol / 100], and they keep heading there through any later
    calls other than [setVolumes]: mute, sound effects, a second
    [init], [startAmbience], passing time. *)
Theorem volumes_hold_until_set_again (before after : list Call) (musicVol sfxVol : R) :
  initialized (run before constructor) = true ->
  Forall (fun call => ~ is_setVolumes call) after ->
  let e := run (before ++ SetVolumes musicVol sfxVol :: after) constructor in
  aims_at musicGain e (musicVol / 100) /\ aims_at sfxGain e (sfxVol / 100).
Proof.
  intros Hi Hafter e.
  pose proof (run_constructor_or_tuned before) as H. cbv zeta in H.
  rewrite Hi in H. destruct H as (mv & sv & H).
  assert (He : tuned (musicVol / 100) (sfxVol / 100) e).
  { unfold e, run. rewrite fold_left_app. simpl.
    apply (run_tuned after); [exact Hafter|].
    now apply (setVolumes_tuned _ _ mv sv). }
  now destruct (tuned_aims _ _ _ He) as (_ & ? & ?).
Qed.

Lemma volumes_hold_until_set_again_witness :
  let e := run ([Init (mkWindow None (Some (mkConstructor running 0)))]
                  ++ SetVolumes 40 80 :: [ToggleMute; PlayHoverSound 0.5; Tick 1])
               constructor in
  aims_at musicGain e (40 / 100) /\ aims_at sfxGain e (80 / 100).
Proof.
  apply volumes_hold_until_set_again.
  - unfold run. cbn [fold_left]. unfold exec.
    now rewrite (init_fresh (mkWindow None (Some (mkConstructor running 0)))
                         (mkConstructor running 0) constructor eq_refl eq_refl).
  - repeat constructor; simpl; tauto.
Defined.

End MixerFacts.

(** ** Sound hook: what a session leaves in the audio graph *)

Section SoundHookFacts.
Import WebAudio useSoundEngine SoundHook.









End SoundHookFacts.

(** ** Audio engine: oscillators *)

Section VoicesFacts.
Import WebAudio AudioEngine Mixer Voices.

Lemma voice_on_gain f n : voice n -> voice (on_param gain f n).
Proof. now destruct n. Qed.

Lemma voices_alter f j ns :
  Forall voice ns -> Forall voice (alter (on_param gain f) j ns).
Proof.
  intros H. apply Forall_alter; [exact H|].
  intros n _. apply voice_on_gain.
Qed.

Lemma exec_voices mv sv e call :
  draw_in_unit call -> tuned mv sv e -> voices e -> voices (exec e call).
Proof.
  intros Hr Ht Hv.
  destruct call as [w| |musicVol sfxVol| | |r|dt]; unfold exec.
  - now rewrite (init_initialized w e (tuned_initialized mv sv e Ht)).
  - destruct Ht as (c & m & mu & s & dO & d & im & -> & _).
    destruct (startAmbience_nodes c (Some m) mu (Some s) dO d im true)
      as (c' & -> & _ & _ & Hn).
    unfold voices in *; simpl in *. rewrite Hn.
    apply Forall_app. split; [exact Hv|].
    repeat (apply Forall_cons_2; [simpl; auto|]). apply Forall_nil_2.
  - destruct Ht as (c & m & mu & s & dO & d & im & -> & _).
    destruct (setVolumes_nodes c (Some m) mu s dO d im musicVol sfxVol)
      as (c' & -> & _ & _ & Hn).
    unfold voices in *; simpl in *. rewrite Hn.
    now apply voices_alter, voices_alter.
  - destruct Ht as (c & m & mu & s & dO & d & im & -> & _).
    destruct (toggleMute_nodes c m (Some mu) (Some s) dO d im)
      as (c' & -> & _ & _ & Hn).
    unfold voices in *; simpl in *. rewrite Hn.
    now apply voices_alter.
  - destruct Ht as (c & m & mu & s & dO & d & im & -> & _).
    destruct im; [now rewrite playClickSound_muted|].
    destruct (playClickSound_nodes c (Some m) (Some mu) s dO d)
      as (c' & -> & _ & _ & Hn).
    unfold voices in *; simpl in *. rewrite Hn.
    apply Forall_app. split; [exact Hv|].
    repeat (apply Forall_cons_2; [simpl|]); [|exact I|apply Forall_nil_2].
    split; [lra|]. repeat (apply Forall_cons_2; [simpl; lra|]). apply Forall_nil_2.
  - destruct Ht as (c & m & mu & s & dO & d & im & -> & _).
    destruct im; [now rewrite playHoverSound_muted|].
    destruct (playHoverSound_nodes r c (Some m) (Some mu) s dO d)
      as (c' & -> & _ & _ & Hn).
    unfold voices in *; simpl in *. rewrite Hn.
    apply Forall_app. split; [exact Hv|].
    simpl in Hr. repeat (apply Forall_cons_2; [simpl|]); [|exact I|apply Forall_nil_2].
    split; [lra|]. repeat (apply Forall_cons_2; [simpl; lra|]). apply Forall_nil_2.
  - destruct Ht as (c & m & mu & s & dO & d & im & -> & _).
    exact Hv.
Qed.

Lemma init_voices w a : init w constructor = Return tt a -> voices a.
Proof.
  intros H.
  destruct (or_else (AudioContext_ w) (webkitAudioContext w)) as [k|] eqn:Hk.
  - rewrite (init_fresh w k constructor eq_refl Hk) in H. injection H as <-.
    unfold voices; simpl. repeat (apply Forall_cons_2; [simpl; auto|]). apply Forall_nil_2.
  - destruct w as [[a0|] [b0|]]; try discriminate Hk.
    now rewrite (init_without_constructor constructor eq_refl) in H.
Qed.

Lemma exec_constructor_voices call :
  exec constructor call = constructor \/
  exists w a, call = Init w /\ init w constructor = Return tt a.
Proof.
  destruct call as [w| |musicVol sfxVol| | |r|dt]; try (now left).
  unfold exec. destruct (init_constructor w) as [->|[a Ha]]; [now left|].
  right. eauto.
Qed.

Lemma run_voices cs :
  Forall draw_in_unit cs ->
  let e := run cs constructor in
  voices e /\ if initialized e then exists mv sv, tuned mv sv e else e = constructor.
Proof.
  induction cs as [|call cs IH] using rev_ind; intros Hcs.
  - split; [exact I|reflexivity].
  - apply Forall_app in Hcs as [Hcs Hc]. inversion Hc as [|? ? Hcall _]; subst.
    specialize (IH Hcs). cbv zeta in *. unfold run in *.
    rewrite fold_left_app. simpl.
    destruct IH as [Hv Hs].
    split; [|now apply exec_constructor_or_tuned].
    destruct (initialized (fold_left exec cs constructor)) eqn:Hi.
    + destruct Hs as (mv & sv & Ht). now apply (exec_voices mv sv).
    + rewrite Hs.
      destruct (exec_constructor_voices call) as [->|(w & a & -> & Ha)];
        [exact I|].
      unfold exec. rewrite Ha. now apply (init_voices w).
Qed.

(** X22: after any sequence of calls on a new engine, with the draws
    of [playHoverSound] in [[0, 1)], every oscillator of the graph was
    started. Those never stopped are the voices of the drone, with an
    assigned frequency of 50 or 0.2 and no automation; every other one
    stops within 0.15 s of its start and has its frequency automated
    within 100 to 1200. *)
Theorem effects_end_and_only_the_drone_plays_on (cs : list Call) :
  Forall draw_in_unit cs -> voices (run cs constructor).
Proof. intros Hcs. now apply run_voices. Qed.

Lemma effects_end_and_only_the_drone_plays_on_witness :
  voices (run [PlayClickSound;
               Init (mkWindow (Some (mkConstructor suspended 0)) None);
               PlayHoverSound 0.5; ToggleMute; PlayClickSound; Tick 1;
               ToggleMute; PlayClickSound; StartAmbience]
              constructor).
Proof.
  apply effects_end_and_only_the_drone_plays_on.
  repeat constructor; simpl; lra.
Defined.

End VoicesFacts.

(** ** Settings view *)

Section SettingsView.
Import WebAudio AudioEngine.

Lemma Int_part_le (a b : R) : a <= b -> (Int_part a <= Int_part b)%Z.
Proof.
  intros Hab. destruct (base_Int_part a) as [Ha _].
  destruct (base_Int_part b) as [_ Hb].
  apply Z.lt_succ_r, lt_IZR. rewrite succ_IZR. lra.
Qed.

Lemma Int_part_IZR_half (n : Z) : Int_part (IZR n + 0.5) = n.
Proof.
  destruct (base_Int_part (IZR n + 0.5)) as [H1 H2].
  apply Z.le_antisymm.
  - apply Z.lt_succ_r, lt_IZR. rewrite succ_IZR. lra.
  - apply Z.lt_succ_r, lt_IZR. rewrite succ_IZR. lra.
Qed.

Lemma round_range (a : R) (lo hi : Z) :
  IZR lo <= a <= IZR hi -> (lo <= App.round a <= hi)%Z.
Proof.
  intros [Hlo Hhi]. unfold App.round. split.
  - rewrite <- (Int_part_IZR_half lo) at 1. apply Int_part_le. lra.
  - rewrite <- (Int_part_IZR_half hi). apply Int_part_le. lra.
Qed.

Lemma clamp_range (a : R) : 0 <= Rmax 0 (Rmin 100 a) <= 100.
Proof.
  unfold Rmax, Rmin.
  destruct (Rle_dec 100 a); destruct (Rle_dec 0 _); lra.
Qed.

Lemma clamp_mono (a b : R) :
  a <= b -> Rmax 0 (Rmin 100 a) <= Rmax 0 (Rmin 100 b).
Proof.
  intros Hab. unfold Rmax, Rmin.
  destruct (Rle_dec 100 a); destruct (Rle_dec 100 b);
    repeat match goal with |- context [Rle_dec ?x ?y] => destruct (Rle_dec x y) end;
    lra.
Qed.

(** X16: on a track of positive width [CyberSlider] reports a whole
    number from 0 to 100: 0 for a pointer at or left of the track, 100
    at or right of its end, never less for a pointer further right,
    and exactly [k] at [k] hundredths of the width. *)
Theorem slider_value_is_a_percentage (rectLeft width : R) :
  0 < width ->
  (forall clientX, (0 <= App.sliderValue clientX rectLeft width <= 100)%Z) /\
  (forall clientX, clientX <= rectLeft -> App.sliderValue clientX rectLeft width = 0%Z) /\
  (forall clientX, rectLeft + width <= clientX ->
                   App.sliderValue clientX rectLeft width = 100%Z) /\
  (forall x1 x2, x1 <= x2 ->
                 (App.sliderValue x1 rectLeft width <= App.sliderValue x2 rectLeft width)%Z) /\
  (forall k : Z, (0 <= k <= 100)%Z ->
                 App.sliderValue (rectLeft + width * IZR k / 100) rectLeft width = k).
Proof.
  intros Hw. unfold App.sliderValue. cbv zeta.
  assert (Hmono : forall x1 x2, x1 <= x2 ->
            (x1 - rectLeft) / width * 100 <= (x2 - rectLeft) / width * 100).
  { intros x1 x2 H. apply Rmult_le_compat_r; [lra|].
    apply Rmult_le_compat_r; [left; now apply Rinv_0_lt_compat|lra]. }
  split; [|split; [|split; [|split]]].
  - intros clientX. apply round_range. simpl. apply clamp_range.
  - intros clientX Hx.
    assert (H : (clientX - rectLeft) / width * 100 <= 0).
    { replace 0 with ((rectLeft - rectLeft) / width * 100) by (field; lra).
      now apply Hmono. }
    replace (Rmax 0 (Rmin 100 ((clientX - rectLeft) / width * 100))) with 0.
    + unfold App.round. replace (0 + 0.5) with (IZR 0 + 0.5) by reflexivity.
      apply Int_part_IZR_half.
    + unfold Rmax, Rmin. destruct (Rle_dec 100 _); destruct (Rle_dec 0 _); lra.
  - intros clientX Hx.
    assert (H : 100 <= (clientX - rectLeft) / width * 100).
    { replace 100 with ((rectLeft + width - rectLeft) / width * 100) at 1 by (field; lra).
      now apply Hmono. }
    replace (Rmax 0 (Rmin 100 ((clientX - rectLeft) / width * 100))) with 100.
    + unfold App.round. replace (100 + 0.5) with (IZR 100 + 0.5) by reflexivity.
      apply Int_part_IZR_half.
    + unfold Rmax, Rmin. destruct (Rle_dec 100 _); destruct (Rle_dec 0 _); lra.
  - intros x1 x2 H. unfold App.round. apply Int_part_le.
    pose proof (clamp_mono _ _ (Hmono x1 x2 H)). lra.
  - intros k Hk.
    assert (Hk' : 0 <= IZR k <= 100).
    { split; [apply (IZR_le 0)|apply (IZR_le k 100)]; lia. }
    replace ((rectLeft + width * IZR k / 100 - rectLeft) / width * 100) with (IZR k)
      by (field; lra).
    replace (Rmax 0 (Rmin 100 (IZR k))) with (IZR k).
    + apply Int_part_IZR_half.
    + unfold Rmax, Rmin. destruct (Rle_dec 100 _); destruct (Rle_dec 0 _); lra.
Qed.

Lemma slider_value_is_a_percentage_witness :
  App.sliderValue 150 100 200 = 25%Z /\
  (0 <= App.sliderValue 1000 100 200 <= 100)%Z.
Proof.
  assert (Hw : 0 < 200) by lra.
  destruct (slider_value_is_a_percentage 100 200 Hw) as (H1 & _ & _ & _ & H5).
  split; [|apply H1].
  replace 150 with (100 + 200 * IZR 25 / 100) by lra.
  apply H5. lia.
Defined.

Lemma sliderValue_range (clientX rectLeft rectWidth : R) :
  (0 <= App.sliderValue clientX rectLeft rectWidth <= 100)%Z.
Proof. unfold App.sliderValue. apply round_range. simpl. apply clamp_range. Qed.

Lemma percent_range (v : Z) : (0 <= v <= 100)%Z -> 0 <= IZR v <= 100.
Proof. intros [H0 H1]. split; [now apply (IZR_le 0)|now apply (IZR_le v 100)]. Qed.

Lemma init_returns_initialized w e a :
  init w e = Return tt a -> initialized a = true.
Proof.
  intros H. destruct (initialized e) eqn:Hi.
  - rewrite (init_initialized w e Hi) in H. now injection H as <-.
  - destruct (or_else (AudioContext_ w) (webkitAudioContext w)) as [k|] eqn:Hk.
    + rewrite (init_fresh w k e Hi Hk) in H. now injection H as <-.
    + destruct w as [[a0|] [b0|]]; try discriminate Hk.
      now rewrite (init_without_constructor e Hi) in H.
Qed.

Lemma volumeEffect_ok (s : App.t) : App.view_ok s -> App.view_ok (App.volumeEffect s).
Proof.
  intros H. unfold App.volumeEffect.
  destruct (App.booted s) eqn:B; [|exact H].
  destruct H as (Hm & Hs & He & Hb).
  split; [exact Hm|]. split; [exact Hs|]. split.
  - apply setVolumes_ok; [now apply percent_range|now apply percent_range|exact He].
  - intros _. apply (exec_keeps_initialized _ (SetVolumes _ _)). exact (Hb B).
Qed.

Lemma onAudio_ok (call : Call) (s : App.t) :
  volumes_in_range call -> App.view_ok s ->
  App.view_ok (App.onAudio (fun a => exec a call) s).
Proof.
  intros Hc (Hm & Hs & He & Hb).
  split; [exact Hm|]. split; [exact Hs|]. split.
  - now apply exec_ok.
  - intros B. apply exec_keeps_initialized. now apply Hb.
Qed.

Lemma boot_ok (w : Window) (s : App.t) : App.view_ok s -> App.view_ok (App.boot w s).
Proof.
  intros (Hm & Hs & He & Hb). unfold App.boot.
  change ((init w;; playClickSound) (App.audio s))
    with (match init w (App.audio s) with
          | Return _ a => playClickSound a
          | Throw e a => Throw e a
          end).
  pose proof (init_ok w (App.audio s) He) as Hi.
  pose proof (init_returns_initialized w (App.audio s)) as Hr.
  destruct (init w (App.audio s)) as [[] a|e a] eqn:E; simpl in Hi.
  - specialize (Hr a eq_refl).
    pose proof (playClickSound_ok a Hi) as Hc.
    pose proof (exec_keeps_initialized a PlayClickSound Hr) as Hk.
    unfold exec in Hk.
    destruct (playClickSound a) as [[] a'|e a']; simpl in Hc, Hk.
    + apply volumeEffect_ok. now repeat split.
    + split; [exact Hm|]. split; [exact Hs|]. split; [exact Hc|]. now intros _.
  - split; [exact Hm|]. split; [exact Hs|]. split; [exact Hi|].
    intros B. simpl in B.
    rewrite (init_initialized w (App.audio s) (Hb B)) in E. discriminate E.
Qed.

Lemma step_ok (s : App.t) (ev : App.Event) :
  App.laidOut ev -> App.view_ok s -> App.view_ok (App.step s ev).
Proof.
  intros Hev Hs.
  destruct ev as [w|x l wd|x l wd| | | |r|dt|flag]; unfold App.step.
  - destruct (App.booted s); [exact Hs|now apply boot_ok].
  - unfold App.slideMusic. cbv zeta.
    assert (H' : App.view_ok
                   (App.mk (App.booted s)
                      (App.setMusicVol (App.sliderValue x l wd) (App.settings s))
                      (App.audio s))).
    { destruct Hs as (Hm & Hsf & He & Hb).
      split; [apply sliderValue_range|]. now split. }
    destruct (decide _); [exact H'|now apply volumeEffect_ok].
  - unfold App.slideSfx. cbv zeta.
    assert (H' : App.view_ok
                   (App.mk (App.booted s)
                      (App.setSfxVol (App.sliderValue x l wd) (App.settings s))
                      (App.audio s))).
    { destruct Hs as (Hm & Hsf & He & Hb).
      split; [exact Hm|]. split; [apply sliderValue_range|]. now split. }
    destruct (decide _); [exact H'|now apply volumeEffect_ok].
  - now apply (onAudio_ok PlayClickSound).
  - now apply (onAudio_ok ToggleMute).
  - now apply (onAudio_ok PlayClickSound).
  - now apply (onAudio_ok (PlayHoverSound r)).
  - now apply (onAudio_ok (Tick dt)).
  - destruct (onAudio_ok PlayClickSound s I Hs) as (Hm & Hsf & He & Hb).
    unfold App.check. split; [now destruct flag|]. split; [now destruct flag|].
    now split.
Qed.

Lemma steps_ok (evs : list App.Event) (s : App.t) :
  Forall App.laidOut evs -> App.view_ok s -> App.view_ok (fold_left App.step evs s).
Proof.
  intros Hevs. revert s.
  induction Hevs as [|ev evs Hev Hevs IH]; intros s Hs; [exact Hs|].
  simpl. apply IH. now apply step_ok.
Qed.

Lemma initial_ok : App.view_ok App.initial.
Proof.
  split; [simpl; lia|]. split; [simpl; lia|].
  split; [exact constructor_ok|discriminate].
Qed.

(** X17: whatever the user does in App.jsx (the first click, sliders
    on tracks of positive width, the M key, clicks, hovers,
    checkboxes) and however time passes, both volume settings stay
    within 0 to 100 and the engine's master, music, sfx and drone
    gains keep their value and every scheduled target within
    [[0, 1]]; once booted all four gains exist. *)
Theorem view_keeps_gains_within_unit_interval (evs : list App.Event) :
  Forall App.laidOut evs ->
  let s := fold_left App.step evs App.initial in
  (0 <= App.musicVol (App.settings s) <= 100)%Z /\
  (0 <= App.sfxVol (App.settings s) <= 100)%Z /\
  Forall unit_param (engine_gains (App.audio s)) /\
  (App.booted s = true -> length (engine_gains (App.audio s)) = 4%nat).
Proof.
  intros Hevs s.
  destruct (steps_ok evs App.initial Hevs initial_ok) as (Hm & Hs & He & Hb).
  destruct (engine_gains_ok _ He) as [Hu Hl].
  split; [exact Hm|]. split; [exact Hs|]. split; [exact Hu|].
  intros B. apply Hl. now apply Hb.
Qed.

Lemma view_keeps_gains_within_unit_interval_witness :
  let s := fold_left App.step
             [App.Boot (mkWindow (Some (mkConstructor suspended 0)) None);
              App.SlideMusic 150 100 200; App.KeyM; App.Hover 0.5;
              App.SlideSfx 0 100 200; App.SlideEnd; App.Check App.Dof]
             App.initial in
  (0 <= App.musicVol (App.settings s) <= 100)%Z /\
  (0 <= App.sfxVol (App.settings s) <= 100)%Z /\
  Forall unit_param (engine_gains (App.audio s)) /\
  (App.booted s = true -> length (engine_gains (App.audio s)) = 4%nat).
Proof.
  apply view_keeps_gains_within_unit_interval.
  repeat constructor; simpl; lra.
Defined.

End SettingsView.

(** ** Settings view: the engine follows the sliders *)

Section ViewInTune.
Import WebAudio AudioEngine Mixer.

Lemma in_tune_initialized s mv sv :
  tuned mv sv (App.audio s) ->
  (App.booted s = true ->
   mv = IZR (App.musicVol (App.settings s)) / 100 /\
   sv = IZR (App.sfxVol (App.settings s)) / 100) ->
  App.in_tune s.
Proof.
  intros H Hb. unfold App.in_tune. rewrite (tuned_initialized _ _ _ H). eauto.
Qed.

Lemma in_tune_booted s :
  App.in_tune s -> App.booted s = true ->
  tuned (IZR (App.musicVol (App.settings s)) / 100)
        (IZR (App.sfxVol (App.settings s)) / 100) (App.audio s).
Proof.
  unfold App.in_tune. intros H B. destruct (initialized (App.audio s)).
  - destruct H as (mv & sv & H & Hb). now destruct (Hb B) as [<- <-].
  - destruct H as [_ H]. congruence.
Qed.

Lemma in_tune_cases s :
  App.in_tune s ->
  (exists mv sv, tuned mv sv (App.audio s)) \/
  (App.audio s = constructor /\ App.booted s = false).
Proof.
  unfold App.in_tune. destruct (initialized (App.audio s)).
  - intros (mv & sv & H & _). left. eauto.
  - intros H. now right.
Qed.

(** The effect brings a view with a tuned engine in tune. *)
Lemma volumeEffect_tunes s mv sv :
  tuned mv sv (App.audio s) -> App.booted s = true ->
  App.in_tune (App.volumeEffect s).
Proof.
  intros H B. unfold App.volumeEffect. rewrite B.
  eapply in_tune_initialized.
  - simpl. apply (setVolumes_tuned _ _ mv sv). exact H.
  - intros _. now split.
Qed.

Lemma volumeEffect_in_tune s : App.in_tune s -> App.in_tune (App.volumeEffect s).
Proof.
  intros H. destruct (App.booted s) eqn:B.
  - apply (volumeEffect_tunes s _ _ (in_tune_booted s H B) B).
  - unfold App.volumeEffect. now rewrite B.
Qed.

Lemma boot_in_tune w s :
  App.in_tune s -> App.booted s = false -> App.in_tune (App.boot w s).
Proof.
  intros H B. unfold App.boot.
  change ((init w;; playClickSound) (App.audio s))
    with (match init w (App.audio s) with
          | Return _ a => playClickSound a
          | Throw e a => Throw e a
          end).
  assert (Hafter : forall mv sv a, tuned mv sv a ->
            App.in_tune match playClickSound a with
                    | Return _ a' => App.volumeEffect (App.mk true (App.settings s) a')
                    | Throw _ a' => App.mk (App.booted s) (App.settings s) a'
                    end).
  { intros mv sv a Ha. destruct (playClickSound_tuned mv sv a Ha) as [Ht ->].
    now apply (volumeEffect_tunes _ mv sv). }
  destruct (in_tune_cases s H) as [(mv & sv & Ht)|[Hc _]].
  - rewrite (init_initialized w _ (tuned_initialized _ _ _ Ht)).
    now apply (Hafter mv sv).
  - rewrite Hc. destruct (init_constructor w) as [->|[a Ha]].
    + unfold App.in_tune. simpl. now split.
    + rewrite Ha. apply (Hafter 1 1). exact (init_tuned w a Ha).
Qed.

Lemma onAudio_in_tune call s :
  ~ is_setVolumes call -> (forall w, call <> Init w) ->
  App.in_tune s -> App.in_tune (App.onAudio (fun a => exec a call) s).
Proof.
  intros Hc Hw H. destruct (in_tune_cases s H) as [(mv0 & sv0 & Ht0)|[Hk B]].
  - unfold App.in_tune in H. rewrite (tuned_initialized _ _ _ Ht0) in H.
    destruct H as (mv & sv & Ht & Hb).
    apply (in_tune_initialized _ mv sv); [|exact Hb].
    pose proof (exec_tuned mv sv _ call Ht) as H'.
    destruct call; try exact H'. now contradiction Hc.
  - unfold App.in_tune, App.onAudio. simpl. rewrite Hk.
    destruct call as [w| |musicVol sfxVol| | |r|dt]; try (now split).
    + now contradiction (Hw w).
Qed.

Lemma step_in_tune s ev : App.in_tune s -> App.in_tune (App.step s ev).
Proof.
  intros H. destruct ev as [w|x l wd|x l wd| | | |r|dt|flag]; unfold App.step.
  - destruct (App.booted s) eqn:B; [exact H|now apply boot_in_tune].
  - unfold App.slideMusic. cbv zeta.
    destruct (decide _) as [E|_].
    + rewrite E. now destruct s as [b [] a].
    + destruct (App.booted s) eqn:B.
      * destruct (in_tune_cases s H) as [(mv & sv & Ht)|[_ B']]; [|congruence].
        now apply (volumeEffect_tunes _ mv sv).
      * unfold App.volumeEffect. simpl.
        unfold App.in_tune in *. simpl. destruct (initialized (App.audio s)).
        -- destruct H as (mv & sv & Ht & _). exists mv, sv. split; [exact Ht|].
           discriminate.
        -- now split.
  - unfold App.slideSfx. cbv zeta.
    destruct (decide _) as [E|_].
    + rewrite E. now destruct s as [b [] a].
    + destruct (App.booted s) eqn:B.
      * destruct (in_tune_cases s H) as [(mv & sv & Ht)|[_ B']]; [|congruence].
        now apply (volumeEffect_tunes _ mv sv).
      * unfold App.volumeEffect. simpl.
        unfold App.in_tune in *. simpl. destruct (initialized (App.audio s)).
        -- destruct H as (mv & sv & Ht & _). exists mv, sv. split; [exact Ht|].
           discriminate.
        -- now split.
  - apply (onAudio_in_tune PlayClickSound); [now intros []|discriminate|exact H].
  - apply (onAudio_in_tune ToggleMute); [now intros []|discriminate|exact H].
  - apply (onAudio_in_tune PlayClickSound); [now intros []|discriminate|exact H].
  - apply (onAudio_in_tune (PlayHoverSound r)); [now intros []|discriminate|exact H].
  - apply (onAudio_in_tune (Tick dt)); [now intros []|discriminate|exact H].
  - pose proof (onAudio_in_tune PlayClickSound s ltac:(now intros [])
                  ltac:(discriminate) H) as H'.
    unfold App.in_tune, App.check, App.onAudio in *. simpl in *.
    destruct (initialized (final (playClickSound (App.audio s)))); [|exact H'].
    destruct H' as (mv & sv & Ht & Hb). exists mv, sv. split; [exact Ht|].
    now destruct flag.
Qed.

Lemma steps_in_tune evs s : App.in_tune s -> App.in_tune (fold_left App.step evs s).
Proof.
  revert s. induction evs as [|ev evs IH]; intros s H; [exact H|].
  simpl. apply IH. now apply step_in_tune.
Qed.

Lemma initial_in_tune : App.in_tune App.initial.
Proof. unfold App.in_tune. simpl. now split. Qed.

(** X20: in App.jsx, once booted, the engine follows the view after
    every event: the music and sfx buses are heading for the current
    [settings.musicVol / 100] and [settings.sfxVol / 100], and the
    master gain for 0 or 1 according to the mute flag. *)
Theorem engine_follows_the_sliders (evs : list App.Event) :
  Forall App.laidOut evs ->
  let s := fold_left App.step evs App.initial in
  App.booted s = true ->
  aims_at musicGain (App.audio s) (IZR (App.musicVol (App.settings s)) / 100) /\
  aims_at sfxGain (App.audio s) (IZR (App.sfxVol (App.settings s)) / 100) /\
  aims_at masterGain (App.audio s) (if isMuted (App.audio s) then 0 else 1).
Proof.
  intros _ s B.
  pose proof (in_tune_booted s (steps_in_tune evs _ initial_in_tune) B) as H.
  destruct (tuned_aims _ _ _ H) as (Hm & Hmu & Hs). now repeat split.
Qed.
Lemma booted_stays s ev : App.booted s = true -> App.booted (App.step s ev) = true.
Proof.
  intros B. destruct ev as [w|x l wd|x l wd| | | |r|dt|flag]; unfold App.step;
    try exact B.
  - now rewrite B.
  - unfold App.slideMusic. cbv zeta. destruct (decide _); [exact B|].
    unfold App.volumeEffect. simpl. now rewrite B.
  - unfold App.slideSfx. cbv zeta. destruct (decide _); [exact B|].
    unfold App.volumeEffect. simpl. now rewrite B.
Qed.

Lemma booted_after evs s :
  App.booted s = true -> App.booted (fold_left App.step evs s) = true.
Proof.
  revert s. induction evs as [|ev evs IH]; intros s B; [exact B|].
  simpl. apply IH. now apply booted_stays.
Qed.

Lemma boot_boots k e :
  App.booted (App.step App.initial (App.Boot (mkWindow (Some k) e))) = true.
Proof.
  unfold App.step, App.boot. cbn [App.booted App.initial App.audio].
  change ((init (mkWindow (Some k) e);; playClickSound) constructor)
    with (match init (mkWindow (Some k) e) constructor with
          | Return _ a => playClickSound a
          | Throw e a => Throw e a
          end).
  rewrite (init_fresh (mkWindow (Some k) e) k constructor eq_refl eq_refl).
  reflexivity.
Qed.

Lemma engine_follows_the_sliders_witness :
  let s := fold_left App.step
             [App.Boot (mkWindow (Some (mkConstructor suspended 0)) None);
              App.SlideMusic 150 100 200; App.KeyM; App.Hover 0.5;
              App.SlideSfx 0 100 200; App.SlideEnd; App.Check App.Dof]
             App.initial in
  aims_at musicGain (App.audio s) (IZR (App.musicVol (App.settings s)) / 100) /\
  aims_at sfxGain (App.audio s) (IZR (App.sfxVol (App.settings s)) / 100) /\
  aims_at masterGain (App.audio s) (if isMuted (App.audio s) then 0 else 1).
Proof.
  intros s. apply engine_follows_the_sliders.
  - repeat constructor; simpl; lra.
  - unfold s. cbn [fold_left]. do 6 apply booted_stays. apply boot_boots.
Defined.

End ViewInTune.

(** ** System monitor *)

Section MonitorFacts.
Import SystemMonitor.




End MonitorFacts.
